(** * pydantic2zod: the Pydantic declaration parser ([pydantic2zod/_parser.py])

    A shallow embedding of the parser that extracts Pydantic model
    declarations from a Python module, and the properties of its type
    extractor, model classifier, dependency collection and emission order.

    Python dictionaries that are only looked up are [gmap]s, Python sets are
    [gset]s, exceptions are the [Exc] outcome of the [res] monad, and logger
    calls are returned as a list of records. *)

From Stdlib Require Import Ascii String.
From stdpp Require Import base option list relations gmap strings fin_maps fin_sets.

#[local] Set Warnings "-register-all,-clear-no-such-hyp".

Open Scope string_scope.
Open Scope list_scope.

(** ** Exceptions *)

Inductive exn :=
| KeyError (key : string)
| AssertionError (msg : string)
| EnsureTypeError (expected : string)   (* [cst.ensure_type] raising [Exception] *)
| ImportError (msg : string)
| IndexError
| RecursionError.

Inductive res (A : Type) :=
| Ret (a : A)
| Exc (e : exn).
Arguments Ret {A} a.
Arguments Exc {A} e.

#[global] Instance res_ret : MRet res := λ A a, Ret a.

#[global] Instance res_bind : MBind res := λ A B k m,
  match m with
  | Ret a => k a
  | Exc e => Exc e
  end.

Definition returns {A} (m : res A) : Prop := ∃ a, m = Ret a.
Definition raises {A} (m : res A) : Prop := ∃ e, m = Exc e.

(** ** The libcst expression nodes the parser looks at *)

Inductive BaseSlice (E : Type) :=
| Index (value : E)
| Slice.
Arguments Index {E} value.
Arguments Slice {E}.

Inductive BinaryOp := BitOr | BitAnd | Add | OtherOp (name : string).

Inductive expr :=
| Name (value : string)
| Subscript (value : expr) (slice : list (BaseSlice expr))
| BinaryOperation (left : expr) (operator : BinaryOp) (right : expr)
| SimpleString (value : string)
| Integer (value : string)
| Attribute (value : expr) (attr : string)
| Dict
| OtherExpression (class_name : string).

Definition class_of (node : expr) : string :=
  match node with
  | Name _ => "Name"
  | Subscript _ _ => "Subscript"
  | BinaryOperation _ _ _ => "BinaryOperation"
  | SimpleString _ => "SimpleString"
  | Integer _ => "Integer"
  | Attribute _ _ => "Attribute"
  | Dict => "Dict"
  | OtherExpression c => c
  end.

(** ** The type model ([pydantic2zod/_model.py]) *)

(** Modelled from the spec: the declarations of [_model.py] are not part of
    the sources at hand.  The variants and their fields are the ones the
    parser constructs and matches on.  A [LiteralType] is built from a
    [value] by [_parse_literal] and matched on a [type] attribute by
    [_get_user_defined_types]; the payload below has both shapes. *)
Inductive Literal_payload (T : Type) :=
| LitValue (value : string)
| LitType (type : T).
Arguments LitValue {T} value.
Arguments LitType {T} type.

Inductive PyType :=
| PrimitiveType (name : string)
| BuiltinType (name : string)
| GenericType (generic : string) (type_vars : list PyType)
| UnionType (types : list PyType)
| LiteralType (payload : Literal_payload PyType)
| TupleType (types : list PyType)
| UserDefinedType (name : string).

Inductive PyValue :=
| PyString (value : string)
| PyNone
| PyDict.

Record ClassField := mkClassField {
  field_name : string;
  field_type : PyType;
  default_value : option PyValue;
  field_comment : option string
}.

Record ClassDecl := mkClassDecl {
  name : string;
  base_classes : list string;
  fields : list ClassField;
  comment : option string
}.

(** ** String helpers *)

(** [s] without the occurrences of the character [c]. *)
Fixpoint remove_char (c : ascii) (s : string) : string :=
  match s with
  | EmptyString => EmptyString
  | String a s' =>
      if Ascii.eqb a c then remove_char c s' else String a (remove_char c s')
  end.

Definition dquote : ascii := Ascii.ascii_of_nat 34.
Definition squote : ascii := Ascii.ascii_of_nat 39.

(** [str.lower] on the four container names it is applied to. *)
Definition lower (s : string) : string :=
  if decide (s = "Dict") then "dict"
  else if decide (s = "List") then "list"
  else s.

(** ** The field type extractor *)

Definition _primitive_or_user_defined_type (type_name : string) : PyType :=
  if decide (type_name ∈ ["str"; "bytes"; "bool"; "int"; "float"; "None"])
  then PrimitiveType type_name
  else if decide (type_name ∈ ["dict"; "Dict"; "list"; "List"])
  then BuiltinType (lower type_name)
  else UserDefinedType type_name.

(** One round of the loop of [_parse_literal]: the element must be an
    [Index] holding a [SimpleString]; every double-quote character of its
    source text is dropped. *)
Definition literal_value (elem : BaseSlice expr) : res string :=
  match elem with
  | Index (SimpleString value) => Ret (remove_char dquote value)
  | Index _ => Exc (EnsureTypeError "SimpleString")
  | Slice => Exc (EnsureTypeError "Index")
  end.

(** A loop that appends one result per element and stops at the first
    exception. *)
Definition mapM {A B} (f : A → res B) : list A → res (list B) :=
  fix go (l : list A) : res (list B) :=
    match l with
    | [] => Ret []
    | x :: l' => y ← f x; ys ← go l'; Ret (y :: ys)
    end.

(** [_parse_literal(node)] with [node = Subscript(value, slice)]. *)
Definition _parse_literal (value : expr) (slice : list (BaseSlice expr)) : res PyType :=
  match value with
  | Name generic_type =>
      if decide (generic_type = "Literal") then
        literal_values ← mapM literal_value slice;
        match literal_values with
        | [v] => Ret (LiteralType (LitValue v))
        | _ => Ret (UnionType ((λ v, LiteralType (LitValue v)) <$> literal_values))
        end
      else Exc (AssertionError "Literal")
  | _ => Exc (EnsureTypeError "Name")
  end.

(** What [_extract_union] does with each extracted operand. *)
Definition union_members (t : PyType) : list PyType :=
  match t with
  | UnionType types => types
  | single_type => [single_type]
  end.

Definition unexpected_node (node : expr) : exn :=
  AssertionError ("Unexpected node in type definition: '" +:+ class_of node +:+ "'").

Definition unexpected_generic (other : string) : exn :=
  AssertionError ("Unexpected generic type: '" +:+ other +:+ "'").

(** The [match generic_type] of [_parse_generic_type] for the bases other
    than [Literal]; [args] is [_parse_types_list(node)]. *)
Definition generic_of (generic_type : string) (args : res (list PyType)) : res PyType :=
  if decide (generic_type ∈ ["list"; "List"]) then
    ts ← args; Ret (GenericType "list" ts)
  else if decide (generic_type ∈ ["dict"; "Dict"]) then
    ts ← args; Ret (GenericType "dict" ts)
  else if decide (generic_type = "Union") then
    ts ← args; Ret (UnionType ts)
  else if decide (generic_type = "Optional") then
    ts ← args; Ret (UnionType (ts ++ [PrimitiveType "None"]))
  else if decide (generic_type ∈ ["tuple"; "Tuple"]) then
    ts ← args; Ret (TupleType ts)
  else Exc (unexpected_generic generic_type).

(** [_extract_type], [_parse_generic_type], [_parse_types_list] and
    [_extract_union] call each other; the recursion is on the syntax tree.
    The three helpers are given their own names below. *)
Fixpoint _extract_type (node : expr) : res PyType :=
  match node with
  | Name type_name => Ret (_primitive_or_user_defined_type type_name)
  | Subscript value slice =>
      match value with
      | Name generic_type =>
          if decide (generic_type = "Literal") then _parse_literal value slice
          else
            generic_of generic_type
              ((fix types_list (elements : list (BaseSlice expr)) : res (list PyType) :=
                  match elements with
                  | [] => Ret []
                  | element :: rest =>
                      t ← match element with
                          | Index type_var_node =>
                              match type_var_node with
                              | Name type_var =>
                                  Ret (_primitive_or_user_defined_type type_var)
                              | _ => _extract_type type_var_node
                              end
                          | Slice => Exc (EnsureTypeError "Index")
                          end;
                      ts ← types_list rest;
                      Ret (t :: ts)
                  end) slice)
      | _ => Exc (EnsureTypeError "Name")
      end
  | BinaryOperation node_left operator node_right =>
      match operator with
      | BitOr =>
          l ← _extract_type node_left;
          r ← _extract_type node_right;
          Ret (UnionType (union_members l ++ union_members r))
      | _ => Exc (EnsureTypeError "BitOr")
      end
  | _ => Exc (unexpected_node node)
  end.

Definition type_var (element : BaseSlice expr) : res PyType :=
  match element with
  | Index (Name type_var) => Ret (_primitive_or_user_defined_type type_var)
  | Index other => _extract_type other
  | Slice => Exc (EnsureTypeError "Index")
  end.

Definition _parse_types_list (slice : list (BaseSlice expr)) : res (list PyType) :=
  mapM type_var slice.

Definition _parse_generic_type (value : expr) (slice : list (BaseSlice expr)) : res PyType :=
  match value with
  | Name generic_type =>
      if decide (generic_type = "Literal") then _parse_literal value slice
      else generic_of generic_type (_parse_types_list slice)
  | _ => Exc (EnsureTypeError "Name")
  end.

Definition _extract_union (node_left : expr) (operator : BinaryOp) (node_right : expr)
  : res PyType :=
  match operator with
  | BitOr =>
      l ← _extract_type node_left;
      r ← _extract_type node_right;
      Ret (UnionType (union_members l ++ union_members r))
  | _ => Exc (EnsureTypeError "BitOr")
  end.

(** ** Default values *)

(** [_logger.warning(msg, arg)]. *)
Inductive log_record :=
| Warning (msg : string) (arg : expr).

Definition _parse_value (node : expr) : PyValue * list log_record :=
  match node with
  | SimpleString value => (PyString (remove_char dquote value), [])
  | Name value =>
      if decide (value = "None") then (PyNone, [])
      else (PyNone, [Warning "Unsupported value type: '%s'" node])
  | Dict => (PyDict, [])
  | other => (PyNone, [Warning "Unsupported value type: '%s'" other])
  end.

(** ** Dependencies of a type *)

Fixpoint _get_user_defined_types (tp : PyType) : list string :=
  match tp with
  | UserDefinedType name => [name]
  | UnionType types => concat (map _get_user_defined_types types)
  | LiteralType (LitType type_) => _get_user_defined_types type_
  | GenericType _ args => concat (map _get_user_defined_types args)
  | _ => []
  end.

(** ** The dependency graph ([networkx.DiGraph])

    The graph library is not part of the program; the model keeps what the
    parser relies on: nodes in insertion order, the successors of a node in
    insertion order, [add_node] and [add_edge] that ignore what is already
    there, and the postorder depth-first traversal over every node. *)

Record DiGraph := mkDiGraph {
  nodes : list string;
  _adj : gmap string (list string)
}.

Definition empty_graph : DiGraph := mkDiGraph [] ∅.

(** [G[v]]: the successors of [v]. *)
Definition successors (G : DiGraph) (v : string) : list string :=
  default [] (_adj G !! v).

Definition add_node (n : string) (G : DiGraph) : DiGraph :=
  if decide (n ∈ nodes G) then G
  else mkDiGraph (nodes G ++ [n]) (<[n := []]> (_adj G)).

Definition add_edge (u v : string) (G : DiGraph) : DiGraph :=
  let G' := add_node v (add_node u G) in
  if decide (v ∈ successors G' u) then G'
  else mkDiGraph (nodes G') (<[u := successors G' u ++ [v]]> (_adj G')).

(** One depth-first visit from [v]; the state is the set of visited nodes
    and the nodes finished so far.  [fuel] bounds the depth of the search;
    a path of the search never repeats a node, so one more than the number
    of nodes is always enough ([dfs_postorder_nodes] below). *)
Fixpoint dfs_visit (fuel : nat) (G : DiGraph) (v : string)
    (st : gset string * list string) : gset string * list string :=
  match fuel with
  | 0 => st
  | S fuel' =>
      if decide (v ∈ st.1) then st
      else
        let st' := foldl (λ st c, dfs_visit fuel' G c st)
                         ({[v]} ∪ st.1, st.2) (successors G v) in
        (st'.1, st'.2 ++ [v])
  end.

Definition dfs_from (fuel : nat) (G : DiGraph) (sources : list string)
    (st : gset string * list string) : gset string * list string :=
  foldl (λ st c, dfs_visit fuel G c st) st sources.

Definition dfs_postorder_nodes (G : DiGraph) : list string :=
  (dfs_from (S (length (nodes G))) G (nodes G) (∅, [])).2.

(** ** Class definitions and the class visitor ([_ParseClassDecl]) *)

Record AnnAssign := mkAnnAssign {
  target : expr;
  annotation : expr;
  value : option expr
}.

(** The statements of a class body, as the walk of the visitor meets
    them: annotated assignments, statement lines holding one string
    expression, class definitions and function definitions, with their
    bodies.  [SOther] is a statement in which the walk finds none of
    these.  A compound statement other than a class or a function stands
    for the statements of its blocks, in place: the guards of the visitor
    ask for an enclosing class or function only. *)
Inductive stmt :=
| SAnnAssign (node : AnnAssign)
| SExprString (value : string)
| SClassDef (def_name : string) (bases : list expr) (body : list stmt)
| SFunctionDef (body : list stmt)
| SOther.

Record ClassDef := mkClassDef {
  def_name : string;
  bases : list expr;
  body : list stmt
}.

Record ParseClassDecl := mkParseClassDecl {
  class_decl : ClassDecl;
  _last_field_nr : nat;
  logged : list log_record
}.

(** Three double quotes in a row are dropped, scanning from the left. *)
Fixpoint remove_triple_dquote (s : string) : string :=
  match s with
  | EmptyString => EmptyString
  | String a s1 =>
      match s1 with
      | String b (String c rest) =>
          if Ascii.eqb a dquote && Ascii.eqb b dquote && Ascii.eqb c dquote
          then remove_triple_dquote rest
          else String a (remove_triple_dquote s1)
      | _ => String a (remove_triple_dquote s1)
      end
  end.

Definition name_values (l : list expr) : list string :=
  omap (λ b, match b with Name v => Some v | _ => None end) l.

(** [_ParseClassDecl.__init__]. *)
Definition new_ParseClassDecl : ParseClassDecl :=
  mkParseClassDecl (mkClassDecl "to_be_parsed" [] [] None) 0 [].

(** The class under construction is replaced; the number of the last
    field is not reset. *)
Definition visit_ClassDef (node : ClassDef) (self : ParseClassDecl) : ParseClassDecl :=
  mkParseClassDecl (mkClassDecl (def_name node) (name_values (bases node)) [] None)
    (_last_field_nr self) (logged self).

Definition set_comment (c : string) (f : ClassField) : ClassField :=
  mkClassField (field_name f) (field_type f) (default_value f) (Some c).

Definition visit_SimpleString (value : string) (self : ParseClassDecl)
  : res ParseClassDecl :=
  let text := remove_triple_dquote value in
  let cls := class_decl self in
  if decide (_last_field_nr self = 0) then
    Ret (mkParseClassDecl
           (mkClassDecl (name cls) (base_classes cls) (fields cls) (Some text))
           (_last_field_nr self) (logged self))
  else
    match fields cls !! (_last_field_nr self - 1) with
    | Some _ =>
        Ret (mkParseClassDecl
               (mkClassDecl (name cls) (base_classes cls)
                  (alter (set_comment text) (_last_field_nr self - 1) (fields cls))
                  (comment cls))
               (_last_field_nr self) (logged self))
    | None => Exc IndexError
    end.

Definition visit_AnnAssign (node : AnnAssign) (self : ParseClassDecl)
  : res ParseClassDecl :=
  let nr := S (_last_field_nr self) in
  match target node with
  | Name target_name =>
      type_ ← _extract_type (annotation node);
      let dv := _parse_value <$> value node in
      let cls := class_decl self in
      Ret (mkParseClassDecl
             (mkClassDecl (name cls) (base_classes cls)
                (fields cls ++ [mkClassField target_name type_ (fst <$> dv) None])
                (comment cls))
             nr (logged self ++ default [] (snd <$> dv)))
  | _ => Exc (EnsureTypeError "Name")
  end.

(** A loop that threads a state and stops at the first exception. *)
Definition foldM {A S} (f : S → A → res S) : S → list A → res S :=
  fix go (s : S) (l : list A) : res S :=
    match l with
    | [] => Ret s
    | x :: l' => s' ← f s x; go s' l'
    end.

(** The walk over one statement.  [visit_ClassDef] has no guard and is
    called for every class definition the walk meets; [visit_AnnAssign] and
    [visit_SimpleString] are not called inside a function definition
    ([inside_function]); the walk always is inside the class definition it
    started from. *)
Fixpoint visit_stmt (inside_function : bool) (self : ParseClassDecl) (s : stmt)
  : res ParseClassDecl :=
  match s with
  | SAnnAssign node => if inside_function then Ret self else visit_AnnAssign node self
  | SExprString value => if inside_function then Ret self else visit_SimpleString value self
  | SClassDef def_name bases body =>
      foldM (visit_stmt inside_function)
            (visit_ClassDef (mkClassDef def_name bases body) self) body
  | SFunctionDef body => foldM (visit_stmt true) self body
  | SOther => Ret self
  end.

Definition visit_body (self : ParseClassDecl) (stmts : list stmt) : res ParseClassDecl :=
  foldM (visit_stmt false) self stmts.

(** [_ParseClassDecl().visit(node)]. *)
Definition parse_class_decl (node : ClassDef) : res ParseClassDecl :=
  visit_body (visit_ClassDef node new_ParseClassDecl) (body node).

(** ** Import statements ([_ParseImportFrom]) *)

(** [from <relative dots><module> import <names>]. *)
Record ImportFrom := mkImportFrom {
  relative : nat;
  module : list string;
  names : list string
}.

Fixpoint join (sep : string) (l : list string) : string :=
  match l with
  | [] => EmptyString
  | [x] => x
  | x :: rest => x +:+ sep +:+ join sep rest
  end.

Fixpoint dots (n : nat) : string :=
  match n with
  | 0 => EmptyString
  | S n' => String "." (dots n')
  end.

Definition imports_of (node : ImportFrom) : gmap string string :=
  let from_ := dots (relative node) +:+ join "." (module node) in
  foldl (λ m imp, <[imp := from_]> m) ∅ (names node).

(** [self._imports |= ...]: the names of the statement replace earlier
    entries. *)
Definition visit_ImportFrom (imports : gmap string string) (node : ImportFrom)
  : gmap string string :=
  imports_of node ∪ imports.

(** [importlib.util.resolve_name]: a name without a leading dot is already
    absolute; otherwise the dots are counted and all but one of them strip
    one trailing component each from the package. *)
Fixpoint leading_dots (s : string) : nat * string :=
  match s with
  | String c s' =>
      if Ascii.eqb c "." then let '(n, r) := leading_dots s' in (S n, r)
      else (0, s)
  | EmptyString => (0, s)
  end.

Fixpoint split_dots (s : string) : list string :=
  match s with
  | EmptyString => [EmptyString]
  | String c s' =>
      if Ascii.eqb c "." then EmptyString :: split_dots s'
      else match split_dots s' with
           | x :: rest => String c x :: rest
           | [] => [String c EmptyString]
           end
  end.

Definition resolve_name (name : string) (package : option string) : res string :=
  match leading_dots name with
  | (0, _) => Ret name
  | (level, rest) =>
      match package with
      | None => Exc (ImportError "no package specified")
      | Some pkg =>
          if decide (pkg = EmptyString) then Exc (ImportError "no package specified")
          else
            let bits := split_dots pkg in
            if decide (length bits < level)
            then Exc (ImportError "attempted relative import beyond top-level package")
            else
              let base := join "." (take (length bits - (level - 1)) bits) in
              Ret (if decide (rest = EmptyString) then base else base +:+ "." +:+ rest)
      end
  end.

(** ** The module visitor ([_ParseModule]) *)

Record ParseModule := mkParseModule {
  _parse_only_models : gset string;
  _model_graph : DiGraph;
  package : option string;             (* [_parsing_module.__package__] *)
  _pydantic_classes : gmap string ClassDecl;
  _classes : gmap string ClassDecl;
  _class_nodes : gmap string ClassDef;
  _alias_nodes : gmap string AnnAssign;
  _external_models : gset string;
  _imports : gmap string string
}.

(** [d[key]] on a dictionary. *)
Definition getitem {V} (d : gmap string V) (key : string) : res V :=
  match d !! key with
  | Some v => Ret v
  | None => Exc (KeyError key)
  end.

Definition well_known : list string := ["uuid.UUID"; "pydantic.BaseModel"].

Definition external_model_path (self : ParseModule) (name : string)
  : res (option string) :=
  from_module ← getitem (_imports self) name;
  abs_module_name ← resolve_name from_module (package self);
  let abs_cls_name := abs_module_name +:+ "." +:+ name in
  Ret (if decide (abs_cls_name ∈ well_known) then None else Some abs_cls_name).

Definition external_models (self : ParseModule) : res (gset string) :=
  paths ← mapM (external_model_path self) (elements (_external_models self));
  Ret (list_to_set (omap id paths)).

Definition _class_deps (cls : ClassDecl) : list string :=
  filter (λ c, c ≠ "BaseModel") (base_classes cls)
  ++ concat (map (λ f, _get_user_defined_types (field_type f)) (fields cls)).

(** One round of the alias loop of [_finish_parsing_class]. *)
Definition resolve_alias (self : ParseModule) (f : ClassField) : res ClassField :=
  match field_type f with
  | UserDefinedType alias =>
      match _alias_nodes self !! alias with
      | Some node =>
          match value node with
          | Some v =>
              t ← _extract_type v;
              Ret (mkClassField (field_name f) t (default_value f) (field_comment f))
          | None => Exc (AssertionError "node.value")
          end
      | None => Ret f
      end
  | _ => Ret f
  end.

(** The class object stored in [_pydantic_classes] is the one whose fields
    the alias loop then updates in place, so the dictionary holds the
    class with its aliases resolved. *)
Definition _finish_parsing_class (self : ParseModule) (cls_decl : ClassDecl)
  : res (ParseModule * ClassDecl) :=
  node ← getitem (_class_nodes self) (name cls_decl);
  parsed ← parse_class_decl node;
  let cls := class_decl parsed in
  fs ← mapM (resolve_alias self) (fields cls);
  let cls' := mkClassDecl (name cls) (base_classes cls) fs (comment cls) in
  Ret (mkParseModule (_parse_only_models self)
         (add_node (name cls) (_model_graph self))
         (package self)
         (<[name cls := cls']> (_pydantic_classes self))
         (_classes self) (_class_nodes self) (_alias_nodes self)
         (_external_models self) (_imports self),
       cls').

(** The recursion follows base classes; [fuel] is the interpreter's
    recursion limit. *)
Fixpoint _is_pydantic_model (fuel : nat) (self : ParseModule) (cls : ClassDecl)
  : res bool :=
  match fuel with
  | 0 => Exc RecursionError
  | S fuel' =>
      direct ← (if decide ("BaseModel" ∈ base_classes cls)
                then from_ ← getitem (_imports self) "BaseModel";
                     Ret (bool_decide (from_ = "pydantic"))
                else Ret false);
      if (direct : bool) then Ret true
      else
        (fix loop (bs : list string) : res bool :=
           match bs with
           | [] => Ret false
           | b :: rest =>
               match _classes self !! b with
               | Some base => _is_pydantic_model fuel' self base
               | None => loop rest
               end
           end) (base_classes cls)
  end.

(** ** The entry point *)

(** The last three lines of [parse]: [model_graph] and [pydantic_models]
    are the graph and the class list once [_parse] has returned. *)
Definition models_by_name (pydantic_models : list ClassDecl) : gmap string ClassDecl :=
  foldl (λ m c, <[name c := c]> m) ∅ pydantic_models.

Definition parse (model_graph : DiGraph) (pydantic_models : list ClassDecl)
  : list ClassDecl :=
  let ordered_models := dfs_postorder_nodes model_graph in
  omap (λ c, models_by_name pydantic_models !! c) ordered_models.

(** ** Vocabulary of the statements *)

(** The source text of a string literal: [body] between two [q]s. *)
Definition py_str (q : ascii) (body : string) : string :=
  String q (body +:+ String q EmptyString).

Definition has_char (c : ascii) (s : string) : Prop := c ∈ list_ascii_of_string s.

Definition is_union (t : PyType) : bool :=
  match t with
  | UnionType _ => true
  | _ => false
  end.

Definition recognized_generics : list string :=
  ["Literal"; "list"; "List"; "dict"; "Dict"; "Union"; "Optional"; "tuple"; "Tuple"].

(** The shapes the extractor dispatches on, looking at the top node only. *)
Definition recognized_shape (node : expr) : bool :=
  match node with
  | Name _ => true
  | Subscript (Name g) _ => bool_decide (g ∈ recognized_generics)
  | BinaryOperation _ BitOr _ => true
  | _ => false
  end.

Definition is_string_index (element : BaseSlice expr) : bool :=
  match element with
  | Index (SimpleString _) => true
  | _ => false
  end.

(** The annotations built from the recognized shapes all the way down:
    identifiers, subscripts of a recognized base whose arguments are such
    annotations (string literals for [Literal]), and [|] between two such
    annotations. *)
Fixpoint accepted (node : expr) : bool :=
  match node with
  | Name _ => true
  | Subscript (Name g) slice =>
      if decide (g = "Literal") then forallb is_string_index slice
      else bool_decide (g ∈ recognized_generics)
           && forallb (λ element,
                         match element with
                         | Index e => accepted e
                         | Slice => false
                         end) slice
  | BinaryOperation l BitOr r => accepted l && accepted r
  | _ => false
  end.

(** The user-defined names of a type, in the words of the specification:
    the name itself, and what is reached through the members of a union,
    the type wrapped by a literal and the arguments of a generic. *)
Inductive reaches : PyType → string → Prop :=
| reaches_here n : reaches (UserDefinedType n) n
| reaches_union ts t n : t ∈ ts → reaches t n → reaches (UnionType ts) n
| reaches_literal t n : reaches t n → reaches (LiteralType (LitType t)) n
| reaches_generic g args t n : t ∈ args → reaches t n → reaches (GenericType g args) n.

(** The graph as a relation: [edge G x y] when [x] depends on [y]. *)
Definition edge (G : DiGraph) (x y : string) : Prop := y ∈ successors G x.

Definition acyclic (G : DiGraph) : Prop := ∀ x, ¬ tc (edge G) x x.

(** What a run does to the graph. *)
Inductive graph_op :=
| AddNode (n : string)
| AddEdge (u v : string).

Definition apply_op (G : DiGraph) (op : graph_op) : DiGraph :=
  match op with
  | AddNode n => add_node n G
  | AddEdge u v => add_edge u v G
  end.

Definition build (ops : list graph_op) : DiGraph := foldl apply_op empty_graph ops.

(** [l.index(x)]. *)
Fixpoint index_of (x : string) (l : list string) : option nat :=
  match l with
  | [] => None
  | y :: l' => if decide (x = y) then Some 0 else S <$> index_of x l'
  end.

(** A ranking of the nodes that strictly decreases along every edge. *)
Definition ranked (G : DiGraph) (rank : string → nat) : bool :=
  forallb (λ x, forallb (λ y, bool_decide (rank y < rank x)) (successors G x)) (nodes G).

(** No member of a union is itself a union, anywhere in the type. *)
Fixpoint flat (t : PyType) : bool :=
  match t with
  | UnionType ts => forallb (λ m, negb (is_union m) && flat m) ts
  | GenericType _ args => forallb flat args
  | TupleType ts => forallb flat ts
  | LiteralType (LitType t') => flat t'
  | _ => true
  end.

(** Spellings of annotations. *)
Definition Optional_ (T : expr) : expr := Subscript (Name "Optional") [Index T].
Definition Union_ (args : list expr) : expr := Subscript (Name "Union") (Index <$> args).
Definition Or_ (a b : expr) : expr := BinaryOperation a BitOr b.
Definition Literal_ (values : list string) : expr :=
  Subscript (Name "Literal") ((λ v, Index (SimpleString (py_str dquote v))) <$> values).
Definition none_type : PyType := PrimitiveType "None".

(** The default values the parser has a case for. *)
Definition supported_value (node : expr) : bool :=
  match node with
  | SimpleString _ | Dict => true
  | Name v => bool_decide (v = "None")
  | _ => false
  end.

(** The claim that every annotation of a recognized top shape is accepted. *)
Definition returns_on_recognized_shapes : Prop :=
  ∀ node, recognized_shape node = true → returns (_extract_type node).

(** The claim that the three spellings of an optional type agree for every
    accepted type. *)
Definition optional_spellings_agree : Prop :=
  ∀ T t, _extract_type T = Ret t →
    _extract_type (Optional_ T) = Ret (UnionType [t; none_type])
    ∧ _extract_type (Or_ T (Name "None")) = Ret (UnionType [t; none_type])
    ∧ _extract_type (Union_ [T; Name "None"]) = Ret (UnionType [t; none_type]).

(** The claim that the order of the members in the source does not show in
    the extracted union. *)
Definition optional_order_irrelevant : Prop :=
  ∀ T, _extract_type (Or_ (Name "None") T) = _extract_type (Or_ T (Name "None"))
       ∧ _extract_type (Union_ [Name "None"; T]) = _extract_type (Union_ [T; Name "None"]).

(** The claim that the value of a string literal is the text between its
    quote characters. *)
Definition quotes_stripped : Prop :=
  ∀ q body, q ∈ [dquote; squote] →
    (_parse_value (SimpleString (py_str q body))).1 = PyString body.

(** Alias resolution in the words of the specification: every user-defined
    leaf of the type that names a recorded alias is replaced by the alias's
    extracted type, once. *)
Fixpoint resolve_leaves (self : ParseModule) (t : PyType) : res PyType :=
  match t with
  | UserDefinedType alias =>
      match _alias_nodes self !! alias with
      | Some node =>
          match value node with
          | Some v => _extract_type v
          | None => Exc (AssertionError "node.value")
          end
      | None => Ret t
      end
  | UnionType ts => ts' ← mapM (resolve_leaves self) ts; Ret (UnionType ts')
  | GenericType g args => args' ← mapM (resolve_leaves self) args; Ret (GenericType g args')
  | TupleType ts => ts' ← mapM (resolve_leaves self) ts; Ret (TupleType ts')
  | LiteralType (LitType t') =>
      t'' ← resolve_leaves self t'; Ret (LiteralType (LitType t''))
  | _ => Ret t
  end.

(** The claim that aliases are resolved in every leaf of a field's type. *)
Definition aliases_resolved_in_leaves : Prop :=
  ∀ self cls_decl node parsed self' cls,
    _class_nodes self !! name cls_decl = Some node →
    parse_class_decl node = Ret parsed →
    _finish_parsing_class self cls_decl = Ret (self', cls) →
    mapM (λ f, resolve_leaves self (field_type f)) (fields (class_decl parsed))
    = Ret (field_type <$> fields cls).

(** What the alias loop does to one field: [f0] is the field as parsed,
    [f] the field of the finished class. *)
Definition alias_resolved (self : ParseModule) (f0 f : ClassField) : Prop :=
  field_name f = field_name f0
  ∧ default_value f = default_value f0
  ∧ field_comment f = field_comment f0
  ∧ match field_type f0 with
    | UserDefinedType alias =>
        match _alias_nodes self !! alias with
        | Some node => ∃ v, value node = Some v ∧ _extract_type v = Ret (field_type f)
        | None => field_type f = field_type f0
        end
    | _ => field_type f = field_type f0
    end.

(** The aliases named directly by the fields have a right-hand side that
    the extractor accepts. *)
Definition aliases_extract (self : ParseModule) (fs : list ClassField) : Prop :=
  ∀ f alias node, f ∈ fs → field_type f = UserDefinedType alias →
    _alias_nodes self !! alias = Some node →
    ∃ v, value node = Some v ∧ returns (_extract_type v).

(** A module in which nothing has been parsed yet. *)
Definition module_of (pkg : option string) (imports : gmap string string)
    (class_nodes : list ClassDef) (aliases : list (string * AnnAssign)) : ParseModule :=
  mkParseModule ∅ empty_graph pkg ∅
    (foldl (λ m node,
              <[def_name node := class_decl (visit_ClassDef node new_ParseClassDecl)]> m)
           ∅ class_nodes)
    (foldl (λ m node, <[def_name node := node]> m) ∅ class_nodes)
    (foldl (λ m a, <[a.1 := a.2]> m) ∅ aliases)
    ∅ imports.

Definition skeleton (n : string) (bs : list string) : ClassDecl := mkClassDecl n bs [] None.

(** The import table has an entry for [BaseModel] wherever the classifier
    looks it up. *)
Definition lists_base (cls : ClassDecl) : Prop := "BaseModel" ∈ base_classes cls.

Definition imports_cover_base (self : ParseModule) (cls : ClassDecl) : Prop :=
  (lists_base cls ∨ ∃ n c, _classes self !! n = Some c ∧ lists_base c) →
  is_Some (_imports self !! "BaseModel").

(** A module with the aliases [Age: TypeAlias = int] and [Years: TypeAlias
    = Age] and the class
    [class M(BaseModel): age: Age; ages: list[Age]; years: Years]. *)
Definition alias_example_class : ClassDef :=
  mkClassDef "M" [Name "BaseModel"]
    [SAnnAssign (mkAnnAssign (Name "age") (Name "Age") None);
     SAnnAssign (mkAnnAssign (Name "ages") (Subscript (Name "list") [Index (Name "Age")]) None);
     SAnnAssign (mkAnnAssign (Name "years") (Name "Years") None)].

Definition alias_example : ParseModule :=
  module_of None {["BaseModel" := "pydantic"]} [alias_example_class]
    [("Age", mkAnnAssign (Name "Age") (Name "TypeAlias") (Some (Name "int")));
     ("Years", mkAnnAssign (Name "Years") (Name "TypeAlias") (Some (Name "Age")))].

(** A module of package [pkg.sub] that imports [Foo] from [.models], [Bar]
    from [..core.types], [UUID] from [uuid] and [BaseModel] from
    [pydantic], all four recorded as external. *)
Definition external_example : ParseModule :=
  mkParseModule ∅ empty_graph (Some "pkg.sub") ∅ ∅ ∅ ∅
    {["Foo"; "Bar"; "UUID"; "BaseModel"]}
    (foldl visit_ImportFrom ∅
       [mkImportFrom 1 ["models"] ["Foo"];
        mkImportFrom 2 ["core"; "types"] ["Bar"];
        mkImportFrom 0 ["uuid"] ["UUID"];
        mkImportFrom 0 ["pydantic"] ["BaseModel"]]).

(** The fully-qualified path of an external name. *)
Definition qualified (self : ParseModule) (name path : string) : Prop :=
  ∃ from_module abs_module_name,
    _imports self !! name = Some from_module
    ∧ resolve_name from_module (package self) = Ret abs_module_name
    ∧ path = abs_module_name +:+ "." +:+ name.

(** What [add_node] and [add_edge] maintain: a node is recorded once, and
    both ends of an edge are nodes. *)
Definition well_formed (G : DiGraph) : Prop :=
  NoDup (nodes G) ∧ ∀ u w, edge G u w → u ∈ nodes G ∧ w ∈ nodes G.

(** [w] occurs in [l] before an occurrence of [x]. *)
Definition before (l : list string) (w x : string) : Prop :=
  ∃ l1 l2, l = l1 ++ x :: l2 ∧ w ∈ l1.

(** What a search from [sources] does to the state [(vis, out)]: it
    finishes the nodes [new], which were not visited, are reached from the
    sources, and come after their own successors unless those were visited
    before the search or lie on a cycle through the node. *)
Definition dfs_post (G : DiGraph) (sources : list string)
    (vis : gset string) (out : list string) (r : gset string * list string) : Prop :=
  ∃ new,
    r = (vis ∪ list_to_set new, out ++ new)
    ∧ NoDup new
    ∧ (∀ x, x ∈ new → (x ∉ vis) ∧ (x ∈ nodes G))
    ∧ (∀ x, x ∈ new → ∃ s, s ∈ sources ∧ rtc (edge G) s x)
    ∧ (∀ s, s ∈ sources → s ∈ vis ∨ s ∈ new)
    ∧ (∀ x w, x ∈ new → edge G x w → w ∈ vis ∨ before new w x ∨ tc (edge G) w x).

(** The diamond: [D] depends on [B] and [C], which both depend on [A]. *)
Definition diamond : list graph_op :=
  [AddNode "D"; AddNode "C"; AddNode "B"; AddNode "A";
   AddEdge "D" "B"; AddEdge "D" "C"; AddEdge "B" "A"; AddEdge "C" "A"].

Definition diamond_models : list ClassDecl :=
  [skeleton "D" ["B"; "C"]; skeleton "C" ["A"]; skeleton "B" ["A"];
   skeleton "A" ["BaseModel"]].

Definition diamond_rank (c : string) : nat :=
  if decide (c = "A") then 0 else if decide (c = "D") then 2 else 1.

(** ** Induction over the nested syntax and type trees *)

Section expr_induction.
Variable P : expr → Prop.
Hypothesis HName : ∀ v, P (Name v).
Hypothesis HSubscript : ∀ v slice,
    P v → Forall (λ el, match el with Index e => P e | Slice => True end) slice →
    P (Subscript v slice).
Hypothesis HBin : ∀ l op r, P l → P r → P (BinaryOperation l op r).
Hypothesis HStr : ∀ v, P (SimpleString v).
Hypothesis HInt : ∀ v, P (Integer v).
Hypothesis HAttr : ∀ v a, P v → P (Attribute v a).
Hypothesis HDict : P Dict.
Hypothesis HOther : ∀ c, P (OtherExpression c).

Fixpoint expr_nested_ind (e : expr) : P e :=
    match e with
    | Name v => HName v
    | Subscript v slice =>
        HSubscript v slice (expr_nested_ind v)
          ((fix go (l : list (BaseSlice expr))
              : Forall (λ el, match el with Index e => P e | Slice => True end) l :=
              match l with
              | [] => Forall_nil_2 _
              | el :: l' =>
                  Forall_cons_2 _ el l'
                    (match el as el0
                       return match el0 with Index e => P e | Slice => True end
                     with
                     | Index e' => expr_nested_ind e'
                     | Slice => I
                     end) (go l')
              end) slice)
    | BinaryOperation l op r => HBin l op r (expr_nested_ind l) (expr_nested_ind r)
    | SimpleString v => HStr v
    | Integer v => HInt v
    | Attribute v a => HAttr v a (expr_nested_ind v)
    | Dict => HDict
    | OtherExpression c => HOther c
    end.
End expr_induction.

Section PyType_induction.
Variable P : PyType → Prop.
Hypothesis HPrim : ∀ n, P (PrimitiveType n).
Hypothesis HBuiltin : ∀ n, P (BuiltinType n).
Hypothesis HGeneric : ∀ g args, Forall P args → P (GenericType g args).
Hypothesis HUnion : ∀ ts, Forall P ts → P (UnionType ts).
Hypothesis HLitValue : ∀ v, P (LiteralType (LitValue v)).
Hypothesis HLitType : ∀ t, P t → P (LiteralType (LitType t)).
Hypothesis HTuple : ∀ ts, Forall P ts → P (TupleType ts).
Hypothesis HUser : ∀ n, P (UserDefinedType n).

Fixpoint PyType_nested_ind (t : PyType) : P t :=
    let all := fix all (l : list PyType) : Forall P l :=
      match l with
      | [] => Forall_nil_2 _
      | x :: l' => Forall_cons_2 _ x l' (PyType_nested_ind x) (all l')
      end in
    match t with
    | PrimitiveType n => HPrim n
    | BuiltinType n => HBuiltin n
    | GenericType g args => HGeneric g args (all args)
    | UnionType ts => HUnion ts (all ts)
    | LiteralType (LitValue v) => HLitValue v
    | LiteralType (LitType t') => HLitType t' (PyType_nested_ind t')
    | TupleType ts => HTuple ts (all ts)
    | UserDefinedType n => HUser n
    end.
End PyType_induction.

Section stmt_induction.
Variable P : stmt → Prop.
Hypothesis HAnnAssign : ∀ node, P (SAnnAssign node).
Hypothesis HExprString : ∀ value, P (SExprString value).
Hypothesis HClassDef : ∀ def_name bases body, Forall P body → P (SClassDef def_name bases body).
Hypothesis HFunctionDef : ∀ body, Forall P body → P (SFunctionDef body).
Hypothesis HOther : P SOther.

Fixpoint stmt_nested_ind (s : stmt) : P s :=
    let all := fix all (l : list stmt) : Forall P l :=
      match l with
      | [] => Forall_nil_2 _
      | x :: l' => Forall_cons_2 _ x l' (stmt_nested_ind x) (all l')
      end in
    match s with
    | SAnnAssign node => HAnnAssign node
    | SExprString value => HExprString value
    | SClassDef def_name bases body => HClassDef def_name bases body (all body)
    | SFunctionDef body => HFunctionDef body (all body)
    | SOther => HOther
    end.
End stmt_induction.

(** The nodes of the graph as a set. *)
Definition node_set (G : DiGraph) : gset string := list_to_set (nodes G).

(** ** Vocabulary of the further properties *)

(** The operands of a tree of [|], left to right. *)
Fixpoint or_leaves (e : expr) : list expr :=
  match e with
  | BinaryOperation l BitOr r => or_leaves l ++ or_leaves r
  | _ => [e]
  end.

(** The annotations whose type, when they are accepted, is a union. *)
Definition union_valued (e : expr) : bool :=
  match e with
  | BinaryOperation _ BitOr _ => true
  | Subscript (Name g) slice =>
      if decide (g = "Literal") then negb (bool_decide (length slice = 1))
      else bool_decide (g ∈ ["Union"; "Optional"])
  | _ => false
  end.

(** No argument of a [Union[...]] or [Optional[...]] is itself
    union-valued, anywhere in the annotation. *)
Fixpoint no_union_args (e : expr) : bool :=
  match e with
  | Subscript (Name g) slice =>
      if decide (g = "Literal") then true
      else forallb (λ element,
                      match element with
                      | Index a =>
                          no_union_args a
                          && (negb (bool_decide (g ∈ ["Union"; "Optional"]))
                              || negb (union_valued a))
                      | Slice => true
                      end) slice
  | BinaryOperation l _ r => no_union_args l && no_union_args r
  | _ => true
  end.

(** The identifiers of an annotation outside [Literal[...]] and
    [tuple[...]], left to right. *)
Fixpoint annotation_names (e : expr) : list string :=
  match e with
  | Name n => [n]
  | Subscript (Name g) slice =>
      if decide (g ∈ ["Literal"; "tuple"; "Tuple"]) then []
      else concat (map (λ element,
                          match element with
                          | Index a => annotation_names a
                          | Slice => []
                          end) slice)
  | BinaryOperation l _ r => annotation_names l ++ annotation_names r
  | _ => []
  end.

Definition builtin_names : list string :=
  ["str"; "bytes"; "bool"; "int"; "float"; "None"; "dict"; "Dict"; "list"; "List"].

(** No class definition is nested in the statement, inside a function
    or not. *)
Fixpoint no_nested_class (s : stmt) : bool :=
  match s with
  | SClassDef _ _ _ => false
  | SFunctionDef body => forallb no_nested_class body
  | _ => true
  end.

(** A class definition in whose body no class definition is nested: the
    body consists of annotated assignments, string statements and
    statements the visitor finds nothing in. *)
Definition unnested (node : ClassDef) : bool := forallb no_nested_class (body node).

(** The class definition the walk met last, from [cur] on: its name and
    those of its bases that are identifiers. *)
Fixpoint last_class_def (cur : string * list string) (s : stmt) : string * list string :=
  match s with
  | SClassDef def_name bases body => foldl last_class_def (def_name, name_values bases) body
  | SFunctionDef body => foldl last_class_def cur body
  | _ => cur
  end.

(** The string statements of a class body before its first annotated
    assignment. *)
Fixpoint leading_strings (body : list stmt) : list string :=
  match body with
  | SExprString s :: rest => s :: leading_strings rest
  | SOther :: rest | SFunctionDef _ :: rest => leading_strings rest
  | _ => []
  end.

(** The annotated assignments of a class body, each with the string
    statements between it and the next one. *)
Fixpoint segments (body : list stmt) : list (AnnAssign * list string) :=
  match body with
  | [] => []
  | SAnnAssign a :: rest => (a, leading_strings rest) :: segments rest
  | _ :: rest => segments rest
  end.

(** The comment a run of string statements leaves: the last one, without
    its triple quotes. *)
Definition docstring (ss : list string) : option string :=
  remove_triple_dquote <$> last ss.

(** The field an annotated assignment and the strings after it give. *)
Definition field_of (seg : AnnAssign * list string) (f : ClassField) : Prop :=
  target seg.1 = Name (field_name f)
  ∧ _extract_type (annotation seg.1) = Ret (field_type f)
  ∧ default_value f = fst <$> (_parse_value <$> value seg.1)
  ∧ field_comment f = docstring seg.2.

Definition assignment_logs (a : AnnAssign) : list log_record :=
  default [] (snd <$> (_parse_value <$> value a)).

Definition assignment_ok (a : AnnAssign) : bool :=
  match target a with
  | Name _ => accepted (annotation a)
  | _ => false
  end.

Definition triple_dquote : string :=
  String dquote (String dquote (String dquote EmptyString)).

(** A class with a docstring, a documented field and a method. *)
Definition documented_class : ClassDef :=
  mkClassDef "User" [Name "BaseModel"]
    [SExprString (triple_dquote +:+ "A user." +:+ triple_dquote);
     SAnnAssign (mkAnnAssign (Name "name") (Name "str") None);
     SExprString (triple_dquote +:+ "Full name." +:+ triple_dquote);
     SOther;
     SFunctionDef [SExprString (triple_dquote +:+ "Greets." +:+ triple_dquote);
                   SAnnAssign (mkAnnAssign (Name "greeting") (Name "str") None)];
     SAnnAssign (mkAnnAssign (Name "age") (Name "int") (Some (Integer "3")))].

(** A model with a nested class:
    [class M(BaseModel): class Config: ...; x: int]. *)
Definition nested_class : ClassDef :=
  mkClassDef "M" [Name "BaseModel"]
    [SClassDef "Config" [] [SOther];
     SAnnAssign (mkAnnAssign (Name "x") (Name "int") None)].

(** ** The module visitor at work

    [_classes] and [_pydantic_classes] are dictionaries the visitor
    iterates over, so the model keeps their keys in insertion order next
    to the maps; [warnings] are the records [leave_Module] and
    [_parse_pydantic_model] log. *)

(** [_logger.warning("Can't infer where '%s' is coming from. '%s' depends
    on it.", dep, cls.name)]. *)
Inductive module_log :=
| CantInfer (dep cls : string).

Record Visitor := mkVisitor {
  visitor : ParseModule;
  _classes_keys : list string;
  _pydantic_keys : list string;
  warnings : list module_log
}.

(** [d[k] = v] on the keys of a dictionary: a new key goes last, a key that
    is there keeps its place. *)
Definition key_add (k : string) (keys : list string) : list string :=
  if decide (k ∈ keys) then keys else keys ++ [k].

(** [d.values()]. *)
Definition dict_values {V} (keys : list string) (d : gmap string V) : list V :=
  omap (λ k, d !! k) keys.

(** [_ParseModule.__init__]. *)
Definition init_visitor (module_package : option string) (model_graph : DiGraph)
    (parse_only_models : gset string) : Visitor :=
  mkVisitor (mkParseModule parse_only_models model_graph module_package ∅ ∅ ∅ ∅ ∅ ∅) [] [] [].

Definition with_graph (G : DiGraph) (self : ParseModule) : ParseModule :=
  mkParseModule (_parse_only_models self) G (package self) (_pydantic_classes self)
    (_classes self) (_class_nodes self) (_alias_nodes self) (_external_models self)
    (_imports self).

Definition with_external (ext : gset string) (self : ParseModule) : ParseModule :=
  mkParseModule (_parse_only_models self) (_model_graph self) (package self)
    (_pydantic_classes self) (_classes self) (_class_nodes self) (_alias_nodes self)
    ext (_imports self).

(** [_ParseModule.visit_ImportFrom]. *)
Definition module_visit_ImportFrom (node : ImportFrom) (v : Visitor) : Visitor :=
  let self := visitor v in
  mkVisitor
    (mkParseModule (_parse_only_models self) (_model_graph self) (package self)
       (_pydantic_classes self) (_classes self) (_class_nodes self) (_alias_nodes self)
       (_external_models self) (visit_ImportFrom (_imports self) node))
    (_classes_keys v) (_pydantic_keys v) (warnings v).

(** [_ParseModule.visit_ClassDef]. *)
Definition module_visit_ClassDef (node : ClassDef) (v : Visitor) : Visitor :=
  let self := visitor v in
  let cls := class_decl (visit_ClassDef node new_ParseClassDecl) in
  mkVisitor
    (mkParseModule (_parse_only_models self) (add_node (name cls) (_model_graph self))
       (package self) (_pydantic_classes self)
       (<[name cls := cls]> (_classes self)) (<[name cls := node]> (_class_nodes self))
       (_alias_nodes self) (_external_models self) (_imports self))
    (key_add (name cls) (_classes_keys v)) (_pydantic_keys v) (warnings v).

(** [_ParseModule.visit_AnnAssign], for the assignments its decorators let
    through. *)
Definition module_visit_AnnAssign (node : AnnAssign) (v : Visitor) : res Visitor :=
  let self := visitor v in
  match target node with
  | Name target_name =>
      Ret (mkVisitor
             (mkParseModule (_parse_only_models self) (_model_graph self) (package self)
                (_pydantic_classes self) (_classes self) (_class_nodes self)
                (<[target_name := node]> (_alias_nodes self))
                (_external_models self) (_imports self))
             (_classes_keys v) (_pydantic_keys v) (warnings v))
  | _ => Exc (EnsureTypeError "Name")
  end.

(** The calls the walk over the syntax tree of a module makes into the
    visitor, in order. *)
Inductive visit_event :=
| VisitImportFrom (node : ImportFrom)
| VisitClassDef (node : ClassDef)
| VisitAnnAssign (node : AnnAssign).

Definition handle (v : Visitor) (ev : visit_event) : res Visitor :=
  match ev with
  | VisitImportFrom node => Ret (module_visit_ImportFrom node v)
  | VisitClassDef node => Ret (module_visit_ClassDef node v)
  | VisitAnnAssign node => module_visit_AnnAssign node v
  end.

(** [_finish_parsing_class] on the running visitor. *)
Definition finish (cls_decl : ClassDecl) (v : Visitor) : res (Visitor * ClassDecl) :=
  r ← _finish_parsing_class (visitor v) cls_decl;
  Ret (mkVisitor r.1 (_classes_keys v) (key_add (name r.2) (_pydantic_keys v)) (warnings v),
       r.2).

Definition _parse_all_classes (fuel : nat) (v : Visitor) : res Visitor :=
  foldM (λ v cls_decl,
           is_model ← _is_pydantic_model fuel (visitor v) cls_decl;
           if (is_model : bool) then r ← finish cls_decl v; Ret r.1 else Ret v)
        v (dict_values (_classes_keys v) (_classes (visitor v))).

(** The body of the loop over the dependencies in [leave_Module]. *)
Definition add_dependency (cls_name : string) (v : Visitor) (dep : string) : Visitor :=
  let self := visitor v in
  let G := add_edge cls_name dep (_model_graph self) in
  if decide (is_Some (_imports self !! dep)) then
    mkVisitor (with_external ({[dep]} ∪ _external_models self) (with_graph G self))
      (_classes_keys v) (_pydantic_keys v) (warnings v)
  else if decide (is_Some (_classes self !! dep)) then
    mkVisitor (with_graph G self) (_classes_keys v) (_pydantic_keys v) (warnings v)
  else
    mkVisitor (with_graph G self) (_classes_keys v) (_pydantic_keys v)
      (warnings v ++ [CantInfer dep cls_name]).

(** The body of the loop over the dependencies in [_parse_pydantic_model];
    [parse_model] is [_parse_pydantic_model] itself. *)
Definition process_dependency (parse_model : ClassDecl → Visitor → res Visitor)
    (cls_name : string) (v : Visitor) (dep : string) : res Visitor :=
  let self := visitor v in
  let G := add_edge cls_name dep (_model_graph self) in
  if decide (is_Some (_imports self !! dep)) then
    Ret (mkVisitor (with_external ({[dep]} ∪ _external_models self) (with_graph G self))
           (_classes_keys v) (_pydantic_keys v) (warnings v))
  else
    match _classes self !! dep with
    | Some cls_decl =>
        parse_model cls_decl
          (mkVisitor (with_graph G self) (_classes_keys v) (_pydantic_keys v) (warnings v))
    | None =>
        Ret (mkVisitor (with_graph G self) (_classes_keys v) (_pydantic_keys v)
               (warnings v ++ [CantInfer dep cls_name]))
    end.

(** The recursion follows the local dependencies of the class; [fuel] is
    the interpreter's recursion limit. *)
Fixpoint _parse_pydantic_model (fuel : nat) (cls : ClassDecl) (v : Visitor) : res Visitor :=
  match fuel with
  | 0 => Exc RecursionError
  | S fuel' =>
      is_model ← _is_pydantic_model fuel' (visitor v) cls;
      if negb is_model || bool_decide (is_Some (_pydantic_classes (visitor v) !! name cls))
      then Ret v
      else
        r ← finish cls v;
        foldM (process_dependency (_parse_pydantic_model fuel') (name r.2))
              r.1 (_class_deps r.2)
  end.

Definition leave_Module (fuel : nat) (v : Visitor) : res Visitor :=
  if decide (_parse_only_models (visitor v) = ∅) then
    v' ← _parse_all_classes fuel v;
    Ret (foldl (λ v cls, foldl (add_dependency (name cls)) v (_class_deps cls))
           v' (dict_values (_pydantic_keys v') (_pydantic_classes (visitor v'))))
  else
    foldM (λ v m, cls ← getitem (_classes (visitor v)) m; _parse_pydantic_model fuel cls v)
          v (elements (_parse_only_models (visitor v))).

(** [_ParseModule(module, model_graph, parse_only_models).visit(m)]: the
    walk, then [leave_Module]. *)
Definition visit_module (fuel : nat) (events : list visit_event) (v : Visitor) : res Visitor :=
  v' ← foldM handle v events; leave_Module fuel v'.

(** [_ParseModule.classes]. *)
Definition classes (v : Visitor) : list ClassDecl :=
  omap (λ c, _pydantic_classes (visitor v) !! c)
       (dfs_postorder_nodes (_model_graph (visitor v))).

(** No class definition the walk over the module meets has a class
    definition nested in it. *)
Definition unnested_events (events : list visit_event) : bool :=
  forallb (λ ev, match ev with VisitClassDef node => unnested node | _ => true end) events.

(** The same, of the class definitions the visitor has recorded. *)
Definition unnested_nodes (v : Visitor) : Prop :=
  ∀ k node, _class_nodes (visitor v) !! k = Some node → unnested node = true.

(** What the dictionaries of a visitor satisfy while it runs: the key
    lists are the keys of the maps, each key once; a class is stored under
    its own name, next to the definition of that name. *)
Definition consistent (v : Visitor) : Prop :=
  NoDup (_classes_keys v)
  ∧ (∀ k, k ∈ _classes_keys v ↔ is_Some (_classes (visitor v) !! k))
  ∧ (∀ k c, _classes (visitor v) !! k = Some c →
       name c = k ∧ ∃ node, _class_nodes (visitor v) !! k = Some node ∧ def_name node = k)
  ∧ NoDup (_pydantic_keys v)
  ∧ (∀ k, k ∈ _pydantic_keys v ↔ is_Some (_pydantic_classes (visitor v) !! k))
  ∧ (∀ k c, _pydantic_classes (visitor v) !! k = Some c → name c = k).

(** Every extracted model is a node of the graph. *)
Definition extracted_are_nodes (v : Visitor) : Prop :=
  ∀ k, is_Some (_pydantic_classes (visitor v) !! k) → k ∈ nodes (_model_graph (visitor v)).

(** What parsing classes leaves alone. *)
Definition same_module (v v' : Visitor) : Prop :=
  _parse_only_models (visitor v') = _parse_only_models (visitor v)
  ∧ package (visitor v') = package (visitor v)
  ∧ _classes (visitor v') = _classes (visitor v)
  ∧ _class_nodes (visitor v') = _class_nodes (visitor v)
  ∧ _alias_nodes (visitor v') = _alias_nodes (visitor v)
  ∧ _imports (visitor v') = _imports (visitor v)
  ∧ _classes_keys v' = _classes_keys v.

(** The edges the dependencies of a class add to the graph. *)
Definition dependency_edges (cls : ClassDecl) : list graph_op :=
  AddEdge (name cls) <$> _class_deps cls.

(** The visitor after the walk over a module, before [leave_Module]: no
    class is parsed yet and the graph has gained nodes only. *)
Definition collected (G0 : DiGraph) (parse_only : gset string) (v : Visitor) : Prop :=
  consistent v
  ∧ _pydantic_classes (visitor v) = ∅
  ∧ _pydantic_keys v = []
  ∧ _external_models (visitor v) = ∅
  ∧ warnings v = []
  ∧ _parse_only_models (visitor v) = parse_only
  ∧ ∃ ns, _model_graph (visitor v) = foldl apply_op G0 (AddNode <$> ns)
          ∧ ∀ k, is_Some (_classes (visitor v) !! k) → k ∈ ns.

(** What recording dependencies leaves alone. *)
Definition same_classes (v v' : Visitor) : Prop :=
  same_module v v'
  ∧ _pydantic_classes (visitor v') = _pydantic_classes (visitor v)
  ∧ _pydantic_keys v' = _pydantic_keys v.

(** A module of two classes: [Order], with a field of the local model
    [Item], a field of the imported [Customer] and a field of the unknown
    [Coupon]; and [Item]. *)
Definition order_events : list visit_event :=
  [VisitImportFrom (mkImportFrom 0 ["pydantic"] ["BaseModel"]);
   VisitImportFrom (mkImportFrom 1 ["customers"] ["Customer"]);
   VisitClassDef
     (mkClassDef "Order" [Name "BaseModel"]
        [SAnnAssign (mkAnnAssign (Name "items") (Subscript (Name "list") [Index (Name "Item")])
                       None);
         SAnnAssign (mkAnnAssign (Name "customer") (Name "Customer") None);
         SAnnAssign (mkAnnAssign (Name "coupon") (Optional_ (Name "Coupon")) None)]);
   VisitClassDef
     (mkClassDef "Item" [Name "BaseModel"]
        [SAnnAssign (mkAnnAssign (Name "sku") (Name "str") None)])].

Definition order_run : res Visitor :=
  visit_module 100 order_events (init_visitor (Some "shop") (build []) ∅).

Definition order_visitor : Visitor :=
  match order_run with
  | Ret v => v
  | Exc _ => init_visitor None empty_graph ∅
  end.

Definition order_rank (c : string) : nat := if decide (c = "Order") then 1 else 0.

(** The walk over a module that imports [BaseModel] from [pydantic] and
    declares the model [M] with its nested class [Config]: the module
    visitor is called for both class definitions. *)
Definition nested_events : list visit_event :=
  [VisitImportFrom (mkImportFrom 0 ["pydantic"] ["BaseModel"]);
   VisitClassDef nested_class;
   VisitClassDef (mkClassDef "Config" [] [SOther])].

(** A class the classifier accepts, at some depth of recursion. *)
Definition is_model (self : ParseModule) (c : ClassDecl) : Prop :=
  ∃ fuel, _is_pydantic_model fuel self c = Ret true.

(** A class that was extracted between [w] and [w']. *)
Definition extracted_since (w w' : Visitor) (x : string) (c : ClassDecl) : Prop :=
  _pydantic_classes (visitor w') !! x = Some c ∧ _pydantic_classes (visitor w) !! x = None.

(** The class [c] is what [_finish_parsing_class] returns for the name
    [k]. *)
Definition finished (self : ParseModule) (k : string) (c : ClassDecl) : Prop :=
  ∃ d self', name d = k ∧ _finish_parsing_class self d = Ret (self', c).

(** What the visitor [w'] has gained over [w] while the dependencies [ds]
    of the class [k] were processed and further classes were extracted. *)
Record grows_by (k : string) (ds : list string) (w w' : Visitor) : Prop := mk_grows_by {
  gb_same : same_module w w';
  gb_consistent : consistent w → consistent w';
  gb_wf : well_formed (_model_graph (visitor w)) → well_formed (_model_graph (visitor w'));
  gb_keep : ∀ x c, _pydantic_classes (visitor w) !! x = Some c →
                   _pydantic_classes (visitor w') !! x = Some c;
  gb_edges : well_formed (_model_graph (visitor w)) →
    ∀ x y, edge (_model_graph (visitor w')) x y ↔
           edge (_model_graph (visitor w)) x y
           ∨ (x = k ∧ y ∈ ds)
           ∨ ∃ c, extracted_since w w' x c ∧ y ∈ _class_deps c;
  gb_new : ∀ x c, extracted_since w w' x c →
                  ∃ c0, _classes (visitor w) !! x = Some c0 ∧ is_model (visitor w) c0;
  gb_closed : ∀ d cd,
    d ∈ ds ∨ (∃ x c, extracted_since w w' x c ∧ d ∈ _class_deps c) →
    _imports (visitor w) !! d = None →
    _classes (visitor w) !! d = Some cd → is_model (visitor w) cd →
    is_Some (_pydantic_classes (visitor w') !! d);
  gb_external : ∀ d, d ∈ _external_models (visitor w') ↔
    d ∈ _external_models (visitor w)
    ∨ (is_Some (_imports (visitor w) !! d)
       ∧ (d ∈ ds ∨ ∃ x c, extracted_since w w' x c ∧ d ∈ _class_deps c));
  gb_warnings : ∃ ws, warnings w' = warnings w ++ ws
    ∧ ∀ d x, CantInfer d x ∈ ws ↔
        _imports (visitor w) !! d = None ∧ _classes (visitor w) !! d = None
        ∧ ((x = k ∧ d ∈ ds) ∨ ∃ c, extracted_since w w' x c ∧ d ∈ _class_deps c);
  gb_nodes : ∀ x, x ∈ nodes (_model_graph (visitor w)) ∨ (∃ c, extracted_since w w' x c) →
                  x ∈ nodes (_model_graph (visitor w'));
  gb_finished : ∀ x c, extracted_since w w' x c → finished (visitor w) x c
}.

(** The visit of the same module, restricted to the model [Order]. *)
Definition only_run : res Visitor :=
  visit_module 100 order_events (init_visitor (Some "shop") (build []) {["Order"]}).

Definition only_visitor : Visitor :=
  match only_run with
  | Ret v => v
  | Exc _ => init_visitor None empty_graph ∅
  end.

(** [y] is a dependency of the extracted model [x]. *)
Definition depends_on (self : ParseModule) (x y : string) : Prop :=
  ∃ c, _pydantic_classes self !! x = Some c ∧ y ∈ _class_deps c.

(** A module whose class [User] has a field of the type [UserId], an alias
    that the module declares after the class. *)
Definition late_alias_events : list visit_event :=
  [VisitImportFrom (mkImportFrom 0 ["pydantic"] ["BaseModel"]);
   VisitClassDef
     (mkClassDef "User" [Name "BaseModel"]
        [SAnnAssign (mkAnnAssign (Name "id") (Name "UserId") None)]);
   VisitAnnAssign (mkAnnAssign (Name "UserId") (Name "TypeAlias") (Some (Name "int")))].

Definition late_alias_visitor : Visitor :=
  match visit_module 100 late_alias_events (init_visitor None (build []) ∅) with
  | Ret v => v
  | Exc _ => init_visitor None empty_graph ∅
  end.

(** * Properties *)

Lemma type_var_extract e : type_var (Index e) = _extract_type e.
Proof. destruct e; reflexivity. Qed.

Lemma _extract_type_Subscript v slice :
  _extract_type (Subscript v slice) = _parse_generic_type v slice.
Proof.
  destruct v; reflexivity.
Qed.

Lemma _extract_type_BinaryOperation l op r :
  _extract_type (BinaryOperation l op r) = _extract_union l op r.
Proof. reflexivity. Qed.

(** ** The type extractor *)

Lemma mapM_decide {A B} (f : A → res B) (ok : A → bool) l :
  Forall (λ x, if ok x then returns (f x) else raises (f x)) l →
  if forallb ok l then returns (mapM f l) else raises (mapM f l).
Proof.
  induction 1 as [|x l Hx _ IH]; [eexists; reflexivity|].
  simpl. destruct (ok x); simpl.
  - destruct Hx as [y Hy]. rewrite Hy. simpl.
    destruct (forallb ok l).
    + destruct IH as [ys ->]. eexists; reflexivity.
    + destruct IH as [e ->]. eexists; reflexivity.
  - destruct Hx as [e ->]. eexists; reflexivity.
Qed.

Lemma literal_value_decide el :
  if is_string_index el then returns (literal_value el) else raises (literal_value el).
Proof. destruct el as [[]|]; simpl; eexists; reflexivity. Qed.

Lemma _parse_literal_decide slice :
  if forallb is_string_index slice
  then returns (_parse_literal (Name "Literal") slice)
  else raises (_parse_literal (Name "Literal") slice).
Proof.
  pose proof (mapM_decide literal_value is_string_index slice) as H.
  unfold _parse_literal. simpl.
  destruct (forallb is_string_index slice).
  - destruct H as [vs ->]; [apply Forall_forall; intros; apply literal_value_decide|].
    simpl. destruct vs as [|v [|]]; eexists; reflexivity.
  - destruct H as [e ->]; [apply Forall_forall; intros; apply literal_value_decide|].
    eexists; reflexivity.
Qed.

Lemma generic_of_decide g args :
  g ≠ "Literal" →
  if bool_decide (g ∈ recognized_generics)
  then (returns args → returns (generic_of g args))
       ∧ (raises args → raises (generic_of g args))
  else raises (generic_of g args).
Proof.
  intros Hlit. case_bool_decide as Hg.
  - unfold recognized_generics in Hg. rewrite !elem_of_cons, elem_of_nil in Hg.
    destruct Hg as [->|[->|[->|[->|[->|[->|[->|[->|[->|[]]]]]]]]]]; [done|..];
      (split; [intros [ts ->]|intros [e ->]]; eexists; reflexivity).
  - unfold generic_of.
    destruct (decide (g ∈ ["list"; "List"])) as [H|_];
      [exfalso; apply Hg; revert H; unfold recognized_generics;
       rewrite !elem_of_cons, !elem_of_nil; tauto|].
    destruct (decide (g ∈ ["dict"; "Dict"])) as [H|_];
      [exfalso; apply Hg; revert H; unfold recognized_generics;
       rewrite !elem_of_cons, !elem_of_nil; tauto|].
    destruct (decide (g = "Union")) as [->|_]; [exfalso; apply Hg; unfold recognized_generics;
       rewrite !elem_of_cons; tauto|].
    destruct (decide (g = "Optional")) as [->|_]; [exfalso; apply Hg; unfold recognized_generics;
       rewrite !elem_of_cons; tauto|].
    destruct (decide (g ∈ ["tuple"; "Tuple"])) as [H|_];
      [exfalso; apply Hg; revert H; unfold recognized_generics;
       rewrite !elem_of_cons, !elem_of_nil; tauto|].
    eexists; reflexivity.
Qed.

Lemma accepted_recognized node : accepted node = true → recognized_shape node = true.
Proof.
  destruct node as [|v slice|l op r| | | | |]; simpl; try done.
  - destruct v; try done. case_decide as Hg; [subst; done|].
    intros [H _]%andb_true_iff. done.
  - destruct op; done.
Qed.

Lemma extract_type_decide node :
  if accepted node then returns (_extract_type node) else raises (_extract_type node).
Proof.
  induction node as [v|v slice _ IH|l op r IHl IHr|v|v|v a _| |c] using expr_nested_ind;
    try (eexists; reflexivity).
  - rewrite _extract_type_Subscript.
    destruct v as [g| | | | | | |]; try (eexists; reflexivity).
    simpl. case_decide as Hg.
    + subst g. apply _parse_literal_decide.
    + pose proof (generic_of_decide g (_parse_types_list slice) Hg) as Hgen.
      destruct (bool_decide (g ∈ recognized_generics)); simpl; [|done].
      destruct Hgen as [Hret Hexc].
      pose proof (mapM_decide type_var
                    (λ el, match el with Index e => accepted e | Slice => false end)
                    slice) as Hargs.
      unfold _parse_types_list in *.
      destruct (forallb _ slice); [apply Hret|apply Hexc]; apply Hargs;
        (eapply Forall_impl; [exact IH|]);
        (intros [e|] He; [rewrite type_var_extract; exact He|eexists; reflexivity]).
  - destruct op; try (eexists; reflexivity). simpl.
    destruct (accepted l); simpl.
    + destruct IHl as [tl ->]. simpl.
      destruct (accepted r).
      * destruct IHr as [tr ->]. eexists; reflexivity.
      * destruct IHr as [e ->]. eexists; reflexivity.
    + destruct IHl as [e ->]. eexists; reflexivity.
Qed.

(** C5 (amended).  The extractor returns a type exactly on the annotations
    built from the recognized shapes all the way down: an identifier; a
    subscript of list/List, dict/Dict, Union, Optional or tuple/Tuple whose
    arguments are such annotations; a subscript of Literal whose arguments
    are string literals; a [|] of two such annotations.  On every other
    expression it raises an exception; these include every expression of
    another top shape and every subscript of an unrecognized base. *)
Theorem extract_type_returns_iff_accepted (node : expr) :
  (if accepted node then returns (_extract_type node) else raises (_extract_type node))
  ∧ (if recognized_shape node then True else raises (_extract_type node)).
Proof.
  split; [apply extract_type_decide|].
  destruct (recognized_shape node) eqn:Hs; [done|].
  pose proof (extract_type_decide node) as H.
  destruct (accepted node) eqn:Ha; [|done].
  apply accepted_recognized in Ha. congruence.
Qed.

(** C5, as stated, fails on [list[3]]: the base is recognized, the argument
    is not an annotation, and the extractor raises. *)
Lemma recognized_shape_not_enough : ¬ returns_on_recognized_shapes.
Proof.
  intros H.
  destruct (H (Subscript (Name "list") [Index (Integer "3")]) eq_refl) as [t Ht].
  discriminate Ht.
Qed.

(** C3.  [Optional[Literal["a", "b"]]] and [Union[int | str, None]] both
    extract to a union with a union among its members. *)
Theorem nested_union_from_subscript :
  _extract_type (Optional_ (Literal_ ["a"; "b"]))
  = Ret (UnionType [UnionType [LiteralType (LitValue "a"); LiteralType (LitValue "b")];
                    none_type])
  ∧ _extract_type (Union_ [Or_ (Name "int") (Name "str"); Name "None"])
    = Ret (UnionType [UnionType [PrimitiveType "int"; PrimitiveType "str"]; none_type])
  ∧ (t ← _extract_type (Optional_ (Literal_ ["a"; "b"])); Ret (flat t)) = Ret false.
Proof. repeat split; reflexivity. Qed.

Lemma extract_None : _extract_type (Name "None") = Ret none_type.
Proof. reflexivity. Qed.

Lemma union_members_single t : is_union t = false → union_members t = [t].
Proof. destruct t; done. Qed.

(** C4 (amended).  For every accepted [T] whose type is not a union,
    [Optional[T]], [T | None] and [Union[T, None]] extract to the same
    union, of [T]'s type and then the none type; [None | T] and
    [Union[None, T]] extract to the union of the same two members in the
    order written, the none type first. *)
Theorem optional_spellings (T : expr) (t : PyType) :
  _extract_type T = Ret t →
  is_union t = false →
  _extract_type (Optional_ T) = Ret (UnionType [t; none_type])
  ∧ _extract_type (Or_ T (Name "None")) = Ret (UnionType [t; none_type])
  ∧ _extract_type (Union_ [T; Name "None"]) = Ret (UnionType [t; none_type])
  ∧ _extract_type (Or_ (Name "None") T) = Ret (UnionType [none_type; t])
  ∧ _extract_type (Union_ [Name "None"; T]) = Ret (UnionType [none_type; t]).
Proof.
  intros HT Hu. unfold Optional_, Union_, Or_.
  rewrite !_extract_type_Subscript, !_extract_type_BinaryOperation.
  unfold _extract_union, _parse_generic_type, _parse_types_list.
  cbn [mapM fmap list_fmap]. rewrite !type_var_extract, extract_None, HT.
  destruct t; try discriminate Hu; repeat split; reflexivity.
Qed.

Lemma optional_spellings_witness :
  _extract_type (Optional_ (Name "Foo")) = Ret (UnionType [UserDefinedType "Foo"; none_type])
  ∧ _extract_type (Or_ (Name "Foo") (Name "None"))
    = Ret (UnionType [UserDefinedType "Foo"; none_type])
  ∧ _extract_type (Union_ [Name "Foo"; Name "None"])
    = Ret (UnionType [UserDefinedType "Foo"; none_type])
  ∧ _extract_type (Or_ (Name "None") (Name "Foo"))
    = Ret (UnionType [none_type; UserDefinedType "Foo"])
  ∧ _extract_type (Union_ [Name "None"; Name "Foo"])
    = Ret (UnionType [none_type; UserDefinedType "Foo"]).
Proof.
  apply (optional_spellings (Name "Foo") (UserDefinedType "Foo")); reflexivity.
Defined.

(** C4, as stated, fails for [T = int | str]: [Optional[T]] keeps [T]'s
    union as one member and [T | None] splices its members in.  It also
    fails for [T = int] written after [None]: the members come out in the
    order written. *)
Lemma optional_spellings_differ :
  ¬ optional_spellings_agree ∧ ¬ optional_order_irrelevant.
Proof.
  split.
  - intros H.
    destruct (H (Or_ (Name "int") (Name "str"))
                (UnionType [PrimitiveType "int"; PrimitiveType "str"]) eq_refl)
      as (_ & Hor & _).
    discriminate Hor.
  - intros H. destruct (H (Name "int")) as [Hor _]. discriminate Hor.
Qed.

(** ** Default values *)

Lemma remove_char_absent c s : ¬ has_char c s → remove_char c s = s.
Proof.
  unfold has_char. induction s as [|a s IH]; simpl; [done|].
  rewrite elem_of_cons. intros H.
  destruct (Ascii.eqb_spec a c) as [->|_]; [tauto|].
  rewrite IH; tauto.
Qed.

Lemma remove_char_app c s1 s2 :
  remove_char c (s1 +:+ s2) = remove_char c s1 +:+ remove_char c s2.
Proof.
  induction s1 as [|a s1 IH]; simpl; [done|].
  destruct (Ascii.eqb a c); simpl; by rewrite IH.
Qed.

Lemma append_empty_r s : s +:+ EmptyString = s.
Proof. induction s as [|a s IH]; [done|]. rewrite <- IH at 2. reflexivity. Qed.

(** C7 (amended).  The default-value parser always returns a value: a
    string literal yields its source text with every double-quote
    character removed (the body of a double-quoted literal that has none
    inside; a single-quoted literal keeps its quotes); the identifier
    [None] yields the null value; a dictionary literal yields the
    placeholder; these log nothing.  Every other expression yields the
    null value and logs one warning, "Unsupported value type". *)
Theorem parse_value_cases (node : expr) :
  (∀ s, node = SimpleString s →
        _parse_value node = (PyString (remove_char dquote s), []))
  ∧ (∀ body, ¬ has_char dquote body →
        _parse_value (SimpleString (py_str dquote body)) = (PyString body, [])
        ∧ _parse_value (SimpleString (py_str squote body))
          = (PyString (py_str squote body), []))
  ∧ (node = Name "None" → _parse_value node = (PyNone, []))
  ∧ (node = Dict → _parse_value node = (PyDict, []))
  ∧ (supported_value node = false →
        _parse_value node = (PyNone, [Warning "Unsupported value type: '%s'" node])).
Proof.
  split_and!.
  - by intros s ->.
  - intros body Hb. unfold py_str, _parse_value. split.
    + simpl. rewrite remove_char_app. simpl. by rewrite remove_char_absent, append_empty_r.
    + simpl. rewrite remove_char_app. simpl. by rewrite remove_char_absent.
  - by intros ->.
  - by intros ->.
  - destruct node; simpl; try done. case_bool_decide; [done|]. by case_decide.
Qed.

Lemma parse_value_cases_witness :
  _parse_value (SimpleString (py_str dquote "abc")) = (PyString "abc", [])
  ∧ _parse_value (SimpleString (py_str squote "abc")) = (PyString (py_str squote "abc"), [])
  ∧ _parse_value (Integer "3")
    = (PyNone, [Warning "Unsupported value type: '%s'" (Integer "3")]).
Proof.
  destruct (parse_value_cases (Integer "3")) as (_ & Hq & _ & _ & Hother).
  destruct (Hq "abc") as [H1 H2].
  - unfold has_char. vm_compute. intros H. by repeat (inversion H as [|? ? ? H']; clear H; rename H' into H).
  - split_and!; [exact H1|exact H2|apply Hother; reflexivity].
Defined.

(** C7, as stated, fails on the single-quoted literal ['abc']: its quote
    characters stay in the value. *)
Lemma single_quotes_kept : ¬ quotes_stripped.
Proof.
  intros H. specialize (H squote "abc"). simpl in H.
  assert (Hq : squote ∈ [dquote; squote]) by (apply list_elem_of_further, list_elem_of_here).
  specialize (H Hq). discriminate H.
Qed.

(** ** Dependencies *)

Lemma elem_of_concat_map {A} (f : A → list string) (l : list A) (d : string) :
  d ∈ concat (map f l) ↔ ∃ x, x ∈ l ∧ d ∈ f x.
Proof.
  induction l as [|x l IH]; simpl.
  - rewrite elem_of_nil. split; [done|]. intros (x & Hx & _). by apply elem_of_nil in Hx.
  - rewrite elem_of_app, IH. split.
    + intros [H|(y & Hy & Hd)]; [exists x|exists y]; split; auto using list_elem_of_here, list_elem_of_further.
    + intros (y & [->|Hy]%elem_of_cons & Hd); [by left|right; eauto].
Qed.

Lemma get_user_defined_types_reaches t d :
  d ∈ _get_user_defined_types t ↔ reaches t d.
Proof.
  split.
  - revert d. induction t as [n|n|g args IH|ts IH|v|t IH|ts IH|n] using PyType_nested_ind;
      intros d; simpl; try (by intros ?%elem_of_nil).
    + intros (t & Ht & Hd)%elem_of_concat_map.
      rewrite Forall_forall in IH. eauto using reaches.
    + intros (t & Ht & Hd)%elem_of_concat_map.
      rewrite Forall_forall in IH. eauto using reaches.
    + eauto using reaches.
    + intros ->%list_elem_of_singleton. constructor.
  - induction 1 as [n|ts t n Ht _ IH|t n _ IH|g args t n Ht _ IH]; simpl.
    + apply list_elem_of_here.
    + apply elem_of_concat_map; eauto.
    + done.
    + apply elem_of_concat_map; eauto.
Qed.

(** C8.  A name is among the dependencies of a class exactly when it is one
    of its base classes other than [BaseModel], or is reached from the type
    of one of its fields through union members, literal-wrapped types and
    generic arguments; nothing is reached through a tuple. *)
Theorem class_deps_spec (cls : ClassDecl) (d : string) :
  (d ∈ _class_deps cls ↔
     (d ∈ base_classes cls ∧ d ≠ "BaseModel")
     ∨ ∃ f, f ∈ fields cls ∧ reaches (field_type f) d)
  ∧ (∀ ts, ¬ reaches (TupleType ts) d).
Proof.
  split.
  - unfold _class_deps. rewrite elem_of_app, list_elem_of_filter, elem_of_concat_map.
    setoid_rewrite get_user_defined_types_reaches. tauto.
  - intros ts H. inversion H.
Qed.

Lemma class_deps_spec_witness :
  let cls := mkClassDecl "M" ["BaseModel"; "Base"]
               [mkClassField "a" (PrimitiveType "str") None None;
                mkClassField "c" (GenericType "dict" [PrimitiveType "str"; UserDefinedType "Foo"])
                  None None;
                mkClassField "t" (TupleType [UserDefinedType "Bar"]) None None] None in
  _class_deps cls = ["Base"; "Foo"]
  ∧ ∃ f, f ∈ fields cls ∧ reaches (field_type f) "Foo".
Proof.
  intros cls. split; [reflexivity|].
  destruct (class_deps_spec cls "Foo") as [[H _] _].
  destruct H as [[H _]|H]; [apply list_elem_of_further, list_elem_of_here| |exact H].
  exfalso. revert H. simpl. rewrite !elem_of_cons, elem_of_nil.
  intros [H|[H|[]]]; discriminate H.
Defined.

(** ** The model classifier *)

(** C2.  With [BaseModel] imported from [pydantic], [class A], [class
    B(BaseModel)] and [class C(A, B)]: [B] is classified as a model, [C]
    lists [B] as a base, and [C] is classified as not a model, because the
    loop over the bases returns at the first locally declared one. *)
Theorem classifier_stops_at_first_local_base :
  let A := skeleton "A" [] in
  let B := skeleton "B" ["BaseModel"] in
  let C := skeleton "C" ["A"; "B"] in
  let self := module_of None {["BaseModel" := "pydantic"]}
                [mkClassDef "A" [] []; mkClassDef "B" [Name "BaseModel"] [];
                 mkClassDef "C" [Name "A"; Name "B"] []] [] in
  _classes self !! "A" = Some A
  ∧ _classes self !! "B" = Some B
  ∧ _classes self !! "C" = Some C
  ∧ _is_pydantic_model 1000 self A = Ret false
  ∧ _is_pydantic_model 1000 self B = Ret true
  ∧ "B" ∈ base_classes C
  ∧ _is_pydantic_model 1000 self C = Ret false.
Proof.
  cbv zeta. split_and!; try (vm_compute; reflexivity).
  apply list_elem_of_further, list_elem_of_here.
Qed.

Lemma classifier_no_keyerror self fuel :
  ∀ cls, is_Some (_imports self !! "BaseModel") ∨
         (¬ lists_base cls ∧ ∀ n c, _classes self !! n = Some c → ¬ lists_base c) →
  ∀ k, _is_pydantic_model fuel self cls ≠ Exc (KeyError k).
Proof.
  induction fuel as [|fuel IH]; intros cls Hpre k; [done|].
  simpl. unfold lists_base in *.
  assert (Hdirect : ∃ b : bool,
    (if decide ("BaseModel" ∈ base_classes cls)
     then from_ ← getitem (_imports self) "BaseModel"; Ret (bool_decide (from_ = "pydantic"))
     else Ret false) = Ret b).
  { case_decide as Hb; [|by eexists].
    destruct Hpre as [[from_ Hf]|[Hn _]]; [|done].
    unfold getitem. rewrite Hf. by eexists. }
  destruct Hdirect as [b ->]. simpl. destruct b; [done|].
  assert (Hbase : ∀ n c, _classes self !! n = Some c →
                         _is_pydantic_model fuel self c ≠ Exc (KeyError k)).
  { intros n c Hc. apply IH. destruct Hpre as [?|[_ Hall]]; [by left|right].
    split; [by eapply Hall|done]. }
  clear Hpre. induction (base_classes cls) as [|b bs IHbs]; [done|].
  destruct (_classes self !! b) as [base|] eqn:Hb; [by eapply Hbase|exact IHbs].
Qed.

(** C10.  A class that lists [BaseModel] among its bases in a module whose
    import table has no entry for [BaseModel] makes the classifier raise
    [KeyError]; when the table has the entry wherever a class lists
    [BaseModel], the classifier never raises [KeyError]. *)
Theorem classifier_keyerror (self : ParseModule) (cls : ClassDecl) (fuel : nat) :
  (lists_base cls → _imports self !! "BaseModel" = None →
     _is_pydantic_model (S fuel) self cls = Exc (KeyError "BaseModel"))
  ∧ (imports_cover_base self cls →
     ∀ k, _is_pydantic_model fuel self cls ≠ Exc (KeyError k)).
Proof.
  split.
  - intros Hb Hi. simpl. rewrite decide_True by exact Hb.
    unfold getitem. rewrite Hi. reflexivity.
  - intros Hpre. apply classifier_no_keyerror.
    destruct (_imports self !! "BaseModel") eqn:Hi; [left; by eexists|right].
    unfold imports_cover_base in Hpre. rewrite Hi in Hpre.
    split.
    + intros H. by destruct Hpre as [? ?]; [left|].
    + intros n c Hc H. by destruct Hpre as [? ?]; [right; eauto|].
Qed.

Lemma classifier_keyerror_witness :
  let self := module_of None ∅
                [mkClassDef "BaseModel" [] []; mkClassDef "M" [Name "BaseModel"] []] [] in
  _is_pydantic_model 1000 self (skeleton "M" ["BaseModel"]) = Exc (KeyError "BaseModel")
  ∧ ∀ k, _is_pydantic_model 1000 (module_of None {["BaseModel" := "pydantic"]}
                                    [mkClassDef "M" [Name "BaseModel"] []] [])
           (skeleton "M" ["BaseModel"]) ≠ Exc (KeyError k).
Proof.
  intros self. split.
  - apply (classifier_keyerror self (skeleton "M" ["BaseModel"]) 999).
    + apply list_elem_of_here.
    + reflexivity.
  - apply (classifier_keyerror _ (skeleton "M" ["BaseModel"]) 1000).
    intros _. exists "pydantic". reflexivity.
Defined.

(** ** Type aliases *)

Lemma mapM_Forall2 {A B} (f : A → res B) l ys :
  mapM f l = Ret ys ↔ Forall2 (λ x y, f x = Ret y) l ys.
Proof.
  revert ys. induction l as [|x l IH]; intros ys; simpl.
  - split; [intros [= <-]; constructor|by intros ->%Forall2_nil_inv_l].
  - split.
    + destruct (f x) as [y|] eqn:Hx; [|done]. simpl.
      destruct (mapM f l) as [ys'|] eqn:Hl; [|done]. intros [= <-].
      constructor; [done|by apply IH].
    + intros (y & ys' & Hy & Hys & ->)%Forall2_cons_inv_l.
      apply IH in Hys. rewrite Hy. simpl. fold (mapM f l). by rewrite Hys.
Qed.

Lemma resolve_alias_spec self f :
  aliases_extract self [f] →
  ∃ f', resolve_alias self f = Ret f' ∧ alias_resolved self f f'.
Proof.
  intros Hex. unfold resolve_alias, alias_resolved.
  destruct (field_type f) as [| | | | | |alias] eqn:Ht;
    try (exists f; rewrite Ht; by repeat split).
  destruct (_alias_nodes self !! alias) as [node|] eqn:Ha;
    [|exists f; rewrite Ht; by repeat split].
  destruct (Hex f alias node (list_elem_of_here _ _) Ht Ha) as (v & Hv & t & Hvt).
  rewrite Hv, Hvt. eexists. split; [reflexivity|]. simpl. repeat split. eauto.
Qed.

Lemma resolve_aliases_spec self fs :
  aliases_extract self fs →
  ∃ fs', mapM (resolve_alias self) fs = Ret fs' ∧ Forall2 (alias_resolved self) fs fs'.
Proof.
  induction fs as [|f fs IH]; intros Hex; [by exists []|].
  destruct (resolve_alias_spec self f) as (f' & Hf & Hr).
  { intros f0 a n ->%list_elem_of_singleton. by apply Hex, list_elem_of_here. }
  destruct IH as (fs' & Hfs & Hrs).
  { intros f0 a n Hin. by apply Hex, list_elem_of_further. }
  exists (f' :: fs'). split; [|by constructor].
  simpl. rewrite Hf. simpl. fold (mapM (resolve_alias self) fs). by rewrite Hfs.
Qed.

(** C6 (amended).  When the class is finished, a field whose type, as
    extracted from its annotation, is itself a user-defined name recorded
    as a module-level alias gets the type extracted from the alias's
    right-hand side, as it is (aliases named by that type are not
    resolved in turn); every other field keeps its type, aliases named
    inside it included.  The finished class is the one stored among the
    models.  A field annotated with the alias [Age = int] ends up with the
    primitive type [int]. *)
Theorem finish_parsing_class_aliases
    (self : ParseModule) (cls_decl : ClassDecl) (node : ClassDef) (parsed : ParseClassDecl) :
  _class_nodes self !! name cls_decl = Some node →
  parse_class_decl node = Ret parsed →
  aliases_extract self (fields (class_decl parsed)) →
  ∃ self' cls,
    _finish_parsing_class self cls_decl = Ret (self', cls)
    ∧ _pydantic_classes self' !! name cls = Some cls
    ∧ Forall2 (alias_resolved self) (fields (class_decl parsed)) (fields cls).
Proof.
  intros Hnode Hparsed Hex.
  destruct (resolve_aliases_spec self _ Hex) as (fs & Hfs & Hrs).
  unfold _finish_parsing_class, getitem. rewrite Hnode. simpl.
  rewrite Hparsed. simpl. rewrite Hfs. simpl.
  eexists _, _. split; [reflexivity|]. simpl. split; [apply lookup_insert_eq|done].
Qed.

Lemma finish_parsing_class_aliases_witness :
  ∃ self' cls,
    _finish_parsing_class alias_example (skeleton "M" ["BaseModel"]) = Ret (self', cls)
    ∧ field_type <$> fields cls
      = [PrimitiveType "int"; GenericType "list" [UserDefinedType "Age"];
         UserDefinedType "Age"].
Proof.
  edestruct (finish_parsing_class_aliases alias_example (skeleton "M" ["BaseModel"]))
    as (self' & cls & Hrun & _ & _).
  - reflexivity.
  - vm_compute. reflexivity.
  - intros f alias node Hf Ht Ha. simpl in Hf.
    rewrite !elem_of_cons, elem_of_nil in Hf.
    destruct Hf as [->|[->|[->|[]]]]; simpl in Ht; try discriminate Ht;
      injection Ht as <-; vm_compute in Ha; injection Ha as <-;
      (eexists; split; [reflexivity|eexists; reflexivity]).
  - exists self', cls. split; [exact Hrun|].
    vm_compute in Hrun. injection Hrun as _ <-. reflexivity.
Defined.

(** C6, as stated, fails on the field [ages: list[Age]] of the example:
    the alias [Age] inside the list is not replaced. *)
Lemma alias_inside_generic_kept : ¬ aliases_resolved_in_leaves.
Proof.
  intros H.
  assert (∃ parsed, parse_class_decl alias_example_class = Ret parsed) as [parsed Hp]
    by (eexists; vm_compute; reflexivity).
  assert (∃ r, _finish_parsing_class alias_example (skeleton "M" ["BaseModel"]) = Ret r)
    as [[self' cls] Hr] by (eexists; vm_compute; reflexivity).
  specialize (H alias_example (skeleton "M" ["BaseModel"]) alias_example_class
                parsed self' cls eq_refl Hp Hr).
  vm_compute in Hp. injection Hp as <-.
  vm_compute in Hr. injection Hr as _ <-.
  vm_compute in H. discriminate H.
Qed.

(** ** External models *)

Lemma external_model_path_spec self name :
  (∃ path, qualified self name path) →
  ∃ path, qualified self name path
          ∧ external_model_path self name
            = Ret (if decide (path ∈ well_known) then None else Some path).
Proof.
  intros (path & from_ & abs & Hi & Hr & ->).
  exists (abs +:+ "." +:+ name). split; [by exists from_, abs|].
  unfold external_model_path, getitem. rewrite Hi. simpl. rewrite Hr. reflexivity.
Qed.

Lemma qualified_unique self name p1 p2 :
  qualified self name p1 → qualified self name p2 → p1 = p2.
Proof.
  intros (f1 & a1 & Hi1 & Hr1 & ->) (f2 & a2 & Hi2 & Hr2 & ->). congruence.
Qed.

(** C9.  When every external name has an import and its origin resolves
    against the package of the module, [external_models] returns the set of
    paths [<resolved origin>.<name>] of the external names, without
    [uuid.UUID] and [pydantic.BaseModel] and with every other path. *)
Theorem external_models_spec (self : ParseModule) :
  (∀ name, name ∈ _external_models self → ∃ path, qualified self name path) →
  ∃ ext_models,
    external_models self = Ret ext_models
    ∧ ∀ path, path ∈ ext_models ↔
        (∃ name, name ∈ _external_models self ∧ qualified self name path)
        ∧ path ≠ "uuid.UUID" ∧ path ≠ "pydantic.BaseModel".
Proof.
  intros Hall. unfold external_models.
  assert (Hl : ∀ name, name ∈ elements (_external_models self) →
                       ∃ path, qualified self name path).
  { intros name Hn. apply Hall. by apply elem_of_elements. }
  assert (Hspec : ∃ paths,
    mapM (external_model_path self) (elements (_external_models self)) = Ret paths
    ∧ ∀ path, Some path ∈ paths ↔
        (∃ name, name ∈ elements (_external_models self) ∧ qualified self name path)
        ∧ path ∉ well_known).
  { induction (elements (_external_models self)) as [|name l IH].
    - exists []. split; [done|]. intros path. rewrite elem_of_nil.
      split; [done|]. intros [(n & Hn & _) _]. by apply elem_of_nil in Hn.
    - destruct IH as (paths & Hm & Hpaths).
      { intros n Hn. by apply Hl, list_elem_of_further. }
      destruct (external_model_path_spec self name) as (p & Hq & Hp).
      { apply Hl, list_elem_of_here. }
      eexists. split.
      { simpl. rewrite Hp. simpl. fold (mapM (external_model_path self) l).
        rewrite Hm. reflexivity. }
      intros path. rewrite elem_of_cons, Hpaths. split.
      + intros [Heq|[(n & Hn & Hqn) Hw]].
        * case_decide as Hw; [done|]. injection Heq as ->.
          split; [|done]. exists name. split; [apply list_elem_of_here|done].
        * split; [|done]. exists n. split; [by apply list_elem_of_further|done].
      + intros [(n & [->|Hn]%elem_of_cons & Hqn) Hw].
        * left. rewrite (qualified_unique self name path p Hqn Hq) in *.
          by rewrite decide_False.
        * right. eauto. }
  destruct Hspec as (paths & -> & Hpaths). simpl. eexists. split; [reflexivity|].
  intros path. rewrite elem_of_list_to_set, list_elem_of_omap.
  assert (Hw : path ∉ well_known ↔ path ≠ "uuid.UUID" ∧ path ≠ "pydantic.BaseModel").
  { unfold well_known. rewrite !not_elem_of_cons. pose proof (not_elem_of_nil path). tauto. }
  rewrite <- Hw. setoid_rewrite <- elem_of_elements. rewrite <- Hpaths.
  split.
  - intros ([p|] & Hin & Hid); simpl in Hid; [|done]. by injection Hid as ->.
  - intros Hin. by exists (Some path).
Qed.

Lemma external_models_spec_witness :
  ∃ ext_models,
    external_models external_example = Ret ext_models
    ∧ "pkg.sub.models.Foo" ∈ ext_models
    ∧ "pkg.core.types.Bar" ∈ ext_models
    ∧ ("uuid.UUID" ∉ ext_models)
    ∧ ("pydantic.BaseModel" ∉ ext_models).
Proof.
  destruct (external_models_spec external_example) as (ext & Hrun & Hext).
  - intros name Hn. unfold external_example in Hn. simpl in Hn.
    rewrite !elem_of_union, !elem_of_singleton in Hn.
    destruct Hn as [[[->| ->]| ->]| ->]; eexists; eexists _, _;
      (split; [vm_compute; reflexivity|split; [vm_compute; reflexivity|reflexivity]]).
  - exists ext. split; [exact Hrun|]. split_and!.
    + apply Hext. split; [|split; discriminate]. exists "Foo". split.
      * unfold external_example. simpl. rewrite !elem_of_union, !elem_of_singleton. tauto.
      * eexists _, _. split; [vm_compute; reflexivity|split; vm_compute; reflexivity].
    + apply Hext. split; [|split; discriminate]. exists "Bar". split.
      * unfold external_example. simpl. rewrite !elem_of_union, !elem_of_singleton. tauto.
      * eexists _, _. split; [vm_compute; reflexivity|split; vm_compute; reflexivity].
    + intros [_ [H _]]%Hext. by apply H.
    + intros [_ [_ H]]%Hext. by apply H.
Defined.

(** ** The dependency graph *)

Lemma successors_add_node n G u w :
  w ∈ successors (add_node n G) u → w ∈ successors G u.
Proof.
  unfold add_node. case_decide; [done|]. unfold successors. simpl.
  destruct (decide (n = u)) as [->|Hne].
  - rewrite lookup_insert_eq. simpl. by intros ?%elem_of_nil.
  - by rewrite lookup_insert_ne.
Qed.

Lemma nodes_add_node n G x : x ∈ nodes (add_node n G) ↔ x = n ∨ x ∈ nodes G.
Proof.
  unfold add_node. case_decide as Hn; simpl.
  - split; [by right|]. by intros [->|?].
  - rewrite elem_of_app, list_elem_of_singleton. tauto.
Qed.

Lemma well_formed_add_node n G : well_formed G → well_formed (add_node n G).
Proof.
  intros [Hnd Hcl]. split.
  - unfold add_node. case_decide as Hn; [done|]. simpl.
    apply NoDup_app. split_and!; [done| |apply NoDup_singleton].
    intros x Hx ->%list_elem_of_singleton. done.
  - intros u w Hw%successors_add_node. rewrite !nodes_add_node.
    destruct (Hcl u w Hw). auto.
Qed.

Lemma well_formed_add_edge u v G : well_formed G → well_formed (add_edge u v G).
Proof.
  intros HG. unfold add_edge.
  assert (HG' : well_formed (add_node v (add_node u G)))
    by by do 2 apply well_formed_add_node.
  assert (Hu : u ∈ nodes (add_node v (add_node u G)))
    by (rewrite !nodes_add_node; auto).
  assert (Hv : v ∈ nodes (add_node v (add_node u G)))
    by (rewrite !nodes_add_node; auto).
  set (G' := add_node v (add_node u G)) in *. clearbody G'.
  case_decide as Hin; [done|]. destruct HG' as [Hnd Hcl]. split; [done|].
  intros a w. unfold edge, successors at 1. simpl.
  destruct (decide (u = a)) as [->|Hne].
  - rewrite lookup_insert_eq. simpl. rewrite elem_of_app, list_elem_of_singleton.
    intros [Hw| ->]; [by apply Hcl|done].
  - rewrite lookup_insert_ne by done. apply Hcl.
Qed.

Lemma well_formed_build ops : well_formed (build ops).
Proof.
  unfold build.
  assert (H0 : well_formed empty_graph).
  { split; [constructor|]. intros u w. unfold edge, successors. simpl.
    rewrite lookup_empty. simpl. by intros ?%elem_of_nil. }
  revert H0. generalize empty_graph.
  induction ops as [|op ops IH]; intros G HG; [done|].
  simpl. apply IH. destruct op; [by apply well_formed_add_node|by apply well_formed_add_edge].
Qed.

Lemma ranked_acyclic G rank : well_formed G → ranked G rank = true → acyclic G.
Proof.
  intros [_ Hcl] Hr.
  assert (Hedge : ∀ x y, edge G x y → rank y < rank x).
  { intros x y Hxy. destruct (Hcl x y Hxy) as [Hx _].
    unfold ranked in Hr. rewrite forallb_forall in Hr.
    specialize (Hr x (proj1 (list_elem_of_In _ _) Hx)).
    rewrite forallb_forall in Hr.
    specialize (Hr y (proj1 (list_elem_of_In _ _) Hxy)).
    by apply bool_decide_eq_true in Hr. }
  assert (Htc : ∀ x y, tc (edge G) x y → rank y < rank x).
  { induction 1 as [x y H|x y z H _ IH]; [by apply Hedge|].
    apply Hedge in H. lia. }
  intros x Hx. apply Htc in Hx. lia.
Qed.

Lemma before_app_l l1 l2 w x : before l1 w x → before (l1 ++ l2) w x.
Proof.
  intros (a & b & -> & Hw). exists a, (b ++ l2). split; [|done].
  by rewrite <- app_assoc.
Qed.

Lemma before_app_r l1 l2 w x : before l2 w x → before (l1 ++ l2) w x.
Proof.
  intros (a & b & -> & Hw). exists (l1 ++ a), b. split; [by rewrite <- app_assoc|].
  apply elem_of_app. by right.
Qed.

Lemma before_cross l1 l2 w x : w ∈ l1 → x ∈ l2 → before (l1 ++ l2) w x.
Proof.
  intros Hw (a & b & ->)%list_elem_of_split. exists (l1 ++ a), b.
  split; [by rewrite <- app_assoc|]. apply elem_of_app. by left.
Qed.

Lemma dfs_from_cons fuel G s sources st :
  dfs_from fuel G (s :: sources) st = dfs_from fuel G sources (dfs_visit fuel G s st).
Proof. reflexivity. Qed.

Lemma dfs_visit_S fuel G v st :
  dfs_visit (S fuel) G v st
  = if decide (v ∈ st.1) then st
    else let st' := dfs_from fuel G (successors G v) ({[v]} ∪ st.1, st.2) in
         (st'.1, st'.2 ++ [v]).
Proof. reflexivity. Qed.

Section depth_first_search.
Variable G : DiGraph.
Hypothesis Hwf : well_formed G.

Lemma unvisited_mono (vis vis' : gset string) :
  vis ⊆ vis' → (size (node_set G ∖ vis') ≤ size (node_set G ∖ vis))%nat.
Proof. intros H. apply subseteq_size. set_solver. Qed.

Lemma unvisited_decreases (vis : gset string) v :
  v ∈ nodes G → v ∉ vis → size (node_set G ∖ ({[v]} ∪ vis)) < size (node_set G ∖ vis).
Proof.
  intros Hv Hn. apply subset_size. split; [set_solver|].
  intros H. specialize (H v). apply Hn.
  assert (v ∈ node_set G ∖ vis) as Hin by (unfold node_set; set_solver).
  apply H in Hin. set_solver.
Qed.

Lemma dfs_from_spec fuel :
  (∀ v vis out, v ∈ nodes G → size (node_set G ∖ vis) < fuel →
     dfs_post G [v] vis out (dfs_visit fuel G v (vis, out))) →
  ∀ sources vis out,
    (∀ s, s ∈ sources → s ∈ nodes G) → size (node_set G ∖ vis) < fuel →
    dfs_post G sources vis out (dfs_from fuel G sources (vis, out)).
Proof.
  intros Hvisit sources.
  induction sources as [|s sources IH]; intros vis out Hsrc Hfuel.
  - exists []. simpl. split_and!.
    + f_equal; [set_solver|by rewrite app_nil_r].
    + constructor.
    + by intros x ?%elem_of_nil.
    + by intros x ?%elem_of_nil.
    + by intros x ?%elem_of_nil.
    + by intros x w ?%elem_of_nil.
  - rewrite dfs_from_cons.
    destruct (Hvisit s vis out) as (new1 & -> & Hnd1 & Hfresh1 & Hreach1 & Hsrc1 & Hord1);
      [apply Hsrc, list_elem_of_here|done|].
    destruct (IH (vis ∪ list_to_set new1) (out ++ new1))
      as (new2 & -> & Hnd2 & Hfresh2 & Hreach2 & Hsrc2 & Hord2).
    { intros s' Hs'. by apply Hsrc, list_elem_of_further. }
    { eapply Nat.le_lt_trans; [|exact Hfuel]. apply unvisited_mono. set_solver. }
    exists (new1 ++ new2). split_and!.
    + f_equal; [rewrite list_to_set_app_L; set_solver|by rewrite app_assoc].
    + apply NoDup_app. split_and!; [done| |done].
      intros x Hx1 Hx2. destruct (Hfresh2 x Hx2) as [Hn _]. set_solver.
    + intros x [Hx|Hx]%elem_of_app.
      * by apply Hfresh1.
      * destruct (Hfresh2 x Hx) as [Hn ?]. split; [set_solver|done].
    + intros x [Hx|Hx]%elem_of_app.
      * destruct (Hreach1 x Hx) as (s' & ->%list_elem_of_singleton & Hr).
        exists s. split; [apply list_elem_of_here|done].
      * destruct (Hreach2 x Hx) as (s' & Hs' & Hr).
        exists s'. split; [by apply list_elem_of_further|done].
    + intros s' [->|Hs']%elem_of_cons.
      * destruct (Hsrc1 s (list_elem_of_here _ _)); [by left|right].
        apply elem_of_app. by left.
      * destruct (Hsrc2 s' Hs') as [[?|?%elem_of_list_to_set]%elem_of_union|?];
          [by left|right; apply elem_of_app; by left|right; apply elem_of_app; by right].
    + intros x w [Hx|Hx]%elem_of_app Hxw.
      * destruct (Hord1 x w Hx Hxw) as [?|[?|?]];
          [by left|right; left; by apply before_app_l|by right; right].
      * destruct (Hord2 x w Hx Hxw) as [[?|?%elem_of_list_to_set]%elem_of_union|[?|?]];
          [by left|right; left; by apply before_cross
          |right; left; by apply before_app_r|by right; right].
Qed.

Lemma dfs_visit_spec fuel :
  ∀ v vis out, v ∈ nodes G → size (node_set G ∖ vis) < fuel →
    dfs_post G [v] vis out (dfs_visit fuel G v (vis, out)).
Proof.
  induction fuel as [|fuel IH]; intros v vis out Hv Hfuel; [lia|].
  rewrite dfs_visit_S. simpl. case_decide as Hvis.
  - exists []. split_and!.
    + f_equal; [set_solver|by rewrite app_nil_r].
    + constructor.
    + by intros x ?%elem_of_nil.
    + by intros x ?%elem_of_nil.
    + intros s ->%list_elem_of_singleton. by left.
    + by intros x w ?%elem_of_nil.
  - destruct (dfs_from_spec fuel IH (successors G v) ({[v]} ∪ vis) out)
      as (new & -> & Hnd & Hfresh & Hreach & Hsrc & Hord).
    { intros s Hs. by apply (proj2 Hwf v s). }
    { pose proof (unvisited_decreases vis v Hv Hvis). lia. }
    assert (Hdown : ∀ x, x ∈ new → tc (edge G) v x).
    { intros x Hx. destruct (Hreach x Hx) as (c & Hc & Hr).
      eapply tc_rtc_r; [apply tc_once; exact Hc|exact Hr]. }
    simpl. exists (new ++ [v]). split_and!.
    + f_equal; [rewrite list_to_set_app_L; set_solver|by rewrite app_assoc].
    + apply NoDup_app. split_and!; [done| |apply NoDup_singleton].
      intros x Hx ->%list_elem_of_singleton.
      destruct (Hfresh v Hx) as [Hn _]. set_solver.
    + intros x [Hx| ->%list_elem_of_singleton]%elem_of_app; [|done].
      destruct (Hfresh x Hx) as [Hn ?]. split; [set_solver|done].
    + intros x Hx. exists v. split; [apply list_elem_of_here|].
      apply elem_of_app in Hx as [Hx| ->%list_elem_of_singleton];
        [by apply tc_rtc, Hdown|done].
    + intros s ->%list_elem_of_singleton. right. apply elem_of_app. right.
      apply list_elem_of_here.
    + intros x w [Hx| ->%list_elem_of_singleton]%elem_of_app Hxw.
      * destruct (Hord x w Hx Hxw) as [[Hw%elem_of_singleton|?]%elem_of_union|[?|?]];
          [|by left|right; left; by apply before_app_l|by right; right].
        subst w. right. right. by apply Hdown.
      * destruct (Hsrc w Hxw) as [[Hw%elem_of_singleton|?]%elem_of_union|Hw];
          [|by left|].
        -- subst w. right. right. by apply tc_once.
        -- right. left. exists new, []. done.
Qed.

Lemma dfs_postorder_nodes_spec :
  NoDup (dfs_postorder_nodes G)
  ∧ (∀ x, x ∈ dfs_postorder_nodes G ↔ x ∈ nodes G)
  ∧ (∀ x w, x ∈ nodes G → edge G x w →
       before (dfs_postorder_nodes G) w x ∨ tc (edge G) w x).
Proof.
  unfold dfs_postorder_nodes.
  destruct (dfs_from_spec (S (length (nodes G))) (dfs_visit_spec _) (nodes G) ∅ [])
    as (new & -> & Hnd & Hfresh & _ & Hsrc & Hord); [done| |].
  { assert (size (node_set G ∖ ∅) ≤ size (node_set G))%nat by (apply subseteq_size; set_solver).
    assert (size (node_set G) = length (nodes G)) by (apply size_list_to_set, Hwf). lia. }
  simpl.
  assert (Hall : ∀ x, x ∈ new ↔ x ∈ nodes G).
  { intros x. split; [intros Hx; by destruct (Hfresh x Hx)|]. intros Hx.
    destruct (Hsrc x Hx) as [?|?]; [set_solver|done]. }
  split_and!; [done|done|].
  intros x w Hx Hxw.
  destruct (Hord x w (proj2 (Hall x) Hx) Hxw) as [?|[?|?]]; [set_solver|by left|by right].
Qed.
End depth_first_search.

Lemma dfs_postorder_nodes_acyclic G x w :
  well_formed G → acyclic G → x ∈ nodes G → edge G x w →
  before (dfs_postorder_nodes G) w x.
Proof.
  intros Hwf Hacyclic Hx Hxw.
  destruct (dfs_postorder_nodes_spec G Hwf) as (_ & _ & Hord).
  destruct (Hord x w Hx Hxw) as [?|Htc]; [done|].
  destruct (Hacyclic x). by eapply tc_l.
Qed.

(** ** The emission order *)

Lemma models_by_name_key ms c d : models_by_name ms !! c = Some d → name d = c.
Proof.
  unfold models_by_name.
  assert (H0 : ∀ c d, (∅ : gmap string ClassDecl) !! c = Some d → name d = c)
    by (intros ??; by rewrite lookup_empty).
  revert H0 c d. generalize (∅ : gmap string ClassDecl).
  induction ms as [|m ms IH]; intros acc Hacc c d; simpl; [apply Hacc|].
  apply IH. intros c' d'. destruct (decide (name m = c')) as [<-|Hne].
  - rewrite lookup_insert_eq. by intros [= <-].
  - rewrite lookup_insert_ne by done. apply Hacc.
Qed.

Lemma models_by_name_is_Some ms c :
  is_Some (models_by_name ms !! c) ↔ ∃ m, m ∈ ms ∧ name m = c.
Proof.
  unfold models_by_name.
  assert (H0 : is_Some ((∅ : gmap string ClassDecl) !! c) ↔ False)
    by (rewrite lookup_empty; split; [by intros [? ?]|done]).
  assert (Hgen : ∀ acc : gmap string ClassDecl,
             is_Some (foldl (λ m c, <[name c := c]> m) acc ms !! c)
             ↔ is_Some (acc !! c) ∨ ∃ m, m ∈ ms ∧ name m = c).
  { induction ms as [|m ms IH]; intros acc; simpl.
    - split; [by left|]. intros [?|(m & Hm%elem_of_nil & _)]; done.
    - rewrite IH. setoid_rewrite elem_of_cons.
      destruct (decide (name m = c)) as [<-|Hne].
      + rewrite lookup_insert_eq. split; [intros _|intros _; left; by eexists].
        right. exists m. split; [by left|done].
      + rewrite lookup_insert_ne by done. split.
        * intros [?|(m' & Hm' & Hn')]; [by left|right]. exists m'. split; [by right|done].
        * intros [?|(m' & [->|Hm'] & Hn')]; [by left|done|right]. by exists m'. }
  rewrite Hgen, H0. tauto.
Qed.

Lemma parse_names G ms :
  name <$> parse G ms
  = filter (λ c, is_Some (models_by_name ms !! c)) (dfs_postorder_nodes G).
Proof.
  unfold parse. induction (dfs_postorder_nodes G) as [|c l IH]; [done|].
  csimpl. destruct (models_by_name ms !! c) as [d|] eqn:Hc.
  - rewrite filter_cons_True by (rewrite Hc; by eexists).
    csimpl. rewrite IH. f_equal. by eapply models_by_name_key.
  - rewrite filter_cons_False by (rewrite Hc; by intros [? ?]). exact IH.
Qed.

Lemma before_filter (P : string → Prop) `{!∀ x, Decision (P x)} l w x :
  before l w x → P w → P x → before (filter P l) w x.
Proof.
  intros (a & b & -> & Hw) Pw Px. exists (filter P a), (filter P b).
  rewrite filter_app, filter_cons_True by done. split; [done|].
  by apply list_elem_of_filter.
Qed.

Lemma index_of_Some x l i : index_of x l = Some i → x ∈ l ∧ i < length l.
Proof.
  revert i. induction l as [|y l IH]; intros i; simpl; [done|].
  case_decide as Hxy.
  - intros [= <-]. subst. split; [apply list_elem_of_here|lia].
  - destruct (index_of x l) as [k|]; [|done]. intros [= <-].
    destruct (IH k eq_refl). split; [by apply list_elem_of_further|lia].
Qed.

Lemma index_of_app_l x l1 l2 : x ∈ l1 → index_of x (l1 ++ l2) = index_of x l1.
Proof.
  induction l1 as [|y l1 IH]; simpl; [by intros ?%elem_of_nil|].
  intros [->|Hx]%elem_of_cons; [by rewrite !decide_True|].
  case_decide; [done|]. by rewrite IH.
Qed.

Lemma index_of_app_r x l1 l2 :
  x ∉ l1 → index_of x (l1 ++ x :: l2) = Some (length l1).
Proof.
  induction l1 as [|y l1 IH]; simpl; [by rewrite decide_True|].
  intros [Hne Hx]%not_elem_of_cons. rewrite decide_False by done. by rewrite IH.
Qed.

Lemma before_index l w x i j :
  NoDup l → before l w x → index_of x l = Some i → index_of w l = Some j → j < i.
Proof.
  intros Hnd (a & b & -> & Hw) Hi Hj.
  apply NoDup_app in Hnd as (_ & Hdisj & _).
  rewrite index_of_app_l in Hj by done.
  rewrite index_of_app_r in Hi.
  - injection Hi as <-. by apply index_of_Some in Hj as [_ ?].
  - intros Hx. apply (Hdisj x Hx), list_elem_of_here.
Qed.

(** C1.  The names of the classes [parse] returns are the nodes of the
    graph in depth-first postorder over every node, restricted to the
    names of the extracted models; whether the graph has cycles or not, no
    name occurs twice and the names are exactly the nodes of the graph
    that are names of extracted models, so the traversal leaves out no
    node; and when the graph is acyclic, for an edge from [X] to [Y] with
    both classes in the output, the index of [Y] is strictly less than the
    index of [X]. *)
Theorem parse_dependencies_first (ops : list graph_op) (pydantic_models : list ClassDecl) :
  let G := build ops in
  let O := name <$> parse G pydantic_models in
  O = filter (λ c, is_Some (models_by_name pydantic_models !! c)) (dfs_postorder_nodes G)
  ∧ NoDup O
  ∧ (∀ c, c ∈ O ↔ c ∈ nodes G ∧ ∃ m, m ∈ pydantic_models ∧ name m = c)
  ∧ (acyclic G →
     ∀ X Y i j, edge G X Y → index_of X O = Some i → index_of Y O = Some j → j < i).
Proof.
  intros G O. subst O. rewrite parse_names.
  destruct (dfs_postorder_nodes_spec G (well_formed_build ops)) as (Hnd & Hnodes & _).
  split_and!; [done|by apply NoDup_filter| |].
  - intros c. by rewrite list_elem_of_filter, Hnodes, models_by_name_is_Some, (comm and).
  - intros Hacyclic X Y i j Hxy Hi Hj.
    eapply (before_index _ Y X i j); [|..|exact Hi|exact Hj]; [by apply NoDup_filter|].
    apply index_of_Some in Hi as [[HX HXin]%list_elem_of_filter _].
    apply index_of_Some in Hj as [[HY _]%list_elem_of_filter _].
    apply before_filter; [|done|done].
    apply dfs_postorder_nodes_acyclic;
      [apply well_formed_build|done|by apply Hnodes|done].
Qed.

Lemma parse_dependencies_first_witness :
  name <$> parse (build diamond) diamond_models = ["A"; "B"; "C"; "D"]
  ∧ NoDup (name <$> parse (build diamond) diamond_models)
  ∧ (∀ c, c ∈ name <$> parse (build diamond) diamond_models ↔
          c ∈ nodes (build diamond) ∧ ∃ m, m ∈ diamond_models ∧ name m = c)
  ∧ ∀ X Y i j, edge (build diamond) X Y →
      index_of X (name <$> parse (build diamond) diamond_models) = Some i →
      index_of Y (name <$> parse (build diamond) diamond_models) = Some j → j < i.
Proof.
  split; [vm_compute; reflexivity|].
  destruct (parse_dependencies_first diamond diamond_models) as (_ & Hnd & Hall & Hord).
  split_and!; [exact Hnd|exact Hall|]. apply Hord.
  apply (ranked_acyclic _ diamond_rank); [apply well_formed_build|].
  vm_compute. reflexivity.
Defined.

(** * Further properties *)

(** ** Unions *)

Lemma mapM_app {A B} (f : A → res B) l1 l2 ys :
  mapM f (l1 ++ l2) = Ret ys ↔
  ∃ ys1 ys2, mapM f l1 = Ret ys1 ∧ mapM f l2 = Ret ys2 ∧ ys = ys1 ++ ys2.
Proof.
  rewrite mapM_Forall2. split.
  - intros (ys1 & ys2 & H1 & H2 & ->)%Forall2_app_inv_l.
    exists ys1, ys2. by rewrite !mapM_Forall2.
  - intros (ys1 & ys2 & H1%mapM_Forall2 & H2%mapM_Forall2 & ->).
    by apply Forall2_app.
Qed.

Lemma leaf_members e ts :
  mapM _extract_type [e] = Ret ts →
  Forall (λ t, is_union t = false) ts →
  ∃ t, _extract_type e = Ret t ∧ union_members t = ts.
Proof.
  intros Hm Hts. simpl in Hm.
  destruct (_extract_type e) as [t|] eqn:He; [|done]. injection Hm as <-.
  exists t. split; [done|]. apply union_members_single. by inversion Hts.
Qed.

Lemma or_leaves_members e ts :
  mapM _extract_type (or_leaves e) = Ret ts →
  Forall (λ t, is_union t = false) ts →
  ∃ t, _extract_type e = Ret t ∧ union_members t = ts.
Proof.
  revert ts.
  induction e as [| |l IHl op r IHr| | | | |]; intros ts; try apply leaf_members.
  destruct op; try apply leaf_members.
  simpl. intros (ts1 & ts2 & H1 & H2 & ->)%mapM_app [Hts1 Hts2]%Forall_app.
  destruct (IHl ts1 H1 Hts1) as (tl & -> & Hl).
  destruct (IHr ts2 H2 Hts2) as (tr & -> & Hr).
  eexists. split; [reflexivity|]. simpl. by rewrite Hl, Hr.
Qed.

(** X1.  A tree of [|], however it is parenthesized, whose operands
    extract to types that are not unions, extracts to the one union of
    these types in the order of the source. *)
Theorem or_chain_flattened (l r : expr) (ts : list PyType) :
  mapM _extract_type (or_leaves (Or_ l r)) = Ret ts →
  Forall (λ t, is_union t = false) ts →
  _extract_type (Or_ l r) = Ret (UnionType ts).
Proof.
  intros Hm Hts. simpl in Hm.
  apply mapM_app in Hm as (ts1 & ts2 & H1 & H2 & ->).
  apply Forall_app in Hts as [Hts1 Hts2].
  destruct (or_leaves_members l ts1 H1 Hts1) as (tl & Hl & <-).
  destruct (or_leaves_members r ts2 H2 Hts2) as (tr & Hr & <-).
  unfold Or_. simpl. by rewrite Hl, Hr.
Qed.

Lemma or_chain_flattened_witness :
  _extract_type (Or_ (Name "int") (Or_ (Or_ (Name "Foo") (Name "str")) (Name "None")))
  = Ret (UnionType [PrimitiveType "int"; UserDefinedType "Foo"; PrimitiveType "str";
                    none_type]).
Proof.
  apply (or_chain_flattened (Name "int") (Or_ (Or_ (Name "Foo") (Name "str")) (Name "None"))).
  - reflexivity.
  - repeat constructor.
Defined.

Lemma mapM_length {A B} (f : A → res B) l ys : mapM f l = Ret ys → length ys = length l.
Proof. intros H%mapM_Forall2. symmetry. by eapply Forall2_length. Qed.

Lemma primitive_or_user_defined_not_union n :
  is_union (_primitive_or_user_defined_type n) = false.
Proof. unfold _primitive_or_user_defined_type. by repeat case_decide. Qed.

Lemma generic_of_inv g args t :
  generic_of g args = Ret t →
  ∃ ts, args = Ret ts
        ∧ ((g ∈ ["list"; "List"] ∧ t = GenericType "list" ts)
           ∨ (g ∈ ["dict"; "Dict"] ∧ t = GenericType "dict" ts)
           ∨ (g = "Union" ∧ t = UnionType ts)
           ∨ (g = "Optional" ∧ t = UnionType (ts ++ [none_type]))
           ∨ (g ∈ ["tuple"; "Tuple"] ∧ t = TupleType ts)).
Proof.
  unfold generic_of. repeat case_decide; try done;
    (destruct args as [ts|]; [|done]); simpl; intros [= <-]; exists ts;
    (split; [done|]); naive_solver.
Qed.

Lemma extract_is_union e t : _extract_type e = Ret t → is_union t = union_valued e.
Proof.
  destruct e as [n|v slice|l op r| | | | |]; try done.
  - intros [= <-]. apply primitive_or_user_defined_not_union.
  - rewrite _extract_type_Subscript. destruct v as [g| | | | | | |]; try done.
    simpl. case_decide as Hg.
    + subst g. unfold _parse_literal. simpl.
      destruct (mapM literal_value slice) as [vs|] eqn:Hvs; [|done]. simpl.
      apply mapM_length in Hvs. destruct vs as [|v [|v' vs]]; intros [= <-]; simpl;
        symmetry; [apply negb_true_iff, bool_decide_eq_false|apply negb_false_iff, bool_decide_eq_true|apply negb_true_iff, bool_decide_eq_false];
        simpl in Hvs; lia.
    + intros (ts & _ & Hcases)%generic_of_inv.
      destruct Hcases as [[Hin ->]|[[Hin ->]|[[-> ->]|[[-> ->]|[Hin ->]]]]];
        try reflexivity; simpl; symmetry; apply bool_decide_eq_false;
        revert Hin; rewrite !elem_of_cons, !elem_of_nil;
        intros [->|[->|[]]] [H|[H|[]]]; discriminate H.
  - destruct op; try done. simpl.
    destruct (_extract_type l); [|done]. simpl.
    destruct (_extract_type r); [|done]. by intros [= <-].
Qed.

Lemma flat_union_members t :
  flat t = true →
  forallb (λ m, negb (is_union m) && flat m) (union_members t) = true.
Proof. destruct t; simpl; try done; intros ->; done. Qed.

Lemma forallb_app_true {A} (f : A → bool) l1 l2 :
  forallb f l1 = true → forallb f l2 = true → forallb f (l1 ++ l2) = true.
Proof. intros H1 H2. rewrite forallb_app, H1, H2. done. Qed.

Lemma extract_flat e : ∀ t, _extract_type e = Ret t → no_union_args e = true → flat t = true.
Proof.
  induction e as [n|v slice _ IH|l op r IHl IHr|v|v|v a _| |c] using expr_nested_ind;
    intros t; try done.
  - intros [= <-] _. unfold _primitive_or_user_defined_type. by repeat case_decide.
  - rewrite _extract_type_Subscript. destruct v as [g| | | | | | |]; try done.
    simpl. case_decide as Hg.
    + subst g. unfold _parse_literal. simpl. intros Ht _.
      destruct (mapM literal_value slice) as [vs|]; [|done]. simpl in Ht.
      destruct vs as [|v [|v' vs]]; injection Ht as <-; try done.
      simpl. clear. by induction vs.
    + intros (ts & Hts & Hcases)%generic_of_inv Hargs.
      assert (Hall : Forall (λ t', flat t' = true
                 ∧ (g ∈ ["Union"; "Optional"] → is_union t' = false)) ts).
      { unfold _parse_types_list in Hts. apply mapM_Forall2 in Hts.
        clear Hcases. revert Hargs IH.
        induction Hts as [|el t' slice ts Hel _ IHts]; [constructor|].
        simpl. intros [Hel' Hrest]%andb_true_iff Hall.
        apply Forall_cons in Hall as [IHel Hall].
        constructor; [|by apply IHts].
        destruct el as [a|]; [|done]. rewrite type_var_extract in Hel.
        apply andb_true_iff in Hel' as [Ha Hu]. split; [by apply IHel|].
        intros Hin. rewrite (extract_is_union a t' Hel).
        apply orb_true_iff in Hu as [Hu|Hu]; [|by apply negb_true_iff in Hu].
        apply negb_true_iff, bool_decide_eq_false in Hu. done. }
      assert (Hflat : forallb flat ts = true).
      { apply forallb_forall. intros t' Ht'%list_elem_of_In.
        rewrite Forall_forall in Hall. by apply Hall. }
      assert (Hmem : g ∈ ["Union"; "Optional"] →
                forallb (λ m, negb (is_union m) && flat m) ts = true).
      { intros Hin. apply forallb_forall. intros t' Ht'%list_elem_of_In.
        rewrite Forall_forall in Hall. destruct (Hall t' Ht') as [-> Hu].
        by rewrite (Hu Hin). }
      destruct Hcases as [[Hin ->]|[[Hin ->]|[[-> ->]|[[-> ->]|[Hin ->]]]]]; simpl; try done.
      * apply Hmem. set_solver.
      * apply forallb_app_true; [apply Hmem; set_solver|done].
  - destruct op; try done. simpl.
    destruct (_extract_type l) as [tl|]; [|done]. simpl.
    destruct (_extract_type r) as [tr|]; [|done]. simpl.
    intros [= <-] [Hl Hr]%andb_true_iff. simpl.
    apply forallb_app_true; apply flat_union_members; auto.
Qed.

(** X2.  When no argument of a [Union[...]] or [Optional[...]] in the
    annotation is itself union-valued (a [|], a [Union], an [Optional] or a
    [Literal] of other than one value), the extracted type has no union
    among the members of a union, at any depth. *)
Theorem extract_type_flat (e : expr) (t : PyType) :
  _extract_type e = Ret t → no_union_args e = true → flat t = true.
Proof. apply extract_flat. Qed.

Lemma extract_type_flat_witness :
  flat (UnionType [GenericType "list" [UnionType [PrimitiveType "int"; PrimitiveType "str"]];
                   UserDefinedType "Foo"; none_type]) = true.
Proof.
  apply (extract_type_flat
           (Union_ [Subscript (Name "list") [Index (Or_ (Name "int") (Name "str"))];
                    Name "Foo"; Name "None"])); reflexivity.
Defined.

(** ** Literals *)

Lemma mapM_cons {A B} (f : A → res B) x l :
  mapM f (x :: l) = y ← f x; ys ← mapM f l; Ret (y :: ys).
Proof. reflexivity. Qed.

Lemma mapM_literal_value srcs :
  mapM literal_value ((λ s, Index (SimpleString s)) <$> srcs)
  = Ret (remove_char dquote <$> srcs).
Proof.
  induction srcs as [|s srcs IH]; [done|].
  rewrite fmap_cons, mapM_cons, IH. reflexivity.
Qed.

Lemma literal_types_no_dependencies (vs : list string) :
  concat (map _get_user_defined_types ((λ v, LiteralType (LitValue v)) <$> vs)) = [].
Proof. by induction vs. Qed.

(** X3.  A [Literal[...]] of string literals extracts to one literal type
    per value, in the order written, each holding the source text of its
    value without double-quote characters: the literal type itself for one
    value, a union of them otherwise.  Such a type has no dependencies. *)
Theorem literal_values_in_order (srcs : list string) (t : PyType) :
  _extract_type (Subscript (Name "Literal") ((λ s, Index (SimpleString s)) <$> srcs)) = Ret t →
  (∀ s, srcs = [s] → t = LiteralType (LitValue (remove_char dquote s)))
  ∧ (length srcs ≠ 1 →
     t = UnionType ((λ s, LiteralType (LitValue (remove_char dquote s))) <$> srcs))
  ∧ _get_user_defined_types t = [].
Proof.
  rewrite _extract_type_Subscript. unfold _parse_generic_type, _parse_literal. simpl.
  rewrite mapM_literal_value. simpl.
  destruct srcs as [|s [|s' srcs]]; intros [= <-]; split_and!; try done.
  - by intros s0 [= <-].
  - intros _. simpl. do 3 f_equal. by rewrite <- list_fmap_compose.
  - simpl. apply (literal_types_no_dependencies (remove_char dquote <$> srcs)).
Qed.

Lemma literal_values_in_order_witness :
  _extract_type (Literal_ ["a"; "b"; "c"])
  = Ret (UnionType [LiteralType (LitValue "a"); LiteralType (LitValue "b");
                    LiteralType (LitValue "c")]).
Proof.
  destruct (literal_values_in_order (py_str dquote <$> ["a"; "b"; "c"])
              (UnionType [LiteralType (LitValue "a"); LiteralType (LitValue "b");
                          LiteralType (LitValue "c")])) as (_ & H & _).
  - reflexivity.
  - reflexivity.
Defined.

(** ** Dependencies of an annotation *)

Lemma get_user_defined_types_union_members t :
  concat (map _get_user_defined_types (union_members t)) = _get_user_defined_types t.
Proof. destruct t as [| | | |[]| |]; simpl; try done; by rewrite app_nil_r. Qed.

Lemma concat_map_app {A B} (f : A → list B) l1 l2 :
  concat (map f (l1 ++ l2)) = concat (map f l1) ++ concat (map f l2).
Proof. by rewrite map_app, concat_app. Qed.

Lemma primitive_or_user_defined_dependencies n :
  _get_user_defined_types (_primitive_or_user_defined_type n)
  = filter (λ n, n ∉ builtin_names) [n].
Proof.
  unfold _primitive_or_user_defined_type, builtin_names.
  case_decide as Hp; [|case_decide as Hc].
  - rewrite filter_cons_False; [done|]. intros Hn. apply Hn.
    revert Hp. rewrite !elem_of_cons. tauto.
  - rewrite filter_cons_False; [done|]. intros Hn. apply Hn.
    revert Hc. rewrite !elem_of_cons. tauto.
  - rewrite filter_cons_True; [done|].
    revert Hp Hc. rewrite !elem_of_cons, !elem_of_nil. tauto.
Qed.

Lemma extract_dependencies e :
  ∀ t, _extract_type e = Ret t →
       _get_user_defined_types t = filter (λ n, n ∉ builtin_names) (annotation_names e).
Proof.
  induction e as [n|v slice _ IH|l op r IHl IHr|v|v|v a _| |c] using expr_nested_ind;
    intros t; try done.
  - intros [= <-]. apply primitive_or_user_defined_dependencies.
  - rewrite _extract_type_Subscript. destruct v as [g| | | | | | |]; try done.
    simpl. case_decide as Hg.
    + subst g. unfold _parse_literal. simpl. intros Ht.
      destruct (mapM literal_value slice) as [vs|]; [|done]. simpl in Ht.
      destruct vs as [|v [|v' vs]]; injection Ht as <-; try done.
      apply (literal_types_no_dependencies (v :: v' :: vs)).
    + intros (ts & Hts & Hcases)%generic_of_inv.
      assert (Hargs : concat (map _get_user_defined_types ts)
                = filter (λ n, n ∉ builtin_names)
                    (concat (map (λ element,
                                    match element with
                                    | Index a => annotation_names a
                                    | Slice => []
                                    end) slice))).
      { unfold _parse_types_list in Hts. apply mapM_Forall2 in Hts.
        clear Hcases. revert IH.
        induction Hts as [|el t' slice ts Hel _ IHts]; [done|].
        intros [IHel Hall]%Forall_cons. simpl. rewrite filter_app.
        f_equal; [|by apply IHts].
        destruct el as [a|]; [|done]. rewrite type_var_extract in Hel. by apply IHel. }
      destruct Hcases as [[Hin ->]|[[Hin ->]|[[-> ->]|[[-> ->]|[Hin ->]]]]]; simpl.
      * rewrite decide_False; [done|]. revert Hin. rewrite !elem_of_cons, !elem_of_nil.
        intros [->|[->|[]]] [H|[H|[H|[]]]]; discriminate H.
      * rewrite decide_False; [done|]. revert Hin. rewrite !elem_of_cons, !elem_of_nil.
        intros [->|[->|[]]] [H|[H|[H|[]]]]; discriminate H.
      * done.
      * by rewrite concat_map_app, Hargs, app_nil_r.
      * by rewrite decide_True by (revert Hin; rewrite !elem_of_cons; tauto).
  - destruct op; try done. simpl.
    destruct (_extract_type l) as [tl|]; [|done]. simpl.
    destruct (_extract_type r) as [tr|]; [|done]. simpl.
    intros [= <-]. simpl.
    rewrite concat_map_app, !get_user_defined_types_union_members, filter_app.
    by rewrite (IHl tl), (IHr tr).
Qed.

(** X4.  The dependencies of an extracted annotation are the identifiers
    written in it outside [Literal[...]] and [tuple[...]], in the order
    written, without the names of the primitive types and of the bare
    containers; such a name is never a dependency. *)
Theorem extracted_dependencies (e : expr) (t : PyType) :
  _extract_type e = Ret t →
  _get_user_defined_types t = filter (λ n, n ∉ builtin_names) (annotation_names e)
  ∧ ∀ d, d ∈ _get_user_defined_types t → d ∉ builtin_names.
Proof.
  intros He. rewrite (extract_dependencies e t He). split; [done|].
  by intros d [Hd _]%list_elem_of_filter.
Qed.

Lemma extracted_dependencies_witness :
  _get_user_defined_types
    (UnionType [GenericType "dict" [PrimitiveType "str"; UserDefinedType "Foo"];
                TupleType [UserDefinedType "Bar"]; UserDefinedType "Baz"; none_type])
  = ["Foo"; "Baz"].
Proof.
  destruct (extracted_dependencies
              (Optional_ (Union_ [Subscript (Name "dict") [Index (Name "str"); Index (Name "Foo")];
                                  Subscript (Name "tuple") [Index (Name "Bar")];
                                  Name "Baz"]))
              (UnionType [UnionType [GenericType "dict" [PrimitiveType "str"; UserDefinedType "Foo"];
                                     TupleType [UserDefinedType "Bar"]; UserDefinedType "Baz"];
                          none_type]) eq_refl) as [H _].
  reflexivity.
Defined.

(** ** The class visitor *)

Lemma docstring_cons s ss d :
  from_option Some (Some (remove_triple_dquote s)) (docstring ss)
  = from_option Some d (docstring (s :: ss)).
Proof. unfold docstring. destruct ss as [|s' ss]; [done|]. rewrite last_cons_cons.
  by destruct (last (s' :: ss)) eqn:Hl; [|apply last_None in Hl]. Qed.

Lemma visit_body_cons self s rest :
  visit_body self (s :: rest) = self' ← visit_stmt false self s; visit_body self' rest.
Proof. reflexivity. Qed.

Lemma visit_stmt_inside_function s :
  ∀ self, no_nested_class s = true → visit_stmt true self s = Ret self.
Proof.
  induction s as [a|v|n bs body IH|body IH|] using stmt_nested_ind; intros self Hs;
    try done.
  simpl in *. revert self. induction IH as [|s body Hs0 _ IHb]; intros self; [done|].
  simpl in Hs. apply andb_true_iff in Hs as [Hs1 Hs2].
  simpl. rewrite Hs0 by done. simpl. by apply IHb.
Qed.

Lemma visit_stmt_SFunctionDef self body :
  forallb no_nested_class body = true → visit_stmt false self (SFunctionDef body) = Ret self.
Proof. intros Hb. by apply (visit_stmt_inside_function (SFunctionDef body)). Qed.

Lemma visit_body_after_field body :
  ∀ self self' fs f_last,
    forallb no_nested_class body = true →
    fields (class_decl self) = fs ++ [f_last] →
    _last_field_nr self = length (fs ++ [f_last]) →
    visit_body self body = Ret self' →
    name (class_decl self') = name (class_decl self)
    ∧ base_classes (class_decl self') = base_classes (class_decl self)
    ∧ comment (class_decl self') = comment (class_decl self)
    ∧ _last_field_nr self' = length (fields (class_decl self'))
    ∧ logged self' = logged self ++ concat (map assignment_logs (segments body).*1)
    ∧ ∃ new,
        fields (class_decl self')
        = fs ++ [mkClassField (field_name f_last) (field_type f_last) (default_value f_last)
                   (from_option Some (field_comment f_last)
                      (docstring (leading_strings body)))] ++ new
        ∧ Forall2 field_of (segments body) new.
Proof.
  induction body as [|s body IH]; intros self self' fs f_last Hplain Hfs Hnr.
  - intros [= <-]. rewrite Hfs, Hnr, app_nil_r. split_and!; try done.
    exists []. split; [|constructor]. destruct f_last. by rewrite app_nil_r.
  - simpl in Hplain. apply andb_true_iff in Hplain as [Hs Hplain].
    rewrite visit_body_cons. destruct s as [a|s|n bs b|b|].
    + simpl.
      unfold visit_AnnAssign. destruct (target a) as [tn| | | | | | |] eqn:Ht; try done.
      destruct (_extract_type (annotation a)) as [ty|] eqn:Hty; [|done]. simpl.
      intros Hrest.
      eapply (IH _ _ (fs ++ [f_last])) in Hrest;
        [|done|by simpl; rewrite Hfs|by simpl; rewrite Hnr, !length_app; simpl; lia].
      simpl in Hrest. destruct Hrest as (Hn & Hb & Hc & Hl & Hlog & new & Hnew & HF).
      split_and!; try done.
      * rewrite Hlog, <- app_assoc. done.
      * eexists (_ :: new). split.
        { rewrite Hnew. destruct f_last. simpl. by rewrite <- !app_assoc. }
        constructor; [|done]. unfold field_of. simpl.
        split_and!; try done. by destruct (docstring (leading_strings body)).
    + simpl.
      unfold visit_SimpleString. rewrite decide_False by (rewrite Hnr, length_app; simpl; lia).
      rewrite Hfs, Hnr, length_app. simpl.
      replace (length fs + 1 - 1) with (length fs) by lia.
      rewrite lookup_app_r, Nat.sub_diag by lia. simpl.
      rewrite alter_app_r_alt, Nat.sub_diag by lia. simpl.
      intros Hrest.
      eapply (IH _ _ fs (set_comment (remove_triple_dquote s) f_last)) in Hrest.
      * simpl in Hrest. destruct Hrest as (Hn & Hb & Hc & Hl & Hlog & new & Hnew & HF).
        split_and!; try done. exists new. split; [|done].
        rewrite Hnew. simpl. by rewrite (docstring_cons s _ (field_comment f_last)).
      * done.
      * done.
      * simpl. rewrite !length_app. simpl. lia.
    + done.
    + rewrite visit_stmt_SFunctionDef by done. simpl. intros Hrest. by eapply IH in Hrest.
    + simpl. intros Hrest. by eapply IH in Hrest.
Qed.

Lemma visit_body_from_start body :
  ∀ self self',
    forallb no_nested_class body = true →
    fields (class_decl self) = [] → _last_field_nr self = 0 →
    visit_body self body = Ret self' →
    name (class_decl self') = name (class_decl self)
    ∧ base_classes (class_decl self') = base_classes (class_decl self)
    ∧ comment (class_decl self')
      = from_option Some (comment (class_decl self)) (docstring (leading_strings body))
    ∧ _last_field_nr self' = length (fields (class_decl self'))
    ∧ logged self' = logged self ++ concat (map assignment_logs (segments body).*1)
    ∧ Forall2 field_of (segments body) (fields (class_decl self')).
Proof.
  induction body as [|s body IH]; intros self self' Hplain Hfs Hnr.
  - intros [= <-]. rewrite Hfs, Hnr, app_nil_r. split_and!; done.
  - simpl in Hplain. apply andb_true_iff in Hplain as [Hs Hplain].
    rewrite visit_body_cons. destruct s as [a|s|n bs b|b|].
    + simpl.
      unfold visit_AnnAssign. destruct (target a) as [tn| | | | | | |] eqn:Ht; try done.
      destruct (_extract_type (annotation a)) as [ty|] eqn:Hty; [|done]. simpl.
      intros Hrest.
      eapply (visit_body_after_field _ _ _ []) in Hrest;
        [|done|by simpl; rewrite Hfs|by simpl; rewrite Hnr].
      simpl in Hrest. destruct Hrest as (Hn & Hb & Hc & Hl & Hlog & new & Hnew & HF).
      split_and!; try done.
      * rewrite Hlog, <- app_assoc. done.
      * rewrite Hnew. constructor; [|done]. unfold field_of. simpl.
        split_and!; try done. by destruct (docstring (leading_strings body)).
    + simpl.
      unfold visit_SimpleString. rewrite decide_True by done. intros Hrest.
      eapply IH in Hrest; [|done..]. simpl in Hrest.
      destruct Hrest as (Hn & Hb & Hc & Hl & Hlog & HF).
      split_and!; try done. rewrite Hc. apply docstring_cons.
    + done.
    + rewrite visit_stmt_SFunctionDef by done. simpl. intros Hrest. by eapply IH in Hrest.
    + simpl. intros Hrest. by eapply IH in Hrest.
Qed.

(** X5.  For a class in whose body no class definition is nested, so that
    the body consists of annotated assignments, string statements and
    statements the visitor ignores (methods among them): when the class
    visitor returns, the class has the name of the definition and its base classes
    that are identifiers, and one field per annotated assignment, in the
    order written, with the assignment's target as name, the extracted
    annotation as type and the parsed initializer, if any, as default; one
    record is logged per initializer [_parse_value] warns about. *)
Theorem parse_class_decl_fields (node : ClassDef) (parsed : ParseClassDecl) :
  unnested node = true →
  parse_class_decl node = Ret parsed →
  name (class_decl parsed) = def_name node
  ∧ base_classes (class_decl parsed) = name_values (bases node)
  ∧ Forall2 (λ a f, target a = Name (field_name f)
                    ∧ _extract_type (annotation a) = Ret (field_type f)
                    ∧ default_value f = fst <$> (_parse_value <$> value a))
      (segments (body node)).*1 (fields (class_decl parsed))
  ∧ logged parsed = concat (map assignment_logs (segments (body node)).*1).
Proof.
  intros Hu H.
  apply visit_body_from_start in H as (Hn & Hb & _ & _ & Hlog & HF); [|done..].
  split_and!; try done.
  apply Forall2_fmap_l. eapply Forall2_impl; [exact HF|].
  intros seg f (? & ? & ? & _). done.
Qed.

Lemma parse_class_decl_fields_witness :
  ∃ parsed, parse_class_decl alias_example_class = Ret parsed
            ∧ name (class_decl parsed) = "M"
            ∧ field_name <$> fields (class_decl parsed) = ["age"; "ages"; "years"].
Proof.
  assert (∃ parsed, parse_class_decl alias_example_class = Ret parsed) as [parsed Hp]
    by (eexists; vm_compute; reflexivity).
  exists parsed. split; [exact Hp|].
  destruct (parse_class_decl_fields alias_example_class parsed eq_refl Hp)
    as (Hn & _ & HF & _).
  split; [exact Hn|].
  simpl in HF.
  apply Forall2_cons_inv_l in HF as (f1 & fs1 & (H1 & _) & HF & ->).
  apply Forall2_cons_inv_l in HF as (f2 & fs2 & (H2 & _) & HF & ->).
  apply Forall2_cons_inv_l in HF as (f3 & fs3 & (H3 & _) & HF & ->).
  apply Forall2_nil_inv_l in HF as ->.
  simpl in *. by injection H1 as <-; injection H2 as <-; injection H3 as <-.
Defined.

(** X6.  For such a class, the comment of the class is the last string
    statement before the first annotated assignment, and the comment of a
    field is the last string statement between its assignment and the
    next, each without the triple double quotes in it; without such a
    statement there is no comment. *)
Theorem parse_class_decl_comments (node : ClassDef) (parsed : ParseClassDecl) :
  unnested node = true →
  parse_class_decl node = Ret parsed →
  comment (class_decl parsed) = docstring (leading_strings (body node))
  ∧ field_comment <$> fields (class_decl parsed)
    = (λ seg, docstring seg.2) <$> segments (body node).
Proof.
  intros Hu H. apply visit_body_from_start in H as (_ & _ & Hc & _ & _ & HF); [|done..].
  split.
  - rewrite Hc. simpl. by destruct (docstring (leading_strings (body node))).
  - clear Hc. induction HF as [|seg f segs fs (_ & _ & _ & Hcom) _ IH]; [done|].
    rewrite !fmap_cons. by rewrite Hcom, IH.
Qed.

Lemma remove_triple_dquote_other a s :
  a ≠ dquote → remove_triple_dquote (String a s) = String a (remove_triple_dquote s).
Proof.
  intros Ha. apply Ascii.eqb_neq in Ha.
  destruct s as [|b [|c s]]; simpl; by rewrite ?Ha.
Qed.

Lemma remove_triple_dquote_closing text :
  ¬ has_char dquote text → remove_triple_dquote (text +:+ triple_dquote) = text.
Proof.
  unfold has_char. induction text as [|a text IH]; [done|].
  simpl list_ascii_of_string. rewrite elem_of_cons. intros Hn.
  change (String a text +:+ triple_dquote) with (String a (text +:+ triple_dquote)).
  rewrite remove_triple_dquote_other by (intros ->; tauto).
  rewrite IH by tauto. done.
Qed.

(** X7.  The text of a docstring between triple double quotes that has no
    double quote inside is what the visitor keeps as comment. *)
Theorem docstring_text (text : string) :
  ¬ has_char dquote text →
  docstring [triple_dquote +:+ text +:+ triple_dquote] = Some text.
Proof.
  intros H. unfold docstring. simpl. f_equal.
  change (triple_dquote +:+ text +:+ triple_dquote)
    with (String dquote (String dquote (String dquote (text +:+ triple_dquote)))).
  change (remove_triple_dquote
            (String dquote (String dquote (String dquote (text +:+ triple_dquote)))))
    with (remove_triple_dquote (text +:+ triple_dquote)).
  by apply remove_triple_dquote_closing.
Qed.

Lemma visit_body_returns body :
  ∀ self, forallb no_nested_class body = true →
    _last_field_nr self = length (fields (class_decl self)) →
    if forallb assignment_ok (segments body).*1
    then returns (visit_body self body) else raises (visit_body self body).
Proof.
  induction body as [|s body IH]; intros self Hplain Hnr; [by eexists|].
  simpl in Hplain. apply andb_true_iff in Hplain as [Hs Hplain].
  rewrite visit_body_cons.
  destruct s as [a|s|n bs b|b|]; [| |done|rewrite visit_stmt_SFunctionDef by done|]; simpl.
  - unfold assignment_ok at 1, visit_AnnAssign.
    destruct (target a) as [tn| | | | | | |]; try by eexists.
    pose proof (extract_type_decide (annotation a)) as Ha.
    destruct (accepted (annotation a)).
    + destruct Ha as [ty ->]. simpl. apply IH; [done|]. simpl.
      rewrite length_app, Hnr. simpl. lia.
    + destruct Ha as [e ->]. by eexists.
  - unfold visit_SimpleString. case_decide as Hz.
    + simpl. by apply IH.
    + destruct (lookup_lt_is_Some_2 (fields (class_decl self)) (_last_field_nr self - 1))
        as [f ->]; [lia|].
      simpl. apply IH; [done|]. simpl. by rewrite length_alter.
  - by apply IH.
  - by apply IH.
Qed.

(** X8.  For a class in whose body no class definition is nested, the
    class visitor returns exactly when every
    annotated assignment of the body has an identifier as target and an
    annotation the type extractor accepts; otherwise it raises. *)
Theorem parse_class_decl_returns (node : ClassDef) :
  unnested node = true →
  if forallb assignment_ok (segments (body node)).*1
  then returns (parse_class_decl node) else raises (parse_class_decl node).
Proof. intros Hu. by apply visit_body_returns. Qed.

Lemma parse_class_decl_returns_witness : returns (parse_class_decl documented_class).
Proof. exact (parse_class_decl_returns documented_class eq_refl). Defined.

Lemma visit_stmts_last_class body :
  Forall (λ s, ∀ inside self self',
                 visit_stmt inside self s = Ret self' →
                 (name (class_decl self'), base_classes (class_decl self'))
                 = last_class_def (name (class_decl self), base_classes (class_decl self)) s)
         body →
  ∀ inside self self',
    foldM (visit_stmt inside) self body = Ret self' →
    (name (class_decl self'), base_classes (class_decl self'))
    = foldl last_class_def (name (class_decl self), base_classes (class_decl self)) body.
Proof.
  induction 1 as [|s body Hs _ IH]; intros inside self self'; simpl; [by intros [= <-]|].
  destruct (visit_stmt inside self s) as [self1|] eqn:H1; [|done]. simpl.
  intros Hrest. rewrite <- (Hs _ _ _ H1). by eapply IH.
Qed.

Lemma visit_stmt_last_class s :
  ∀ inside self self',
    visit_stmt inside self s = Ret self' →
    (name (class_decl self'), base_classes (class_decl self'))
    = last_class_def (name (class_decl self), base_classes (class_decl self)) s.
Proof.
  induction s as [a|v|n bs body IH|body IH|] using stmt_nested_ind;
    intros inside self self'; simpl.
  - destruct inside; [by intros [= <-]|]. unfold visit_AnnAssign.
    destruct (target a); try done.
    destruct (_extract_type (annotation a)); [|done]. simpl. by intros [= <-].
  - destruct inside; [by intros [= <-]|]. unfold visit_SimpleString.
    case_decide; [by intros [= <-]|].
    destruct (fields (class_decl self) !! (_last_field_nr self - 1)); [|done].
    by intros [= <-].
  - intros H. by apply (visit_stmts_last_class body IH) in H.
  - intros H. by apply (visit_stmts_last_class body IH) in H.
  - by intros [= <-].
Qed.

(** X19.  When the class visitor returns, the class it returns has the
    name and the identifier bases of the class definition its walk met
    last: a class definition nested in the body, inside a method or not,
    takes the place of the class that is parsed. *)
Theorem nested_class_takes_over (node : ClassDef) (parsed : ParseClassDecl) :
  parse_class_decl node = Ret parsed →
  (name (class_decl parsed), base_classes (class_decl parsed))
  = foldl last_class_def (def_name node, name_values (bases node)) (body node).
Proof.
  intros H. apply (visit_stmts_last_class (body node)) in H; [done|].
  apply Forall_forall. intros s _. apply visit_stmt_last_class.
Qed.

Lemma nested_class_takes_over_witness :
  ∃ parsed, parse_class_decl nested_class = Ret parsed
            ∧ name (class_decl parsed) = "Config"
            ∧ base_classes (class_decl parsed) = []
            ∧ field_name <$> fields (class_decl parsed) = ["x"].
Proof.
  assert (∃ parsed, parse_class_decl nested_class = Ret parsed) as [parsed Hp]
    by (eexists; vm_compute; reflexivity).
  exists parsed. split; [exact Hp|].
  pose proof (nested_class_takes_over nested_class parsed Hp) as Hlast.
  simpl in Hlast. injection Hlast as Hn Hb.
  split_and!; [exact Hn|exact Hb|].
  vm_compute in Hp. by injection Hp as <-.
Defined.

Lemma parse_class_decl_comments_witness :
  ∃ parsed, parse_class_decl documented_class = Ret parsed
            ∧ comment (class_decl parsed) = Some "A user."
            ∧ field_comment <$> fields (class_decl parsed) = [Some "Full name."; None].
Proof.
  assert (∃ parsed, parse_class_decl documented_class = Ret parsed) as [parsed Hp]
    by (eexists; vm_compute; reflexivity).
  exists parsed. split; [exact Hp|].
  destruct (parse_class_decl_comments documented_class parsed eq_refl Hp) as [Hc Hf].
  split; [rewrite Hc|rewrite Hf]; reflexivity.
Defined.

Lemma docstring_text_witness :
  docstring [triple_dquote +:+ "A user." +:+ triple_dquote] = Some "A user.".
Proof.
  apply (docstring_text "A user.").
  unfold has_char. vm_compute. intros H.
  by repeat (inversion H as [|? ? ? H']; clear H; rename H' into H).
Defined.

(** ** The import table *)

Lemma lookup_foldl_insert (from_ : string) (l : list string) (m : gmap string string) n :
  foldl (λ m imp, <[imp := from_]> m) m l !! n
  = if decide (n ∈ l) then Some from_ else m !! n.
Proof.
  revert m. induction l as [|x l IH]; intros m; cbn [foldl].
  - rewrite decide_False; [done|]. apply not_elem_of_nil.
  - rewrite IH. destruct (decide (n ∈ l)) as [Hl|Hl].
    + rewrite decide_True; [done|]. by apply list_elem_of_further.
    + destruct (decide (x = n)) as [->|Hx].
      * rewrite lookup_insert_eq, decide_True; [done|]. apply list_elem_of_here.
      * rewrite lookup_insert_ne by done. rewrite decide_False; [done|].
        rewrite elem_of_cons. intros [->|?]; done.
Qed.

(** X9.  After an import statement is visited, every name it imports maps
    to the origin of that statement (one dot per level of the relative
    import, then the dotted module path), replacing an earlier entry for
    the name; every other name keeps its entry. *)
Theorem visit_ImportFrom_lookup
    (imports : gmap string string) (node : ImportFrom) (n : string) :
  visit_ImportFrom imports node !! n
  = if decide (n ∈ names node)
    then Some (dots (relative node) +:+ join "." (module node))
    else imports !! n.
Proof.
  unfold visit_ImportFrom, imports_of. rewrite lookup_union, lookup_foldl_insert.
  case_decide; [by destruct (imports !! n)|].
  rewrite lookup_empty. by destruct (imports !! n).
Qed.

(** ** Edges of the graph *)

Lemma edge_add_node n G x y : well_formed G → edge (add_node n G) x y ↔ edge G x y.
Proof.
  intros [_ Hcl]. split; [apply successors_add_node|].
  unfold add_node. case_decide as Hn; [done|].
  unfold edge, successors. simpl. intros Hxy.
  destruct (decide (n = x)) as [->|Hne].
  - destruct (Hcl x y Hxy) as [Hx _]. done.
  - by rewrite lookup_insert_ne.
Qed.

Lemma edge_add_edge u v G x y :
  well_formed G → edge (add_edge u v G) x y ↔ edge G x y ∨ (x = u ∧ y = v).
Proof.
  intros HG.
  assert (HG' : well_formed (add_node v (add_node u G)))
    by by do 2 apply well_formed_add_node.
  assert (Hsame : ∀ a b, edge (add_node v (add_node u G)) a b ↔ edge G a b).
  { intros a b. rewrite edge_add_node by by apply well_formed_add_node.
    by apply edge_add_node. }
  unfold add_edge. set (G' := add_node v (add_node u G)) in *. clearbody G'.
  case_decide as Hin.
  - rewrite Hsame. split; [by left|]. intros [?|[-> ->]]; [done|]. by apply Hsame.
  - rewrite <- Hsame. unfold edge at 1, successors at 1. simpl.
    destruct (decide (u = x)) as [->|Hne].
    + rewrite lookup_insert_eq. simpl. rewrite elem_of_app, list_elem_of_singleton.
      unfold edge. naive_solver.
    + rewrite lookup_insert_ne by done. unfold edge, successors. naive_solver.
Qed.

Lemma well_formed_foldl G ops : well_formed G → well_formed (foldl apply_op G ops).
Proof.
  revert G. induction ops as [|op ops IH]; intros G HG; [done|].
  simpl. apply IH. destruct op; [by apply well_formed_add_node|by apply well_formed_add_edge].
Qed.

Lemma nodes_add_edge u v G x : x ∈ nodes (add_edge u v G) ↔ x = u ∨ x = v ∨ x ∈ nodes G.
Proof.
  unfold add_edge. case_decide; simpl; rewrite !nodes_add_node; tauto.
Qed.

Lemma edge_foldl G ops x y :
  well_formed G →
  edge (foldl apply_op G ops) x y ↔ edge G x y ∨ AddEdge x y ∈ ops.
Proof.
  revert G. induction ops as [|op ops IH]; intros G HG; simpl.
  - rewrite elem_of_nil. tauto.
  - rewrite elem_of_cons. destruct op as [n|u v]; simpl.
    + rewrite IH by by apply well_formed_add_node. rewrite edge_add_node by done.
      split; [intros [?|?]; auto|intros [?|[?|?]]; auto; done].
    + rewrite IH by by apply well_formed_add_edge. rewrite edge_add_edge by done.
      split.
      * intros [[?|[-> ->]]|?]; auto.
      * intros [?|[[= -> ->]|?]]; auto.
Qed.

Lemma nodes_foldl G ops x :
  x ∈ nodes (foldl apply_op G ops) ↔
  x ∈ nodes G ∨ AddNode x ∈ ops ∨ ∃ y, AddEdge x y ∈ ops ∨ AddEdge y x ∈ ops.
Proof.
  revert G. induction ops as [|op ops IH]; intros G; simpl.
  - setoid_rewrite elem_of_nil. naive_solver.
  - rewrite IH. setoid_rewrite elem_of_cons. destruct op as [n|u v]; simpl.
    + rewrite nodes_add_node. naive_solver.
    + rewrite nodes_add_edge. naive_solver.
Qed.

(** ** The walk over a module *)

Lemma key_add_NoDup k keys : NoDup keys → NoDup (key_add k keys).
Proof.
  intros H. unfold key_add. case_decide as Hk; [done|].
  apply NoDup_app. split_and!; [done| |apply NoDup_singleton].
  by intros x Hx ->%list_elem_of_singleton.
Qed.

Lemma elem_of_key_add k keys x : x ∈ key_add k keys ↔ x = k ∨ x ∈ keys.
Proof.
  unfold key_add. case_decide as Hk.
  - split; [by right|]. by intros [->|?].
  - rewrite elem_of_app, list_elem_of_singleton. tauto.
Qed.

Lemma is_Some_lookup_insert {V} (m : gmap string V) k v x :
  is_Some (<[k := v]> m !! x) ↔ x = k ∨ is_Some (m !! x).
Proof.
  destruct (decide (k = x)) as [->|Hne].
  - rewrite lookup_insert_eq. split; [by left|by eexists].
  - rewrite lookup_insert_ne by done. split; [by right|]. by intros [->|?].
Qed.

Lemma foldl_snoc_ops G ops op : foldl apply_op G (ops ++ [op]) = apply_op (foldl apply_op G ops) op.
Proof. by rewrite foldl_app. Qed.

Lemma collected_init pkg G0 po : collected G0 po (init_visitor pkg G0 po).
Proof.
  assert (Hkeys : ∀ (m : gmap string ClassDecl) k, m = ∅ → k ∈ @nil string ↔ is_Some (m !! k)).
  { intros m k ->. rewrite elem_of_nil, lookup_empty. split; [done|by intros [? ?]]. }
  unfold collected, consistent. simpl.
  split_and!; try done; try apply NoDup_nil_2; try (intros k; by apply Hkeys);
    try (intros k c; by rewrite lookup_empty).
  exists []. split; [done|]. intros k [c Hc]. by rewrite lookup_empty in Hc.
Qed.

Lemma collected_handle G0 po v ev v' :
  collected G0 po v → handle v ev = Ret v' → collected G0 po v'.
Proof.
  intros ((Hnd & Hkeys & Hcls & Hpnd & Hpkeys & Hpname) & Hp & Hpk & He & Hw & Hpo
          & ns & HG & Hns).
  destruct ev as [node|node|node]; simpl.
  - intros [= <-]. unfold collected, consistent. simpl. split_and!; try done. by exists ns.
  - intros [= <-]. unfold collected, consistent. simpl. split_and!; try done.
    + by apply key_add_NoDup.
    + intros k. rewrite elem_of_key_add, is_Some_lookup_insert, Hkeys. done.
    + intros k c. destruct (decide (def_name node = k)) as [<-|Hne].
      * rewrite !lookup_insert_eq. intros [= <-]. split; [done|]. by exists node.
      * rewrite !lookup_insert_ne by done. apply Hcls.
    + exists (ns ++ [def_name node]). split; [by rewrite fmap_app, foldl_app, <- HG|].
      intros k [->|Hk]%is_Some_lookup_insert; apply elem_of_app;
        [right; apply list_elem_of_here|left; by apply Hns].
  - unfold module_visit_AnnAssign. destruct (target node); try done.
    intros [= <-]. unfold collected, consistent. simpl. split_and!; try done. by exists ns.
Qed.

Lemma collected_walk G0 po events :
  ∀ v v', collected G0 po v → foldM handle v events = Ret v' → collected G0 po v'.
Proof.
  induction events as [|ev events IH]; intros v v' Hv; simpl; [by intros [= <-]|].
  destruct (handle v ev) as [v1|] eqn:Hev; [|done]. simpl.
  apply IH. by eapply collected_handle.
Qed.

Lemma collected_graph G0 po v :
  collected G0 po v → well_formed G0 →
  well_formed (_model_graph (visitor v))
  ∧ ∀ x y, edge (_model_graph (visitor v)) x y ↔ edge G0 x y.
Proof.
  intros (_ & _ & _ & _ & _ & _ & ns & -> & _) HG0. split; [by apply well_formed_foldl|].
  intros x y. rewrite edge_foldl by done. split; [|by left].
  intros [?|(n & [=] & _)%list_elem_of_fmap]; done.
Qed.

(** ** Finishing a class *)

Lemma is_pydantic_model_frame fuel s1 s2 cls :
  _imports s1 = _imports s2 → _classes s1 = _classes s2 →
  _is_pydantic_model fuel s1 cls = _is_pydantic_model fuel s2 cls.
Proof.
  intros Hi Hc. revert cls. induction fuel as [|fuel IH]; intros cls; [done|].
  simpl. rewrite Hi, Hc.
  destruct (if decide ("BaseModel" ∈ base_classes cls)
            then from_ ← getitem (_imports s2) "BaseModel"; Ret (bool_decide (from_ = "pydantic"))
            else Ret false) as [[|]|]; simpl; try done.
  induction (base_classes cls) as [|b bs IHbs]; [done|].
  destruct (_classes s2 !! b); [apply IH|apply IHbs].
Qed.

Lemma unnested_init pkg G0 po : unnested_nodes (init_visitor pkg G0 po).
Proof. intros k node. simpl. by rewrite lookup_empty. Qed.

Lemma unnested_walk events :
  ∀ v v', unnested_events events = true → unnested_nodes v →
          foldM handle v events = Ret v' → unnested_nodes v'.
Proof.
  induction events as [|ev events IH]; intros v v' He Hv; simpl; [by intros [= <-]|].
  simpl in He. apply andb_true_iff in He as [Hev He].
  destruct (handle v ev) as [v1|] eqn:Hstep; [|done]. simpl.
  apply IH; [done|]. destruct ev as [node|node|node]; simpl in Hstep.
  - by injection Hstep as <-.
  - injection Hstep as <-. intros k n. simpl.
    destruct (decide (def_name node = k)) as [<-|Hne].
    + rewrite lookup_insert_eq. by intros [= <-].
    + rewrite lookup_insert_ne by done. apply Hv.
  - unfold module_visit_AnnAssign in Hstep. destruct (target node); try done.
    by injection Hstep as <-.
Qed.

Lemma unnested_same v v' : same_module v v' → unnested_nodes v → unnested_nodes v'.
Proof. intros (_ & _ & _ & Hcn & _) Hv k node. rewrite Hcn. apply Hv. Qed.

Lemma finish_any v cls_decl v' cls :
  consistent v →
  finish cls_decl v = Ret (v', cls) →
  same_module v v'
  ∧ consistent v'
  ∧ _pydantic_classes (visitor v') = <[name cls := cls]> (_pydantic_classes (visitor v))
  ∧ _model_graph (visitor v') = add_node (name cls) (_model_graph (visitor v))
  ∧ _external_models (visitor v') = _external_models (visitor v)
  ∧ warnings v' = warnings v.
Proof.
  intros (Hnd & Hkeys & Hcls & Hpnd & Hpkeys & Hpname).
  unfold finish, _finish_parsing_class.
  destruct (getitem (_class_nodes (visitor v)) (name cls_decl)) as [node|]; [|done]. simpl.
  destruct (parse_class_decl node) as [parsed|] eqn:Hparsed; [|done]. simpl.
  destruct (mapM (resolve_alias (visitor v)) (fields (class_decl parsed))) as [fs|]; [|done].
  simpl. intros [= <- <-]. simpl.
  unfold same_module, consistent. simpl. split_and!; try done.
  - by apply key_add_NoDup.
  - intros k. by rewrite elem_of_key_add, is_Some_lookup_insert, Hpkeys.
  - intros k c. destruct (decide (name (class_decl parsed) = k)) as [<-|Hne].
    + rewrite lookup_insert_eq. by intros [= <-].
    + rewrite lookup_insert_ne by done. apply Hpname.
Qed.

Lemma finish_name v cls_decl v' cls :
  consistent v → unnested_nodes v →
  _classes (visitor v) !! name cls_decl = Some cls_decl →
  finish cls_decl v = Ret (v', cls) →
  name cls = name cls_decl.
Proof.
  intros (Hnd & Hkeys & Hcls & Hpnd & Hpkeys & Hpname) Hun Hc.
  destruct (Hcls _ _ Hc) as (_ & node & Hnode & Hdef).
  unfold finish, _finish_parsing_class, getitem. rewrite Hnode. simpl.
  destruct (parse_class_decl node) as [parsed|] eqn:Hparsed; [|done]. simpl.
  destruct (mapM (resolve_alias (visitor v)) (fields (class_decl parsed))) as [fs|]; [|done].
  simpl. intros [= <- <-]. simpl.
  apply visit_body_from_start in Hparsed as (Hn & _); [|by apply (Hun _ _ Hnode)|done..].
  simpl in Hn. by rewrite Hn.
Qed.

Lemma finish_spec v cls_decl v' cls :
  consistent v → unnested_nodes v →
  _classes (visitor v) !! name cls_decl = Some cls_decl →
  finish cls_decl v = Ret (v', cls) →
  name cls = name cls_decl
  ∧ same_module v v'
  ∧ consistent v'
  ∧ _pydantic_classes (visitor v') = <[name cls_decl := cls]> (_pydantic_classes (visitor v))
  ∧ _model_graph (visitor v') = add_node (name cls_decl) (_model_graph (visitor v))
  ∧ _external_models (visitor v') = _external_models (visitor v)
  ∧ warnings v' = warnings v.
Proof.
  intros Hv Hun Hc Hf. pose proof (finish_name v cls_decl v' cls Hv Hun Hc Hf) as Hname.
  destruct (finish_any v cls_decl v' cls Hv Hf) as (? & ? & ? & ? & ? & ?).
  rewrite <- Hname. done.
Qed.

(** ** Parsing every class of a module *)

Lemma elem_of_dict_values {V} (keys : list string) (d : gmap string V) (x : V) :
  x ∈ dict_values keys d ↔ ∃ k, k ∈ keys ∧ d !! k = Some x.
Proof. unfold dict_values. by rewrite list_elem_of_omap. Qed.

Lemma same_module_refl v : same_module v v.
Proof. by unfold same_module. Qed.

Lemma same_module_trans v1 v2 v3 : same_module v1 v2 → same_module v2 v3 → same_module v1 v3.
Proof.
  unfold same_module. intros (?&?&?&?&?&?&?) (?&?&?&?&?&?&?).
  split_and!; congruence.
Qed.

Lemma parse_all_fold fuel L :
  ∀ v v',
    consistent v →
    foldM (λ v cls_decl,
             is_model ← _is_pydantic_model fuel (visitor v) cls_decl;
             if (is_model : bool) then r ← finish cls_decl v; Ret r.1 else Ret v) v L
    = Ret v' →
    same_module v v' ∧ consistent v'
    ∧ _external_models (visitor v') = _external_models (visitor v)
    ∧ warnings v' = warnings v
    ∧ ∃ ns, _model_graph (visitor v')
            = foldl apply_op (_model_graph (visitor v)) (AddNode <$> ns)
            ∧ ∀ k, is_Some (_pydantic_classes (visitor v') !! k) →
                   is_Some (_pydantic_classes (visitor v) !! k) ∨ k ∈ ns.
Proof.
  induction L as [|c L IH]; intros v v' Hv; simpl.
  - intros [= <-]. split_and!; try done. exists []. split; [done|]. intros k ?. by left.
  - destruct (_is_pydantic_model fuel (visitor v) c) as [[|]|] eqn:Hm; simpl; [| |done].
    + destruct (finish c v) as [[v1 cls]|] eqn:Hf; [|done]. simpl. intros Hrest.
      destruct (finish_any v c v1 cls Hv Hf) as (Hsame & Hv1 & Hp1 & HG1 & He1 & Hw1).
      apply IH in Hrest as (Hsame' & Hv' & He' & Hw' & ns & HG' & Hns); [|done].
      split_and!; try congruence; [by eapply same_module_trans|].
      exists (name cls :: ns). split; [by rewrite HG', HG1|].
      intros k Hk. destruct (Hns k Hk) as [Hk1|Hk1]; [|right; by apply list_elem_of_further].
      rewrite Hp1 in Hk1. apply is_Some_lookup_insert in Hk1 as [->|?];
        [right; apply list_elem_of_here|by left].
    + intros Hrest. by apply IH in Hrest.
Qed.

Lemma parse_all_fold_models fuel L :
  ∀ v v',
    consistent v → unnested_nodes v →
    (∀ c, c ∈ L → _classes (visitor v) !! name c = Some c) →
    foldM (λ v cls_decl,
             is_model ← _is_pydantic_model fuel (visitor v) cls_decl;
             if (is_model : bool) then r ← finish cls_decl v; Ret r.1 else Ret v) v L
    = Ret v' →
    ∀ k, is_Some (_pydantic_classes (visitor v') !! k) ↔
         is_Some (_pydantic_classes (visitor v) !! k)
         ∨ ∃ c, c ∈ L ∧ name c = k
                ∧ _is_pydantic_model fuel (visitor v) c = Ret true.
Proof.
  induction L as [|c L IH]; intros v v' Hv Hun HL; simpl.
  - intros [= <-] k. split; [by left|]. intros [?|(c & Hc%elem_of_nil & _)]; done.
  - destruct (_is_pydantic_model fuel (visitor v) c) as [[|]|] eqn:Hm; simpl; [| |done].
    + destruct (finish c v) as [[v1 cls]|] eqn:Hf; [|done]. simpl. intros Hrest.
      destruct (finish_spec v c v1 cls Hv Hun (HL c (list_elem_of_here _ _)) Hf)
        as (Hname & Hsame & Hv1 & Hp1 & HG1 & He1 & Hw1).
      pose proof Hsame as (_ & _ & Hcls & _ & _ & Himp & _).
      pose proof (IH v1 v' Hv1 (unnested_same _ _ Hsame Hun)) as Hp'.
      intros k. rewrite Hp'; [|by intros c' Hc'; rewrite Hcls; apply HL, list_elem_of_further
                              |done].
      rewrite Hp1, is_Some_lookup_insert.
      setoid_rewrite (is_pydantic_model_frame fuel (visitor v1) (visitor v)); [|done..].
      setoid_rewrite elem_of_cons. split.
      * intros [[->|?]|(c' & Hc' & Hn & Hm')]; [right|by left|right]; eauto 10.
      * intros [?|(c' & [->|Hc'] & Hn & Hm')]; [left; by right|left; by left|right; eauto].
    + intros Hrest k. rewrite (IH v v' Hv Hun); [|by intros c' Hc'; apply HL, list_elem_of_further
                                                   |done].
      setoid_rewrite elem_of_cons. split.
      * intros [?|(c' & Hc' & Hn & Hm')]; [by left|right; eauto].
      * intros [?|(c' & [->|Hc'] & Hn & Hm')]; [by left|congruence|right; eauto].
Qed.

Lemma parse_all_classes_spec fuel v v' :
  consistent v →
  _parse_all_classes fuel v = Ret v' →
  same_module v v' ∧ consistent v'
  ∧ _external_models (visitor v') = _external_models (visitor v)
  ∧ warnings v' = warnings v
  ∧ ∃ ns, _model_graph (visitor v')
          = foldl apply_op (_model_graph (visitor v)) (AddNode <$> ns)
          ∧ ∀ k, is_Some (_pydantic_classes (visitor v') !! k) →
                 is_Some (_pydantic_classes (visitor v) !! k) ∨ k ∈ ns.
Proof. intros Hv Hrun. by apply parse_all_fold in Hrun. Qed.

Lemma parse_all_classes_models fuel v v' :
  consistent v → unnested_nodes v →
  _parse_all_classes fuel v = Ret v' →
  ∀ k, is_Some (_pydantic_classes (visitor v') !! k) ↔
       is_Some (_pydantic_classes (visitor v) !! k)
       ∨ ∃ c, _classes (visitor v) !! k = Some c
              ∧ _is_pydantic_model fuel (visitor v) c = Ret true.
Proof.
  intros Hv Hun Hrun. pose proof Hv as (_ & Hkeys & Hcls & _).
  pose proof (parse_all_fold_models fuel
                (dict_values (_classes_keys v) (_classes (visitor v))) v v' Hv Hun) as Hp.
  intros k. rewrite Hp; [| |exact Hrun].
  2:{ intros c (k' & _ & Hk')%elem_of_dict_values. by destruct (Hcls k' c Hk') as [-> _]. }
  split.
  - intros [?|(c & (k' & _ & Hk')%elem_of_dict_values & Hn & Hm)]; [by left|right].
    destruct (Hcls k' c Hk') as [Hn' _]. exists c. split; [congruence|done].
  - intros [?|(c & Hc & Hm)]; [by left|right]. exists c.
    destruct (Hcls k c Hc) as [Hn _]. split_and!; try done.
    apply elem_of_dict_values. exists k. split; [|done]. apply Hkeys. by eexists.
Qed.

(** ** Recording the dependencies *)

Lemma add_dependency_fold k deps :
  ∀ v,
    let v' := foldl (add_dependency k) v deps in
    same_classes v v'
    ∧ _model_graph (visitor v')
      = foldl apply_op (_model_graph (visitor v)) (AddEdge k <$> deps)
    ∧ (∀ d, d ∈ _external_models (visitor v') ↔
            d ∈ _external_models (visitor v)
            ∨ (d ∈ deps ∧ is_Some (_imports (visitor v) !! d)))
    ∧ ∃ ws, warnings v' = warnings v ++ ws
            ∧ ∀ d k', CantInfer d k' ∈ ws ↔
                k' = k ∧ d ∈ deps ∧ _imports (visitor v) !! d = None
                ∧ _classes (visitor v) !! d = None.
Proof.
  induction deps as [|dep deps IH]; intros v; simpl.
  - split_and!; try done.
    + intros d. rewrite elem_of_nil. tauto.
    + exists []. split; [by rewrite app_nil_r|]. intros d k'.
      rewrite !elem_of_nil. tauto.
  - destruct (IH (add_dependency k v dep)) as ((Hsame & Hp & Hpk) & HG & He & ws & Hw & Hws).
    assert (Hstep : same_classes v (add_dependency k v dep)).
    { unfold add_dependency. repeat case_decide; by unfold same_classes, same_module. }
    destruct Hstep as (Hsame1 & Hp1 & Hpk1).
    pose proof Hsame1 as (_ & _ & Hcls & _ & _ & Himp & _).
    split_and!.
    + split_and!; [by eapply same_module_trans|congruence..].
    + rewrite HG. f_equal. unfold add_dependency. by repeat case_decide.
    + intros d. rewrite He, Himp, elem_of_cons. unfold add_dependency.
      destruct (decide (is_Some (_imports (visitor v) !! dep))) as [Hi|Hi]; simpl.
      * rewrite elem_of_union, elem_of_singleton. naive_solver.
      * case_decide; simpl; naive_solver.
    + unfold add_dependency in Hw, Hws |- *. rewrite Hw.
      destruct (decide (is_Some (_imports (visitor v) !! dep))) as [Hi|Hi]; simpl in *.
      { exists ws. split; [done|]. intros d k'. rewrite Hws, elem_of_cons.
        split; [naive_solver|]. intros (-> & [->|?] & Hn & ?); [|done].
        rewrite Hn in Hi. by destruct Hi. }
      destruct (decide (is_Some (_classes (visitor v) !! dep))) as [Hc|Hc]; simpl in *.
      { exists ws. split; [done|]. intros d k'. rewrite Hws, elem_of_cons.
        split; [naive_solver|]. intros (-> & [->|?] & ? & Hn); [|done].
        rewrite Hn in Hc. by destruct Hc. }
      exists (CantInfer dep k :: ws). split; [by rewrite <- app_assoc|].
      intros d k'. rewrite !elem_of_cons, Hws. split.
      * intros [[= -> ->]|(-> & ? & ? & ?)]; [|by auto].
        split_and!; auto.
        -- by destruct (_imports (visitor v) !! dep); [destruct Hi; eexists|].
        -- by destruct (_classes (visitor v) !! dep); [destruct Hc; eexists|].
      * intros (-> & [->|?] & ? & ?); [by left|right; auto].
Qed.

Lemma add_dependencies_fold ML :
  ∀ v,
    let v' := foldl (λ v cls, foldl (add_dependency (name cls)) v (_class_deps cls)) v ML in
    same_classes v v'
    ∧ _model_graph (visitor v')
      = foldl apply_op (_model_graph (visitor v)) (concat (map dependency_edges ML))
    ∧ (∀ d, d ∈ _external_models (visitor v') ↔
            d ∈ _external_models (visitor v)
            ∨ ∃ c, c ∈ ML ∧ d ∈ _class_deps c ∧ is_Some (_imports (visitor v) !! d))
    ∧ ∃ ws, warnings v' = warnings v ++ ws
            ∧ ∀ d k', CantInfer d k' ∈ ws ↔
                ∃ c, c ∈ ML ∧ name c = k' ∧ d ∈ _class_deps c
                     ∧ _imports (visitor v) !! d = None
                     ∧ _classes (visitor v) !! d = None.
Proof.
  induction ML as [|c ML IH]; intros v; simpl.
  - split_and!.
    + by unfold same_classes, same_module.
    + done.
    + intros d. setoid_rewrite elem_of_nil. naive_solver.
    + exists []. split; [by rewrite app_nil_r|]. intros d k'.
      setoid_rewrite elem_of_nil. naive_solver.
  - destruct (add_dependency_fold (name c) (_class_deps c) v)
      as ((Hsame1 & Hp1 & Hpk1) & HG1 & He1 & ws1 & Hw1 & Hws1).
    set (v1 := foldl (add_dependency (name c)) v (_class_deps c)) in *.
    destruct (IH v1) as ((Hsame & Hp & Hpk) & HG & He & ws & Hw & Hws).
    pose proof Hsame1 as (_ & _ & Hcls & _ & _ & Himp & _).
    split_and!.
    + split_and!; [by eapply same_module_trans|congruence..].
    + rewrite HG, HG1. unfold dependency_edges at 3. by rewrite foldl_app.
    + intros d. rewrite He, He1, Himp. setoid_rewrite elem_of_cons. naive_solver.
    + exists (ws1 ++ ws). split; [by rewrite Hw, Hw1, app_assoc|].
      intros d k'. rewrite elem_of_app, Hws1, Hws, Himp, Hcls.
      setoid_rewrite elem_of_cons. naive_solver.
Qed.

Lemma leave_Module_all_spec fuel G0 v v' :
  collected G0 ∅ v →
  leave_Module fuel v = Ret v' →
  same_module v v' ∧ consistent v'
  ∧ (∃ ns, _model_graph (visitor v')
           = foldl apply_op G0
               ((AddNode <$> ns)
                ++ concat (map dependency_edges
                             (dict_values (_pydantic_keys v') (_pydantic_classes (visitor v'))))))
  ∧ (∀ k, is_Some (_pydantic_classes (visitor v') !! k) → k ∈ nodes (_model_graph (visitor v')))
  ∧ (∀ d, d ∈ _external_models (visitor v') ↔
          ∃ k c, _pydantic_classes (visitor v') !! k = Some c ∧ d ∈ _class_deps c
                 ∧ is_Some (_imports (visitor v) !! d))
  ∧ (∀ d k, CantInfer d k ∈ warnings v' ↔
          ∃ c, _pydantic_classes (visitor v') !! k = Some c ∧ d ∈ _class_deps c
               ∧ _imports (visitor v) !! d = None ∧ _classes (visitor v) !! d = None).
Proof.
  intros (Hv & Hp0 & Hpk0 & He0 & Hw0 & Hpo & ns0 & HG0 & Hns0) Hrun.
  unfold leave_Module in Hrun. rewrite decide_True in Hrun by done.
  destruct (_parse_all_classes fuel v) as [v1|] eqn:Hall; [|done]. simpl in Hrun.
  injection Hrun as <-.
  destruct (parse_all_classes_spec fuel v v1 Hv Hall)
    as (Hsame1 & Hv1 & He1 & Hw1 & ns1 & HG1 & Hns1).
  destruct (add_dependencies_fold
              (dict_values (_pydantic_keys v1) (_pydantic_classes (visitor v1))) v1)
    as ((Hsame2 & Hp2 & Hpk2) & HG2 & He2 & ws & Hw2 & Hws).
  set (v2 := foldl _ v1 _) in *.
  pose proof Hsame1 as (_ & _ & Hcls1 & _ & _ & Himp1 & _).
  pose proof Hv1 as (HA & HB & HC & HD & HE & HF).
  assert (HML : ∀ c, c ∈ dict_values (_pydantic_keys v1) (_pydantic_classes (visitor v1)) ↔
                     ∃ k, _pydantic_classes (visitor v1) !! k = Some c).
  { intros c. rewrite elem_of_dict_values. split; [naive_solver|].
    intros (k & Hk). exists k. split; [|done]. apply HE. by eexists. }
  split_and!.
  - by eapply same_module_trans.
  - pose proof Hsame2 as (?&?&Hc2&Hn2&?&?&Hk2).
    unfold consistent. rewrite Hc2, Hn2, Hk2, Hp2, Hpk2. done.
  - exists (ns0 ++ ns1). rewrite Hp2, Hpk2, HG2, HG1, HG0.
    by rewrite fmap_app, !foldl_app.
  - intros k [c Hk]. rewrite Hp2 in Hk. rewrite HG2, HG1.
    apply nodes_foldl; left. apply nodes_foldl. right. left.
    apply list_elem_of_fmap_2.
    destruct (Hns1 k (ex_intro _ c Hk)) as [[? H]|?]; [by rewrite Hp0, lookup_empty in H|done].
  - intros d. rewrite He2, He1, He0, Himp1, Hp2. setoid_rewrite HML.
    rewrite elem_of_empty. naive_solver.
  - intros d k. rewrite Hw2, Hw1, Hw0. simpl. rewrite Hws, Himp1, Hcls1, Hp2.
    setoid_rewrite HML. split.
    + intros (c & (k' & Hk') & Hn & ?). exists c. split; [|done].
      rewrite <- Hn. by rewrite (HF k' c Hk').
    + intros (c & Hk & ?). exists c. split; [by exists k|]. split; [by eapply HF|done].
Qed.

Lemma leave_Module_all_models fuel G0 v v' :
  collected G0 ∅ v → unnested_nodes v →
  leave_Module fuel v = Ret v' →
  ∀ k, is_Some (_pydantic_classes (visitor v') !! k) ↔
       ∃ c, _classes (visitor v) !! k = Some c
            ∧ _is_pydantic_model fuel (visitor v) c = Ret true.
Proof.
  intros (Hv & Hp0 & _ & _ & _ & Hpo & _) Hun Hrun.
  unfold leave_Module in Hrun. rewrite decide_True in Hrun by done.
  destruct (_parse_all_classes fuel v) as [v1|] eqn:Hall; [|done]. simpl in Hrun.
  injection Hrun as <-.
  pose proof (parse_all_classes_models fuel v v1 Hv Hun Hall) as Hp1.
  destruct (add_dependencies_fold
              (dict_values (_pydantic_keys v1) (_pydantic_classes (visitor v1))) v1)
    as ((_ & Hp2 & _) & _).
  intros k. rewrite Hp2, Hp1, Hp0, lookup_empty. split; [|by right].
  intros [[? ?]|?]; done.
Qed.

Lemma visit_module_all_spec fuel pkg ops0 events v' :
  visit_module fuel events (init_visitor pkg (build ops0) ∅) = Ret v' →
  consistent v'
  ∧ (∃ ns, _model_graph (visitor v')
           = foldl apply_op (build ops0)
               ((AddNode <$> ns)
                ++ concat (map dependency_edges
                             (dict_values (_pydantic_keys v') (_pydantic_classes (visitor v'))))))
  ∧ (∀ k, is_Some (_pydantic_classes (visitor v') !! k) → k ∈ nodes (_model_graph (visitor v')))
  ∧ (∀ d, d ∈ _external_models (visitor v') ↔
          ∃ k c, _pydantic_classes (visitor v') !! k = Some c ∧ d ∈ _class_deps c
                 ∧ is_Some (_imports (visitor v') !! d))
  ∧ (∀ d k, CantInfer d k ∈ warnings v' ↔
          ∃ c, _pydantic_classes (visitor v') !! k = Some c ∧ d ∈ _class_deps c
               ∧ _imports (visitor v') !! d = None ∧ _classes (visitor v') !! d = None).
Proof.
  unfold visit_module. intros Hrun.
  destruct (foldM handle (init_visitor pkg (build ops0) ∅) events) as [v|] eqn:Hwalk; [|done].
  simpl in Hrun.
  pose proof (collected_walk _ _ _ _ _ (collected_init pkg (build ops0) ∅) Hwalk) as Hv.
  destruct (leave_Module_all_spec fuel _ v v' Hv Hrun)
    as (Hsame & Hv' & HG & Hn & He & Hw).
  pose proof Hsame as (_ & _ & Hcls & _ & _ & Himp & _).
  rewrite Hcls, Himp.
  by split_and!.
Qed.

Lemma visit_module_all_models fuel pkg ops0 events v' :
  unnested_events events = true →
  visit_module fuel events (init_visitor pkg (build ops0) ∅) = Ret v' →
  ∀ k, is_Some (_pydantic_classes (visitor v') !! k) ↔
       ∃ c, _classes (visitor v') !! k = Some c
            ∧ _is_pydantic_model fuel (visitor v') c = Ret true.
Proof.
  unfold visit_module. intros Hev Hrun.
  destruct (foldM handle (init_visitor pkg (build ops0) ∅) events) as [v|] eqn:Hwalk; [|done].
  simpl in Hrun.
  pose proof (collected_walk _ _ _ _ _ (collected_init pkg (build ops0) ∅) Hwalk) as Hv.
  pose proof (unnested_walk _ _ _ Hev (unnested_init pkg (build ops0) ∅) Hwalk) as Hun.
  destruct (leave_Module_all_spec fuel _ v v' Hv Hrun) as (Hsame & _).
  pose proof Hsame as (_ & _ & Hcls & _ & _ & Himp & _).
  intros k. rewrite (leave_Module_all_models fuel _ v v' Hv Hun Hrun), Hcls.
  by setoid_rewrite (is_pydantic_model_frame fuel (visitor v') (visitor v)).
Qed.

Lemma visit_module_dict_values v c :
  consistent v →
  c ∈ dict_values (_pydantic_keys v) (_pydantic_classes (visitor v)) ↔
  _pydantic_classes (visitor v) !! name c = Some c.
Proof.
  intros (_ & _ & _ & _ & HE & HF). rewrite elem_of_dict_values. split.
  - intros (k & _ & Hk). by rewrite (HF k c Hk).
  - intros Hc. exists (name c). split; [|done]. apply HE. by eexists.
Qed.

Lemma elem_of_concat_map_ops {A} (f : A → list graph_op) (l : list A) (op : graph_op) :
  op ∈ concat (map f l) ↔ ∃ x, x ∈ l ∧ op ∈ f x.
Proof.
  induction l as [|x l IH]; simpl.
  - rewrite elem_of_nil. split; [done|]. intros (x & Hx & _). by apply elem_of_nil in Hx.
  - rewrite elem_of_app, IH. setoid_rewrite elem_of_cons. naive_solver.
Qed.

Lemma visit_module_well_formed fuel pkg ops0 events v' :
  visit_module fuel events (init_visitor pkg (build ops0) ∅) = Ret v' →
  well_formed (_model_graph (visitor v')).
Proof.
  intros H. apply visit_module_all_spec in H as (_ & (ns & ->) & _).
  apply well_formed_foldl, well_formed_build.
Qed.

(** X10.  After the visit of a root module (no restriction to named
    models, a fresh visitor) in which no class definition has a class
    definition nested in it, the extracted models are exactly the classes
    of the module that the classifier accepts. *)
Theorem extracted_models_are_classified
    (fuel : nat) (pkg : option string) (ops0 : list graph_op)
    (events : list visit_event) (v' : Visitor) (k : string) :
  unnested_events events = true →
  visit_module fuel events (init_visitor pkg (build ops0) ∅) = Ret v' →
  is_Some (_pydantic_classes (visitor v') !! k) ↔
  ∃ c, _classes (visitor v') !! k = Some c
       ∧ _is_pydantic_model fuel (visitor v') c = Ret true.
Proof. intros Hev H. by apply (visit_module_all_models fuel pkg ops0 events). Qed.

(** Without the condition on nested classes the model [M] of
    [nested_events] is stored under the name of its nested class, with the
    field of [M], and no model is stored under [M]. *)
Lemma nested_model_stored_under_nested_name :
  ∃ v, visit_module 100 nested_events (init_visitor None (build []) ∅) = Ret v
       ∧ _pydantic_keys v = ["Config"]
       ∧ _pydantic_classes (visitor v) !! "M" = None
       ∧ _pydantic_classes (visitor v) !! "Config"
         = Some (mkClassDecl "Config" []
                   [mkClassField "x" (PrimitiveType "int") None None] None).
Proof. eexists. split; [vm_compute; reflexivity|]. split_and!; vm_compute; reflexivity. Qed.

Lemma visit_module_edges fuel pkg ops0 events v' :
  visit_module fuel events (init_visitor pkg (build ops0) ∅) = Ret v' →
  ∀ x y, edge (_model_graph (visitor v')) x y ↔
         edge (build ops0) x y
         ∨ ∃ c, _pydantic_classes (visitor v') !! x = Some c ∧ y ∈ _class_deps c.
Proof.
  intros H. apply visit_module_all_spec in H as (Hv & (ns & HG) & Hn & _).
  intros x y. rewrite HG, edge_foldl by apply well_formed_build.
  rewrite elem_of_app. split.
  - intros [?|[(n & [=] & _)%list_elem_of_fmap|Hin]]; [by left|right].
    apply elem_of_concat_map_ops in Hin as (c & Hc & Hin).
    apply list_elem_of_fmap in Hin as (d & [= -> ->] & Hd).
    exists c. split; [by apply visit_module_dict_values|done].
  - intros [?|(c & Hc & Hd)]; [by left|right; right].
    pose proof Hv as (_ & _ & _ & _ & _ & HF). pose proof (HF x c Hc) as Hname.
    apply elem_of_concat_map_ops. exists c. split.
    + apply (visit_module_dict_values v' c Hv). by rewrite Hname.
    + unfold dependency_edges. rewrite Hname. by apply list_elem_of_fmap_2.
Qed.

(** X11.  After the visit of a root module, the graph has the edges it
    had before and one edge from each extracted model to each of its
    dependencies, and no other; every extracted model is a node. *)
Theorem dependencies_are_edges
    (fuel : nat) (pkg : option string) (ops0 : list graph_op)
    (events : list visit_event) (v' : Visitor) :
  visit_module fuel events (init_visitor pkg (build ops0) ∅) = Ret v' →
  (∀ x y, edge (_model_graph (visitor v')) x y ↔
          edge (build ops0) x y
          ∨ ∃ c, _pydantic_classes (visitor v') !! x = Some c ∧ y ∈ _class_deps c)
  ∧ ∀ k, is_Some (_pydantic_classes (visitor v') !! k) → k ∈ nodes (_model_graph (visitor v')).
Proof.
  intros H. split; [by apply (visit_module_edges fuel pkg ops0 events)|].
  by apply visit_module_all_spec in H as (_ & _ & Hn & _).
Qed.

(** X12.  After the visit of a root module, the external models are the
    dependencies of extracted models that have an entry in the import
    table; a warning is logged for a dependency exactly when it has no
    entry there and is not a class of the module. *)
Theorem externals_and_warnings
    (fuel : nat) (pkg : option string) (ops0 : list graph_op)
    (events : list visit_event) (v' : Visitor) :
  visit_module fuel events (init_visitor pkg (build ops0) ∅) = Ret v' →
  (∀ d, d ∈ _external_models (visitor v') ↔
        ∃ k c, _pydantic_classes (visitor v') !! k = Some c ∧ d ∈ _class_deps c
               ∧ is_Some (_imports (visitor v') !! d))
  ∧ (∀ d k, CantInfer d k ∈ warnings v' ↔
        ∃ c, _pydantic_classes (visitor v') !! k = Some c ∧ d ∈ _class_deps c
             ∧ _imports (visitor v') !! d = None ∧ _classes (visitor v') !! d = None).
Proof. intros H. by apply visit_module_all_spec in H as (_ & _ & _ & He & Hw). Qed.

Lemma lookup_names (m : gmap string ClassDecl) (l : list string) :
  (∀ k c, m !! k = Some c → name c = k) →
  name <$> omap (λ c, m !! c) l = filter (λ c, is_Some (m !! c)) l.
Proof.
  intros Hm. induction l as [|c l IH]; [done|].
  csimpl. destruct (m !! c) as [d|] eqn:Hc.
  - rewrite filter_cons_True by (rewrite Hc; by eexists).
    csimpl. rewrite IH. f_equal. by eapply Hm.
  - rewrite filter_cons_False by (rewrite Hc; by intros [? ?]). exact IH.
Qed.

Lemma classes_names_spec v' :
  consistent v' → well_formed (_model_graph (visitor v')) → extracted_are_nodes v' →
  NoDup (name <$> classes v')
  ∧ ∀ k, k ∈ name <$> classes v' ↔ is_Some (_pydantic_classes (visitor v') !! k).
Proof.
  intros Hv Hwf Hn.
  pose proof Hv as (_ & _ & _ & _ & _ & HF).
  destruct (dfs_postorder_nodes_spec _ Hwf) as (Hnd & Hnodes & _).
  unfold classes. rewrite lookup_names by done. split.
  - by apply NoDup_filter.
  - intros k. rewrite list_elem_of_filter, Hnodes. split; [tauto|]. auto.
Qed.

Lemma classes_order_spec v' :
  consistent v' → well_formed (_model_graph (visitor v')) → extracted_are_nodes v' →
  (∀ x c y, _pydantic_classes (visitor v') !! x = Some c → y ∈ _class_deps c →
            edge (_model_graph (visitor v')) x y) →
  acyclic (_model_graph (visitor v')) →
  ∀ X Y cX i j,
    _pydantic_classes (visitor v') !! X = Some cX → Y ∈ _class_deps cX →
    index_of X (name <$> classes v') = Some i →
    index_of Y (name <$> classes v') = Some j → j < i.
Proof.
  intros Hv Hwf Hn Hedge Hacyclic X Y cX i j HX HY.
  pose proof Hv as (_ & _ & _ & _ & _ & HF).
  destruct (dfs_postorder_nodes_spec _ Hwf) as (Hnd & Hnodes & _).
  unfold classes. rewrite lookup_names by done. intros Hi Hj.
  eapply (before_index _ Y X i j); [|..|exact Hi|exact Hj]; [by apply NoDup_filter|].
  apply index_of_Some in Hj as [[HYs _]%list_elem_of_filter _].
  apply before_filter; [|done|by eexists].
  apply dfs_postorder_nodes_acyclic; [done|done|apply Hn; by eexists|by eapply Hedge].
Qed.

(** X13.  After the visit of a root module, [classes] lists every
    extracted model exactly once and nothing else, whether the graph has
    cycles or not; and when the graph is acyclic every model comes after
    the extracted models among its dependencies. *)
Theorem classes_dependencies_first
    (fuel : nat) (pkg : option string) (ops0 : list graph_op)
    (events : list visit_event) (v' : Visitor) :
  visit_module fuel events (init_visitor pkg (build ops0) ∅) = Ret v' →
  let O := name <$> classes v' in
  NoDup O
  ∧ (∀ k, k ∈ O ↔ is_Some (_pydantic_classes (visitor v') !! k))
  ∧ (acyclic (_model_graph (visitor v')) →
     ∀ X Y cX i j,
       _pydantic_classes (visitor v') !! X = Some cX → Y ∈ _class_deps cX →
       index_of X O = Some i → index_of Y O = Some j → j < i).
Proof.
  intros H.
  pose proof (visit_module_well_formed fuel pkg ops0 events v' H) as Hwf.
  pose proof (visit_module_edges fuel pkg ops0 events v' H) as Hedge.
  apply visit_module_all_spec in H as (Hv & _ & Hn & _).
  destruct (classes_names_spec v' Hv Hwf Hn) as [Hnd Hall].
  split_and!; [done..|]. intros Hacyclic.
  apply classes_order_spec; [done..| |done].
  intros x c y Hx Hy. apply Hedge. right. eauto.
Qed.

Lemma extracted_models_are_classified_witness :
  is_Some (_pydantic_classes (visitor order_visitor) !! "Order")
  ∧ is_Some (_pydantic_classes (visitor order_visitor) !! "Item").
Proof.
  assert (Hrun : visit_module 100 order_events (init_visitor (Some "shop") (build []) ∅)
                 = Ret order_visitor) by (vm_compute; reflexivity).
  split.
  - apply (extracted_models_are_classified 100 (Some "shop") [] order_events order_visitor
             "Order" eq_refl Hrun).
    exists (skeleton "Order" ["BaseModel"]). split; vm_compute; reflexivity.
  - apply (extracted_models_are_classified 100 (Some "shop") [] order_events order_visitor
             "Item" eq_refl Hrun).
    exists (skeleton "Item" ["BaseModel"]). split; vm_compute; reflexivity.
Defined.

Lemma dependencies_are_edges_witness :
  edge (_model_graph (visitor order_visitor)) "Order" "Item"
  ∧ edge (_model_graph (visitor order_visitor)) "Order" "Coupon".
Proof.
  destruct (dependencies_are_edges 100 (Some "shop") [] order_events order_visitor)
    as [H _]; [vm_compute; reflexivity|].
  split; apply H; right; (eexists; split; [vm_compute; reflexivity|]);
    vm_compute; repeat constructor.
Defined.

Lemma externals_and_warnings_witness :
  "Customer" ∈ _external_models (visitor order_visitor)
  ∧ CantInfer "Coupon" "Order" ∈ warnings order_visitor.
Proof.
  destruct (externals_and_warnings 100 (Some "shop") [] order_events order_visitor)
    as [He Hw]; [vm_compute; reflexivity|].
  split.
  - apply He. exists "Order". eexists. split; [vm_compute; reflexivity|].
    split; [vm_compute; repeat constructor|]. eexists. vm_compute. reflexivity.
  - apply Hw. eexists. split; [vm_compute; reflexivity|].
    split; [vm_compute; repeat constructor|]. split; vm_compute; reflexivity.
Defined.

Lemma classes_dependencies_first_witness :
  name <$> classes order_visitor = ["Item"; "Order"]
  ∧ NoDup (name <$> classes order_visitor)
  ∧ ∀ X Y cX i j,
      _pydantic_classes (visitor order_visitor) !! X = Some cX → Y ∈ _class_deps cX →
      index_of X (name <$> classes order_visitor) = Some i →
      index_of Y (name <$> classes order_visitor) = Some j → j < i.
Proof.
  split; [vm_compute; reflexivity|].
  destruct (classes_dependencies_first 100 (Some "shop") [] order_events order_visitor)
    as (Hnd & _ & Hord); [vm_compute; reflexivity|].
  split; [exact Hnd|]. apply Hord.
  apply (ranked_acyclic _ order_rank);
    [apply (visit_module_well_formed 100 (Some "shop") [] order_events order_visitor);
     vm_compute; reflexivity|vm_compute; reflexivity].
Defined.

(** ** Parsing one model and what it depends on *)

Lemma is_pydantic_model_mono f1 self :
  ∀ c b f2, _is_pydantic_model f1 self c = Ret b → (f1 ≤ f2)%nat →
            _is_pydantic_model f2 self c = Ret b.
Proof.
  induction f1 as [|f1 IH]; intros c b f2; [done|].
  destruct f2 as [|f2]; [lia|]. intros H Hle. simpl in *.
  destruct (if decide ("BaseModel" ∈ base_classes c)
            then from_ ← getitem (_imports self) "BaseModel"; Ret (bool_decide (from_ = "pydantic"))
            else Ret false) as [[|]|]; simpl in *; try done.
  induction (base_classes c) as [|b0 bs IHbs]; [done|].
  destruct (_classes self !! b0); [apply IH; [done|lia]|by apply IHbs].
Qed.

Lemma is_pydantic_model_agree f1 f2 self c b1 b2 :
  _is_pydantic_model f1 self c = Ret b1 → _is_pydantic_model f2 self c = Ret b2 → b1 = b2.
Proof.
  intros H1 H2.
  apply (is_pydantic_model_mono _ _ _ _ (f1 `max` f2)) in H1; [|lia].
  apply (is_pydantic_model_mono _ _ _ _ (f1 `max` f2)) in H2; [|lia].
  congruence.
Qed.

Lemma is_model_frame s1 s2 c :
  _imports s1 = _imports s2 → _classes s1 = _classes s2 → is_model s1 c ↔ is_model s2 c.
Proof.
  intros Hi Hc. unfold is_model.
  by setoid_rewrite (is_pydantic_model_frame _ s1 s2 c Hi Hc).
Qed.

Lemma mapM_ext {A B} (f g : A → res B) l : (∀ x, f x = g x) → mapM f l = mapM g l.
Proof. intros Hfg. induction l as [|x l IH]; [done|]. simpl. by rewrite Hfg, IH. Qed.

Lemma resolve_alias_frame s1 s2 f :
  _alias_nodes s1 = _alias_nodes s2 → resolve_alias s1 f = resolve_alias s2 f.
Proof. intros Ha. unfold resolve_alias. by rewrite Ha. Qed.

Lemma finished_frame s1 s2 k c :
  _class_nodes s1 = _class_nodes s2 → _alias_nodes s1 = _alias_nodes s2 →
  finished s1 k c → finished s2 k c.
Proof.
  intros Hn Ha (d & s1' & Hd & Hf). exists d. unfold _finish_parsing_class in *.
  rewrite <- Hn. destruct (getitem (_class_nodes s1) (name d)) as [node|]; [|done].
  simpl in *. destruct (parse_class_decl node) as [parsed|]; [|done]. simpl in *.
  rewrite <- (mapM_ext _ _ _ (λ f, resolve_alias_frame s1 s2 f Ha)).
  destruct (mapM (resolve_alias s1) (fields (class_decl parsed))) as [fs|]; [|done].
  simpl in *. injection Hf as _ <-. by eexists.
Qed.

Lemma finish_finished cls v v1 c1 :
  finish cls v = Ret (v1, c1) → finished (visitor v) (name cls) c1.
Proof.
  unfold finish. intros Hf. exists cls.
  destruct (_finish_parsing_class (visitor v) cls) as [[s1 c]|]; [|done].
  simpl in Hf. injection Hf as _ <-. by exists s1.
Qed.

Lemma grows_by_refl k w : grows_by k [] w w.
Proof.
  split.
  - apply same_module_refl.
  - done.
  - done.
  - done.
  - intros _ x y. split; [by left|].
    intros [?|[[_ ?%elem_of_nil]|(c & [? ?] & _)]]; [done|done|congruence].
  - intros x c [? ?]. congruence.
  - intros d cd [?%elem_of_nil|(x & c & [? ?] & _)]; [done|congruence].
  - intros d. split; [by left|].
    intros [?|[_ [?%elem_of_nil|(x & c & [? ?] & _)]]]; [done|done|congruence].
  - exists []. split; [by rewrite app_nil_r|]. intros d x. rewrite elem_of_nil.
    split; [done|]. intros (_ & _ & [[_ ?%elem_of_nil]|(c & [? ?] & _)]); [done|congruence].
  - intros x [?|(c & [? ?])]; [done|congruence].
  - intros x c [? ?]. congruence.
Qed.

Lemma extracted_since_trans w w1 w2 x c :
  (∀ x c, _pydantic_classes (visitor w) !! x = Some c →
          _pydantic_classes (visitor w1) !! x = Some c) →
  (∀ x c, _pydantic_classes (visitor w1) !! x = Some c →
          _pydantic_classes (visitor w2) !! x = Some c) →
  extracted_since w w2 x c ↔ extracted_since w w1 x c ∨ extracted_since w1 w2 x c.
Proof.
  intros H1 H2. unfold extracted_since. split.
  - intros [Hc Hn]. destruct (_pydantic_classes (visitor w1) !! x) as [c1|] eqn:Hx; [|by right].
    left. split; [|done]. apply H2 in Hx. congruence.
  - intros [[Hc Hn]|[Hc Hn]]; [by split; [apply H2|]|].
    split; [done|]. destruct (_pydantic_classes (visitor w) !! x) as [c0|] eqn:Hx; [|done].
    apply H1 in Hx. congruence.
Qed.

Lemma ex_or_distr {A} (S1 S2 R : A → Prop) :
  (∃ c, (S1 c ∨ S2 c) ∧ R c) ↔ (∃ c, S1 c ∧ R c) ∨ (∃ c, S2 c ∧ R c).
Proof. naive_solver. Qed.

Lemma ex2_or_distr {A B} (S1 S2 : A → B → Prop) (R : B → Prop) :
  (∃ x c, (S1 x c ∨ S2 x c) ∧ R c) ↔ (∃ x c, S1 x c ∧ R c) ∨ (∃ x c, S2 x c ∧ R c).
Proof. naive_solver. Qed.

Lemma grows_by_trans k ds1 ds2 w w1 w2 :
  grows_by k ds1 w w1 → grows_by k ds2 w1 w2 → grows_by k (ds1 ++ ds2) w w2.
Proof.
  intros [Hs1 Hc1 Hw1 Hk1 He1 Hn1 Hcl1 Hx1 (ws1 & Hws1 & Hwi1) Hnod1 Hfin1]
         [Hs2 Hc2 Hw2 Hk2 He2 Hn2 Hcl2 Hx2 (ws2 & Hws2 & Hwi2) Hnod2 Hfin2].
  pose proof Hs1 as (_ & _ & Hcls & Hcn & Han & Himp & _).
  pose proof (λ x c, extracted_since_trans w w1 w2 x c Hk1 Hk2) as Hsince.
  assert (Hmodel : ∀ c, is_model (visitor w1) c ↔ is_model (visitor w) c)
    by (intros c; by apply is_model_frame).
  rewrite Himp, Hcls in *. setoid_rewrite Hmodel in Hn2. setoid_rewrite Hmodel in Hcl2.
  split.
  - by eapply same_module_trans.
  - auto.
  - auto.
  - auto.
  - intros Hwf x y. rewrite He2, He1 by auto. setoid_rewrite Hsince.
    rewrite ex_or_distr, elem_of_app. tauto.
  - intros x c Hx. apply Hsince in Hx as [?|?]; eauto.
  - intros d cd Hd Hi Hc Hm.
    assert (Hcase : (d ∈ ds1 ∨ ∃ x c, extracted_since w w1 x c ∧ d ∈ _class_deps c)
                    ∨ (d ∈ ds2 ∨ ∃ x c, extracted_since w1 w2 x c ∧ d ∈ _class_deps c)).
    { destruct Hd as [[?|?]%elem_of_app|(x & c & Hx & ?)]; [by left; left|by right; left|].
      apply Hsince in Hx as [?|?]; [left|right]; right; eauto. }
    destruct Hcase as [H|H].
    + destruct (Hcl1 d cd H Hi Hc Hm) as [c' Hc']. exists c'. by apply Hk2.
    + by eapply Hcl2.
  - intros d. rewrite Hx2, Hx1. setoid_rewrite Hsince.
    rewrite ex2_or_distr, elem_of_app. tauto.
  - exists (ws1 ++ ws2). split; [by rewrite Hws2, Hws1, app_assoc|].
    intros d x. rewrite elem_of_app, Hwi1, Hwi2. setoid_rewrite Hsince.
    rewrite ex_or_distr, elem_of_app. tauto.
  - intros x [Hx|(c & Hx)]; [apply Hnod2; left; apply Hnod1; by left|].
    apply Hsince in Hx as [?|?]; apply Hnod2; [left; apply Hnod1|]; right; eauto.
  - intros x c Hx. apply Hsince in Hx as [?|?]; [by apply Hfin1|].
    apply (finished_frame (visitor w1) (visitor w)); [done..|]. by apply Hfin2.
Qed.

Lemma consistent_same w w' :
  same_module w w' →
  _pydantic_classes (visitor w') = _pydantic_classes (visitor w) →
  _pydantic_keys w' = _pydantic_keys w →
  consistent w → consistent w'.
Proof.
  intros (_ & _ & Hc & Hn & _ & _ & Hk) Hp Hpk. unfold consistent.
  by rewrite Hc, Hn, Hk, Hp, Hpk.
Qed.

Lemma grows_by_step k d w wX w' k0 :
  same_module w wX →
  _pydantic_classes (visitor wX) = _pydantic_classes (visitor w) →
  _pydantic_keys wX = _pydantic_keys w →
  _model_graph (visitor wX) = add_edge k d (_model_graph (visitor w)) →
  (∀ d', d' ∈ _external_models (visitor wX) ↔
         d' ∈ _external_models (visitor w) ∨ (d' = d ∧ is_Some (_imports (visitor w) !! d))) →
  (∃ ws0, warnings wX = warnings w ++ ws0
          ∧ ∀ d' x, CantInfer d' x ∈ ws0 ↔
              d' = d ∧ x = k ∧ _imports (visitor w) !! d = None
              ∧ _classes (visitor w) !! d = None) →
  grows_by k0 [] wX w' →
  (∀ cd, _imports (visitor w) !! d = None → _classes (visitor w) !! d = Some cd →
         is_model (visitor w) cd → is_Some (_pydantic_classes (visitor w') !! d)) →
  grows_by k [d] w w'.
Proof.
  intros HsX HpX HkX HGX HeX (ws0 & Hw0 & Hwi0)
         [Hs Hc Hw Hk He Hn Hcl Hx (ws & Hws & Hwi) Hnod Hfin] Hd.
  pose proof HsX as (_ & _ & Hcls & Hcn & Han & Himp & _).
  assert (Hmodel : ∀ c, is_model (visitor wX) c ↔ is_model (visitor w) c)
    by (intros c; by apply is_model_frame).
  assert (Hsince : ∀ x c, extracted_since wX w' x c ↔ extracted_since w w' x c)
    by (intros x c; unfold extracted_since; by rewrite HpX).
  rewrite Himp, Hcls, HpX, HGX in *.
  setoid_rewrite Hmodel in Hn. setoid_rewrite Hmodel in Hcl.
  setoid_rewrite Hsince in He. setoid_rewrite Hsince in Hn. setoid_rewrite Hsince in Hcl.
  setoid_rewrite Hsince in Hx. setoid_rewrite Hsince in Hwi.
  setoid_rewrite Hsince in Hnod. setoid_rewrite Hsince in Hfin.
  split.
  - by eapply same_module_trans.
  - intros Hcw. apply Hc. by eapply consistent_same.
  - intros Hwf. by apply Hw, well_formed_add_edge.
  - done.
  - intros Hwf x y. rewrite He by by apply well_formed_add_edge.
    rewrite edge_add_edge by done. rewrite list_elem_of_singleton, elem_of_nil. tauto.
  - done.
  - intros d' cd [->%list_elem_of_singleton|Hex] Hi Hcd Hm; [by eapply Hd|].
    eapply Hcl; eauto.
  - intros d'. rewrite Hx, HeX. rewrite list_elem_of_singleton, elem_of_nil.
    split; [|intros [?|[? [->|?]]]; tauto].
    intros [[?|[-> ?]]|[? [[]|?]]]; tauto.
  - exists (ws0 ++ ws). split; [by rewrite Hws, Hw0, app_assoc|].
    intros d' x. rewrite elem_of_app, Hwi0, Hwi, list_elem_of_singleton, elem_of_nil.
    split; [|intros (? & ? & [[-> ->]|?]); tauto].
    intros [(-> & -> & ? & ?)|(? & ? & [[_ []]|?])]; tauto.
  - intros x [Hx0|Hx0]; apply Hnod; [left; rewrite nodes_add_edge; auto|by right].
  - intros x c Hx0. apply (finished_frame (visitor wX) (visitor w)); [done..|].
    by apply Hfin.
Qed.

Lemma process_dependency_spec parse_model k d w w' :
  (∀ cls v v',
      consistent v → unnested_nodes v → well_formed (_model_graph (visitor v)) →
      _classes (visitor v) !! name cls = Some cls →
      parse_model cls v = Ret v' →
      (∀ k0, grows_by k0 [] v v')
      ∧ (is_model (visitor v) cls → is_Some (_pydantic_classes (visitor v') !! name cls))) →
  consistent w → unnested_nodes w → well_formed (_model_graph (visitor w)) →
  process_dependency parse_model k w d = Ret w' →
  grows_by k [d] w w'.
Proof.
  intros IH Hcw Hun Hwf. unfold process_dependency.
  destruct (decide (is_Some (_imports (visitor w) !! d))) as [Hi|Hi].
  - intros [= Hw'].
    eapply (grows_by_step k d w w' w' k); subst w';
      [by unfold same_module|done|done|done| | |apply grows_by_refl|].
    + intros d'. simpl. rewrite elem_of_union, elem_of_singleton. tauto.
    + exists []. split; [by rewrite app_nil_r|]. intros d' x. rewrite elem_of_nil.
      split; [done|]. intros (_ & _ & Hn & _). rewrite Hn in Hi. by destruct Hi.
    + intros cd Hn. rewrite Hn in Hi. by destruct Hi.
  - assert (Hin : _imports (visitor w) !! d = None)
      by (destruct (_imports (visitor w) !! d); [destruct Hi; by eexists|done]).
    destruct (_classes (visitor w) !! d) as [cd|] eqn:Hcd.
    + set (wG := mkVisitor _ _ _ _). intros Hrec.
      pose proof Hcw as (_ & _ & Hnames & _). destruct (Hnames d cd Hcd) as [Hname _].
      apply IH in Hrec as [Hg Hm].
      * eapply (grows_by_step k d w wG w' k);
          [by unfold same_module|done|done|done| | |apply Hg|].
        -- intros d'. simpl. split; [by left|]. intros [?|[-> ?]]; [done|]. by destruct Hi.
        -- exists []. split; [by rewrite app_nil_r|]. intros d' x. rewrite elem_of_nil.
           split; [done|]. intros (_ & _ & _ & Hn). congruence.
        -- intros cd' _ Heq Hmodel. assert (cd' = cd) as -> by congruence.
           rewrite <- Hname. apply Hm.
           by apply (is_model_frame (visitor wG) (visitor w) cd).
      * by eapply consistent_same; [| | |exact Hcw].
      * intros k1 node1. apply Hun.
      * by apply well_formed_add_edge.
      * simpl. by rewrite Hname.
    + intros [= Hw'].
      eapply (grows_by_step k d w w' w' k); subst w';
        [by unfold same_module|done|done|done| | |apply grows_by_refl|].
      * intros d'. simpl. split; [by left|]. intros [?|[-> ?]]; [done|]. by destruct Hi.
      * exists [CantInfer d k]. split; [done|]. intros d' x.
        rewrite list_elem_of_singleton. split; [by intros [= -> ->]|by intros (-> & -> & _)].
      * intros cd _ Hn. congruence.
Qed.

Lemma process_dependencies_spec parse_model k ds :
  (∀ cls v v',
      consistent v → unnested_nodes v → well_formed (_model_graph (visitor v)) →
      _classes (visitor v) !! name cls = Some cls →
      parse_model cls v = Ret v' →
      (∀ k0, grows_by k0 [] v v')
      ∧ (is_model (visitor v) cls → is_Some (_pydantic_classes (visitor v') !! name cls))) →
  ∀ w w',
    consistent w → unnested_nodes w → well_formed (_model_graph (visitor w)) →
    foldM (process_dependency parse_model k) w ds = Ret w' →
    grows_by k ds w w'.
Proof.
  intros IH. induction ds as [|d ds IHds]; intros w w' Hcw Hun Hwf; simpl.
  - intros [= <-]. apply grows_by_refl.
  - destruct (process_dependency parse_model k w d) as [w1|] eqn:Hstep; [|done]. simpl.
    intros Hrest. pose proof (process_dependency_spec _ _ _ _ _ IH Hcw Hun Hwf Hstep) as Hg1.
    apply (grows_by_trans k [d] ds w w1 w'); [done|].
    apply IHds; [by apply (gb_consistent _ _ _ _ Hg1)
                |by apply (unnested_same _ _ (gb_same _ _ _ _ Hg1))
                |by apply (gb_wf _ _ _ _ Hg1)|done].
Qed.

Lemma ex_eq_and {A B} (x k : A) (c1 : B) (R : B → Prop) :
  (∃ c, (x = k ∧ c = c1) ∧ R c) ↔ x = k ∧ R c1.
Proof. naive_solver. Qed.

Lemma ex2_eq_and {A B} (k : A) (c1 : B) (R : B → Prop) :
  (∃ x c, (x = k ∧ c = c1) ∧ R c) ↔ R c1.
Proof. naive_solver. Qed.

Lemma grows_finish k0 cls v v1 c1 v' :
  consistent v → unnested_nodes v → well_formed (_model_graph (visitor v)) →
  _classes (visitor v) !! name cls = Some cls →
  is_model (visitor v) cls →
  _pydantic_classes (visitor v) !! name cls = None →
  finish cls v = Ret (v1, c1) →
  grows_by (name cls) (_class_deps c1) v1 v' →
  grows_by k0 [] v v' ∧ is_Some (_pydantic_classes (visitor v') !! name cls).
Proof.
  intros Hcv Hun Hwf Hcls Hmodel Hnone Hf
         [Hs Hc Hw Hk He Hn Hcl Hx (ws & Hws & Hwi) Hnod Hfin].
  destruct (finish_spec v cls v1 c1 Hcv Hun Hcls Hf)
    as (Hname & Hs1 & Hcv1 & Hp1 & HG1 & He1 & Hw1).
  pose proof Hs1 as (_ & _ & Hclasses & Hcn & Han & Himp & _).
  assert (Hwf1 : well_formed (_model_graph (visitor v1)))
    by (rewrite HG1; by apply well_formed_add_node).
  assert (Hk1 : _pydantic_classes (visitor v') !! name cls = Some c1)
    by (apply Hk; rewrite Hp1; apply lookup_insert_eq).
  assert (Hsince : ∀ x c, extracted_since v v' x c ↔
                          (x = name cls ∧ c = c1) ∨ extracted_since v1 v' x c).
  { intros x c. unfold extracted_since. rewrite Hp1.
    destruct (decide (name cls = x)) as [<-|Hne].
    - rewrite lookup_insert_eq, Hk1. split; [intros [[= <-] _]; by left|].
      intros [[_ ->]|[_ ?]]; done.
    - rewrite lookup_insert_ne by done. split; [by right|]. intros [[? _]|?]; done. }
  assert (Hm : ∀ c, is_model (visitor v1) c ↔ is_model (visitor v) c)
    by (intros c; by apply is_model_frame).
  rewrite Himp, Hclasses in *. setoid_rewrite Hm in Hn. setoid_rewrite Hm in Hcl.
  split; [|by eexists]. split.
  - by eapply same_module_trans.
  - auto.
  - auto.
  - intros x c Hx0. apply Hk. rewrite Hp1.
    rewrite lookup_insert_ne; [done|]. intros <-. congruence.
  - intros _ x y. rewrite He by done. rewrite HG1, edge_add_node by done.
    setoid_rewrite Hsince. rewrite ex_or_distr, ex_eq_and, elem_of_nil. tauto.
  - intros x c Hx0. apply Hsince in Hx0 as [[-> ->]|?]; [by exists cls|by apply (Hn x c)].
  - intros d cd [[]%elem_of_nil|(x & c & Hx0 & Hd)] Hi Hcd Hmd.
    apply Hsince in Hx0 as [[-> ->]|Hx0]; eapply Hcl; eauto.
  - intros d. rewrite Hx, He1. setoid_rewrite Hsince.
    rewrite ex2_or_distr, ex2_eq_and, elem_of_nil. tauto.
  - exists ws. split; [by rewrite Hws, Hw1|]. intros d x. rewrite Hwi.
    setoid_rewrite Hsince. rewrite ex_or_distr, ex_eq_and, elem_of_nil. tauto.
  - intros x [Hx0|(c & Hx0)]; [apply Hnod; left; rewrite HG1, nodes_add_node; auto|].
    apply Hsince in Hx0 as [[-> ->]|Hx0]; apply Hnod;
      [left; rewrite HG1, nodes_add_node; auto|right; eauto].
  - intros x c Hx0. apply Hsince in Hx0 as [[-> ->]|Hx0]; [by eapply finish_finished|].
    apply (finished_frame (visitor v1) (visitor v)); [done..|]. by apply Hfin.
Qed.

Lemma parse_pydantic_model_spec fuel :
  ∀ cls v v',
    consistent v → unnested_nodes v → well_formed (_model_graph (visitor v)) →
    _classes (visitor v) !! name cls = Some cls →
    _parse_pydantic_model fuel cls v = Ret v' →
    (∀ k0, grows_by k0 [] v v')
    ∧ (is_model (visitor v) cls → is_Some (_pydantic_classes (visitor v') !! name cls)).
Proof.
  induction fuel as [|fuel IH]; intros cls v v' Hcv Hun Hwf Hcls; [done|].
  simpl. destruct (_is_pydantic_model fuel (visitor v) cls) as [b|] eqn:Hb; [|done]. simpl.
  destruct b; simpl.
  - case_bool_decide as Hin.
    + intros [= <-]. split; [intros k0; apply grows_by_refl|done].
    + destruct (finish cls v) as [[v1 c1]|] eqn:Hf; [|done]. simpl. intros Hfold.
      destruct (finish_spec v cls v1 c1 Hcv Hun Hcls Hf) as (Hname & Hs1 & Hcv1 & _ & HG1 & _).
      apply process_dependencies_spec in Hfold;
        [|done|done|by apply (unnested_same _ _ Hs1)|].
      2:{ rewrite HG1. by apply well_formed_add_node. }
      rewrite Hname in Hfold.
      assert (Hnone : _pydantic_classes (visitor v) !! name cls = None)
        by (destruct (_pydantic_classes (visitor v) !! name cls); [destruct Hin; by eexists|done]).
      assert (Hmodel : is_model (visitor v) cls) by by exists fuel.
      split.
      * intros k0.
        by destruct (grows_finish k0 cls v v1 c1 v' Hcv Hun Hwf Hcls Hmodel Hnone Hf Hfold).
      * intros _.
        by destruct (grows_finish (name cls) cls v v1 c1 v'
                       Hcv Hun Hwf Hcls Hmodel Hnone Hf Hfold).
  - intros [= <-]. split; [intros k0; apply grows_by_refl|].
    intros [f Hf]. by pose proof (is_pydantic_model_agree _ _ _ _ _ _ Hb Hf).
Qed.

(** ** Parsing the requested models only *)

Lemma parse_only_models_spec fuel ms :
  ∀ v v',
    consistent v → unnested_nodes v → well_formed (_model_graph (visitor v)) →
    foldM (λ v m, cls ← getitem (_classes (visitor v)) m; _parse_pydantic_model fuel cls v)
          v ms = Ret v' →
    (∀ k0, grows_by k0 [] v v')
    ∧ ∀ m, m ∈ ms →
        ∃ cls, _classes (visitor v) !! m = Some cls
               ∧ (is_model (visitor v) cls → is_Some (_pydantic_classes (visitor v') !! m)).
Proof.
  induction ms as [|m ms IH]; intros v v' Hcv Hun Hwf; simpl.
  - intros [= <-]. split; [intros k0; apply grows_by_refl|]. by intros m ?%elem_of_nil.
  - destruct (getitem (_classes (visitor v)) m) as [cls|] eqn:Hm; simpl; [|done].
    unfold getitem in Hm. destruct (_classes (visitor v) !! m) as [cls0|] eqn:Hm0; [|done].
    injection Hm as ->. rename Hm0 into Hm.
    destruct (_parse_pydantic_model fuel cls v) as [v1|] eqn:Hstep; [|done]. simpl.
    intros Hrest.
    pose proof Hcv as (_ & _ & Hnames & _). destruct (Hnames m cls Hm) as [Hname _].
    destruct (parse_pydantic_model_spec fuel cls v v1 Hcv Hun Hwf) as [Hg1 Hm1];
      [by rewrite Hname|done|].
    pose proof (Hg1 m) as Hgm.
    destruct (IH v1 v' (gb_consistent _ _ _ _ Hgm Hcv)
                (unnested_same _ _ (gb_same _ _ _ _ Hgm) Hun)
                (gb_wf _ _ _ _ Hgm Hwf) Hrest)
      as [Hg2 Hm2].
    pose proof (gb_same _ _ _ _ Hgm) as (_ & _ & Hcls & _ & _ & Himp & _).
    split.
    + intros k0. apply (grows_by_trans k0 [] [] v v1 v'); auto.
    + intros m' [->|Hin]%elem_of_cons.
      * exists cls. split; [done|]. intros Hmodel. destruct (Hm1 Hmodel) as [c Hc].
        rewrite Hname in Hc. exists c. by apply (gb_keep _ _ _ _ (Hg2 m)).
      * destruct (Hm2 m' Hin) as (cls' & Hc' & Hi'). exists cls'. rewrite <- Hcls.
        split; [done|]. intros Hmodel. apply Hi'.
        by apply (is_model_frame (visitor v1) (visitor v)).
Qed.

Lemma visit_module_only_spec fuel pkg ops0 only events v' :
  only ≠ ∅ → unnested_events events = true →
  visit_module fuel events (init_visitor pkg (build ops0) only) = Ret v' →
  consistent v' ∧ well_formed (_model_graph (visitor v'))
  ∧ (∀ m, m ∈ only →
       ∃ cls, _classes (visitor v') !! m = Some cls
              ∧ (is_model (visitor v') cls → is_Some (_pydantic_classes (visitor v') !! m)))
  ∧ (∀ k c, _pydantic_classes (visitor v') !! k = Some c →
       k ∈ nodes (_model_graph (visitor v'))
       ∧ ∃ c0, _classes (visitor v') !! k = Some c0 ∧ is_model (visitor v') c0)
  ∧ (∀ k c d cd,
       _pydantic_classes (visitor v') !! k = Some c → d ∈ _class_deps c →
       _imports (visitor v') !! d = None → _classes (visitor v') !! d = Some cd →
       is_model (visitor v') cd → is_Some (_pydantic_classes (visitor v') !! d))
  ∧ (∀ x y, edge (_model_graph (visitor v')) x y ↔
            edge (build ops0) x y
            ∨ ∃ c, _pydantic_classes (visitor v') !! x = Some c ∧ y ∈ _class_deps c)
  ∧ (∀ d, d ∈ _external_models (visitor v') ↔
          ∃ k c, _pydantic_classes (visitor v') !! k = Some c ∧ d ∈ _class_deps c
                 ∧ is_Some (_imports (visitor v') !! d))
  ∧ (∀ d k, CantInfer d k ∈ warnings v' ↔
          ∃ c, _pydantic_classes (visitor v') !! k = Some c ∧ d ∈ _class_deps c
               ∧ _imports (visitor v') !! d = None ∧ _classes (visitor v') !! d = None).
Proof.
  intros Honly Hev. unfold visit_module. intros Hrun.
  destruct (foldM handle (init_visitor pkg (build ops0) only) events) as [v|] eqn:Hwalk;
    [|done].
  simpl in Hrun.
  pose proof (collected_walk _ _ _ _ _ (collected_init pkg (build ops0) only) Hwalk) as Hv.
  pose proof (unnested_walk _ _ _ Hev (unnested_init pkg (build ops0) only) Hwalk) as Hun.
  destruct (collected_graph _ _ _ Hv (well_formed_build ops0)) as [Hwf Hedge0].
  destruct Hv as (Hcv & Hp0 & _ & He0 & Hw0 & Hpo & _).
  unfold leave_Module in Hrun. rewrite decide_False in Hrun by by rewrite Hpo.
  apply parse_only_models_spec in Hrun as [Hg Hreq]; [|done..].
  destruct (Hg EmptyString) as [Hs Hc Hw Hk He Hn Hcl Hx (ws & Hws & Hwi) Hnod _].
  pose proof Hs as (_ & _ & Hcls & _ & _ & Himp & _).
  assert (Hsince : ∀ x c, extracted_since v v' x c ↔ _pydantic_classes (visitor v') !! x = Some c).
  { intros x c. unfold extracted_since. rewrite Hp0, lookup_empty. tauto. }
  assert (Hm : ∀ c, is_model (visitor v') c ↔ is_model (visitor v) c)
    by (intros c; by apply is_model_frame).
  rewrite Hcls, Himp. setoid_rewrite Hm.
  setoid_rewrite Hsince in He. setoid_rewrite Hsince in Hn. setoid_rewrite Hsince in Hcl.
  setoid_rewrite Hsince in Hx. setoid_rewrite Hsince in Hwi. setoid_rewrite Hsince in Hnod.
  split_and!.
  - auto.
  - auto.
  - intros m Hin. apply Hreq. rewrite Hpo. by apply elem_of_elements.
  - intros k c Hkc. split; [apply Hnod; right; eauto|by apply (Hn k c)].
  - intros k c d cd Hkc Hd Hi Hcd Hmd. apply (Hcl d cd); eauto.
  - intros x y. rewrite He, Hedge0 by done.
    split; [intros [?|[[_ ?%elem_of_nil]|?]]; tauto|tauto].
  - intros d. rewrite Hx, He0, elem_of_empty. split.
    + intros [[]|[Hi [?%elem_of_nil|(k & c & Hk1 & Hd)]]]; [done|]. by exists k, c.
    + intros (k & c & Hk1 & Hd & Hi). right. split; [done|]. right. by exists k, c.
  - intros d k. rewrite Hws, Hw0. simpl. rewrite Hwi. split.
    + intros (Hi & Hc0 & [[_ ?%elem_of_nil]|(c & Hk1 & Hd)]); [done|]. by exists c.
    + intros (c & Hk1 & Hd & Hi & Hc0). split_and!; [done..|]. right. by exists c.
Qed.

(** X14.  When the visitor is restricted to a set of requested models,
    no class definition of the module has a class definition nested in it
    and the visit of the module returns: every requested name is a class of
    the module; every extracted model is a class of the module that the
    classifier accepts; a requested class that the classifier accepts is
    extracted, and so is every dependency of an extracted model that is not
    imported and is a class of the module that the classifier accepts. *)
Theorem requested_models_extracted
    (fuel : nat) (pkg : option string) (ops0 : list graph_op) (only : gset string)
    (events : list visit_event) (v' : Visitor) :
  only ≠ ∅ → unnested_events events = true →
  visit_module fuel events (init_visitor pkg (build ops0) only) = Ret v' →
  (∀ m, m ∈ only →
     ∃ cls, _classes (visitor v') !! m = Some cls
            ∧ (is_model (visitor v') cls → is_Some (_pydantic_classes (visitor v') !! m)))
  ∧ (∀ k c, _pydantic_classes (visitor v') !! k = Some c →
       ∃ c0, _classes (visitor v') !! k = Some c0 ∧ is_model (visitor v') c0)
  ∧ (∀ k c d cd,
       _pydantic_classes (visitor v') !! k = Some c → d ∈ _class_deps c →
       _imports (visitor v') !! d = None → _classes (visitor v') !! d = Some cd →
       is_model (visitor v') cd → is_Some (_pydantic_classes (visitor v') !! d)).
Proof.
  intros Honly Hev H.
  apply visit_module_only_spec in H as (_ & _ & Hreq & Hn & Hcl & _); [|done..].
  split_and!; [done| |done]. intros k c Hk. by destruct (Hn k c Hk).
Qed.

(** X15.  When the visitor is restricted to requested models and no
    class definition of the module has a class definition nested in it, the
    graph after the visit has the edges it had before and one edge from
    each extracted model to each of its dependencies, and no other; every
    extracted model is a node; the external models are the dependencies of
    extracted models that have an entry in the import table; a warning is
    logged for a dependency exactly when it has no entry there and is not a
    class of the module. *)
Theorem requested_models_graph
    (fuel : nat) (pkg : option string) (ops0 : list graph_op) (only : gset string)
    (events : list visit_event) (v' : Visitor) :
  only ≠ ∅ → unnested_events events = true →
  visit_module fuel events (init_visitor pkg (build ops0) only) = Ret v' →
  (∀ x y, edge (_model_graph (visitor v')) x y ↔
          edge (build ops0) x y
          ∨ ∃ c, _pydantic_classes (visitor v') !! x = Some c ∧ y ∈ _class_deps c)
  ∧ (∀ k, is_Some (_pydantic_classes (visitor v') !! k) → k ∈ nodes (_model_graph (visitor v')))
  ∧ (∀ d, d ∈ _external_models (visitor v') ↔
          ∃ k c, _pydantic_classes (visitor v') !! k = Some c ∧ d ∈ _class_deps c
                 ∧ is_Some (_imports (visitor v') !! d))
  ∧ (∀ d k, CantInfer d k ∈ warnings v' ↔
          ∃ c, _pydantic_classes (visitor v') !! k = Some c ∧ d ∈ _class_deps c
               ∧ _imports (visitor v') !! d = None ∧ _classes (visitor v') !! d = None).
Proof.
  intros Honly Hev H.
  apply visit_module_only_spec in H as (_ & _ & _ & Hn & _ & He & Hx & Hw); [|done..].
  split_and!; [done| |done|done]. intros k [c Hk]. by destruct (Hn k c Hk).
Qed.

Lemma add_edge_inv w wX k d :
  same_module w wX →
  _pydantic_classes (visitor wX) = _pydantic_classes (visitor w) →
  _pydantic_keys wX = _pydantic_keys w →
  _model_graph (visitor wX) = add_edge k d (_model_graph (visitor w)) →
  consistent w → well_formed (_model_graph (visitor w)) → extracted_are_nodes w →
  consistent wX ∧ well_formed (_model_graph (visitor wX)) ∧ extracted_are_nodes wX.
Proof.
  intros Hs Hp Hpk HG Hcw Hwf Hn. split_and!.
  - by eapply consistent_same.
  - rewrite HG. by apply well_formed_add_edge.
  - intros k0. rewrite Hp, HG, nodes_add_edge. intros Hk0. right. right. by apply Hn.
Qed.

Lemma process_dependency_inv parse_model k d w w' :
  (∀ cls v v',
      consistent v → well_formed (_model_graph (visitor v)) → extracted_are_nodes v →
      parse_model cls v = Ret v' →
      consistent v' ∧ well_formed (_model_graph (visitor v')) ∧ extracted_are_nodes v') →
  consistent w → well_formed (_model_graph (visitor w)) → extracted_are_nodes w →
  process_dependency parse_model k w d = Ret w' →
  consistent w' ∧ well_formed (_model_graph (visitor w')) ∧ extracted_are_nodes w'.
Proof.
  intros IH Hcw Hwf Hn. unfold process_dependency.
  destruct (decide (is_Some (_imports (visitor w) !! d))) as [Hi|Hi].
  - intros [= <-]. by apply (add_edge_inv w _ k d).
  - destruct (_classes (visitor w) !! d) as [cd|].
    + set (wG := mkVisitor _ _ _ _). intros Hrec.
      destruct (add_edge_inv w wG k d) as (? & ? & ?); [done..|]. by eapply IH.
    + intros [= <-]. by apply (add_edge_inv w _ k d).
Qed.

Lemma process_dependencies_inv parse_model k ds :
  (∀ cls v v',
      consistent v → well_formed (_model_graph (visitor v)) → extracted_are_nodes v →
      parse_model cls v = Ret v' →
      consistent v' ∧ well_formed (_model_graph (visitor v')) ∧ extracted_are_nodes v') →
  ∀ w w',
    consistent w → well_formed (_model_graph (visitor w)) → extracted_are_nodes w →
    foldM (process_dependency parse_model k) w ds = Ret w' →
    consistent w' ∧ well_formed (_model_graph (visitor w')) ∧ extracted_are_nodes w'.
Proof.
  intros IH. induction ds as [|d ds IHds]; intros w w' Hcw Hwf Hn; simpl.
  - by intros [= <-].
  - destruct (process_dependency parse_model k w d) as [w1|] eqn:Hstep; [|done]. simpl.
    destruct (process_dependency_inv _ _ _ _ _ IH Hcw Hwf Hn Hstep) as (? & ? & ?).
    by apply IHds.
Qed.

Lemma parse_pydantic_model_inv fuel :
  ∀ cls v v',
    consistent v → well_formed (_model_graph (visitor v)) → extracted_are_nodes v →
    _parse_pydantic_model fuel cls v = Ret v' →
    consistent v' ∧ well_formed (_model_graph (visitor v')) ∧ extracted_are_nodes v'.
Proof.
  induction fuel as [|fuel IH]; intros cls v v' Hcv Hwf Hn; [done|].
  simpl. destruct (_is_pydantic_model fuel (visitor v) cls) as [b|]; [|done]. simpl.
  destruct (negb b || bool_decide (is_Some (_pydantic_classes (visitor v) !! name cls)));
    [by intros [= <-]|].
  destruct (finish cls v) as [[v1 c1]|] eqn:Hf; [|done]. simpl.
  destruct (finish_any v cls v1 c1 Hcv Hf) as (_ & Hcv1 & Hp1 & HG1 & _).
  apply (process_dependencies_inv _ _ _ IH); [done| |].
  - rewrite HG1. by apply well_formed_add_node.
  - intros k. rewrite Hp1, HG1, nodes_add_node, is_Some_lookup_insert.
    intros [->|Hk]; [by left|right; by apply Hn].
Qed.

Lemma parse_only_models_inv fuel ms :
  ∀ v v',
    consistent v → well_formed (_model_graph (visitor v)) → extracted_are_nodes v →
    foldM (λ v m, cls ← getitem (_classes (visitor v)) m; _parse_pydantic_model fuel cls v)
          v ms = Ret v' →
    consistent v' ∧ well_formed (_model_graph (visitor v')) ∧ extracted_are_nodes v'.
Proof.
  induction ms as [|m ms IH]; intros v v' Hcv Hwf Hn; simpl; [by intros [= <-]|].
  destruct (getitem (_classes (visitor v)) m) as [cls|]; simpl; [|done].
  destruct (_parse_pydantic_model fuel cls v) as [v1|] eqn:Hstep; [|done]. simpl.
  destruct (parse_pydantic_model_inv fuel cls v v1 Hcv Hwf Hn Hstep) as (? & ? & ?).
  by apply IH.
Qed.

Lemma visit_module_only_inv fuel pkg ops0 only events v' :
  only ≠ ∅ →
  visit_module fuel events (init_visitor pkg (build ops0) only) = Ret v' →
  consistent v' ∧ well_formed (_model_graph (visitor v')) ∧ extracted_are_nodes v'.
Proof.
  intros Honly. unfold visit_module. intros Hrun.
  destruct (foldM handle (init_visitor pkg (build ops0) only) events) as [v|] eqn:Hwalk;
    [|done].
  simpl in Hrun.
  pose proof (collected_walk _ _ _ _ _ (collected_init pkg (build ops0) only) Hwalk) as Hv.
  destruct (collected_graph _ _ _ Hv (well_formed_build ops0)) as [Hwf _].
  destruct Hv as (Hcv & Hp0 & _ & _ & _ & Hpo & _).
  unfold leave_Module in Hrun. rewrite decide_False in Hrun by by rewrite Hpo.
  apply parse_only_models_inv in Hrun; [done..|].
  intros k [c Hk]. by rewrite Hp0, lookup_empty in Hk.
Qed.

(** X16.  When the visitor is restricted to requested models, [classes]
    lists every extracted model exactly once and nothing else, whether the
    graph has cycles or class definitions are nested or not; and when no
    class definition of the module has a class definition nested in it and
    the graph is acyclic, every model comes after the extracted models
    among its dependencies. *)
Theorem requested_classes_dependencies_first
    (fuel : nat) (pkg : option string) (ops0 : list graph_op) (only : gset string)
    (events : list visit_event) (v' : Visitor) :
  only ≠ ∅ →
  visit_module fuel events (init_visitor pkg (build ops0) only) = Ret v' →
  let O := name <$> classes v' in
  NoDup O
  ∧ (∀ k, k ∈ O ↔ is_Some (_pydantic_classes (visitor v') !! k))
  ∧ (unnested_events events = true → acyclic (_model_graph (visitor v')) →
     ∀ X Y cX i j,
       _pydantic_classes (visitor v') !! X = Some cX → Y ∈ _class_deps cX →
       index_of X O = Some i → index_of Y O = Some j → j < i).
Proof.
  intros Honly H.
  destruct (visit_module_only_inv fuel pkg ops0 only events v' Honly H) as (Hv & Hwf & Hn).
  destruct (classes_names_spec v' Hv Hwf Hn) as [Hnd Hall].
  split_and!; [done..|]. intros Hev Hacyclic.
  apply visit_module_only_spec in H as (_ & _ & _ & _ & _ & Hedge & _); [|done..].
  apply classes_order_spec; [done..| |done].
  intros x c y Hx Hy. apply Hedge. right. eauto.
Qed.

Lemma visit_module_only_well_formed fuel pkg ops0 only events v' :
  only ≠ ∅ →
  visit_module fuel events (init_visitor pkg (build ops0) only) = Ret v' →
  well_formed (_model_graph (visitor v')).
Proof. intros Honly H. by apply visit_module_only_inv in H as (_ & Hwf & _). Qed.

Lemma depends_on_mono w w' :
  (∀ x c, _pydantic_classes (visitor w) !! x = Some c →
          _pydantic_classes (visitor w') !! x = Some c) →
  ∀ a b, rtc (depends_on (visitor w)) a b → rtc (depends_on (visitor w')) a b.
Proof.
  intros Hk a b H. induction H as [|a b0 b (c & Hc & Hd) _ IH]; [constructor|].
  eapply rtc_l; [|exact IH]. exists c. split; [by apply Hk|done].
Qed.

Lemma process_dependency_reach parse_model k d w w' :
  (∀ cls v v',
      consistent v → unnested_nodes v → well_formed (_model_graph (visitor v)) →
      _classes (visitor v) !! name cls = Some cls →
      parse_model cls v = Ret v' →
      ∀ x c, extracted_since v v' x c → rtc (depends_on (visitor v')) (name cls) x) →
  consistent w → unnested_nodes w → well_formed (_model_graph (visitor w)) →
  process_dependency parse_model k w d = Ret w' →
  ∀ x c, extracted_since w w' x c → rtc (depends_on (visitor w')) d x.
Proof.
  intros IH Hcw Hun Hwf. unfold process_dependency.
  destruct (decide (is_Some (_imports (visitor w) !! d))) as [Hi|Hi].
  - intros [= <-] x c [Hx Hn]. simpl in Hx. congruence.
  - destruct (_classes (visitor w) !! d) as [cd|] eqn:Hcd.
    + set (wG := mkVisitor _ _ _ _). intros Hrec x c Hx.
      pose proof Hcw as (_ & _ & Hnames & _). destruct (Hnames d cd Hcd) as [Hname _].
      rewrite <- Hname. apply (IH cd wG w') with (c := c); [| | | |done|exact Hx].
      * by eapply consistent_same; [| | |exact Hcw].
      * intros k1 node1. apply Hun.
      * by apply well_formed_add_edge.
      * simpl. by rewrite Hname.
    + intros [= <-] x c [Hx Hn]. simpl in Hx. congruence.
Qed.

Lemma process_dependencies_reach parse_model k ds :
  (∀ cls v v',
      consistent v → unnested_nodes v → well_formed (_model_graph (visitor v)) →
      _classes (visitor v) !! name cls = Some cls →
      parse_model cls v = Ret v' →
      (∀ k0, grows_by k0 [] v v')
      ∧ (is_model (visitor v) cls → is_Some (_pydantic_classes (visitor v') !! name cls))) →
  (∀ cls v v',
      consistent v → unnested_nodes v → well_formed (_model_graph (visitor v)) →
      _classes (visitor v) !! name cls = Some cls →
      parse_model cls v = Ret v' →
      ∀ x c, extracted_since v v' x c → rtc (depends_on (visitor v')) (name cls) x) →
  ∀ w w',
    consistent w → unnested_nodes w → well_formed (_model_graph (visitor w)) →
    foldM (process_dependency parse_model k) w ds = Ret w' →
    ∀ x c, extracted_since w w' x c → ∃ d, d ∈ ds ∧ rtc (depends_on (visitor w')) d x.
Proof.
  intros Hspec Hreach. induction ds as [|d ds IHds]; intros w w' Hcw Hun Hwf; simpl.
  - intros [= <-] x c [Hx Hn]. congruence.
  - destruct (process_dependency parse_model k w d) as [w1|] eqn:Hstep; [|done]. simpl.
    intros Hrest x c Hx.
    pose proof (process_dependency_spec _ _ _ _ _ Hspec Hcw Hun Hwf Hstep) as Hg1.
    pose proof (gb_consistent _ _ _ _ Hg1 Hcw) as Hcw1.
    pose proof (unnested_same _ _ (gb_same _ _ _ _ Hg1) Hun) as Hun1.
    pose proof (gb_wf _ _ _ _ Hg1 Hwf) as Hwf1.
    pose proof (process_dependencies_spec _ _ _ Hspec _ _ Hcw1 Hun1 Hwf1 Hrest) as Hg2.
    apply (extracted_since_trans w w1 w' x c (gb_keep _ _ _ _ Hg1) (gb_keep _ _ _ _ Hg2))
      in Hx as [Hx|Hx].
    + exists d. split; [by left|].
      apply (depends_on_mono w1 w' (gb_keep _ _ _ _ Hg2)).
      by apply (process_dependency_reach parse_model k d w w1 Hreach Hcw Hun Hwf Hstep x c).
    + destruct (IHds w1 w' Hcw1 Hun1 Hwf1 Hrest x c Hx) as (d' & Hd' & Hr).
      exists d'. split; [by right|done].
Qed.

Lemma extracted_since_finish v cls v1 c1 v' :
  consistent v → unnested_nodes v → _classes (visitor v) !! name cls = Some cls →
  _pydantic_classes (visitor v) !! name cls = None →
  finish cls v = Ret (v1, c1) →
  (∀ x c, _pydantic_classes (visitor v1) !! x = Some c →
          _pydantic_classes (visitor v') !! x = Some c) →
  ∀ x c, extracted_since v v' x c ↔ (x = name cls ∧ c = c1) ∨ extracted_since v1 v' x c.
Proof.
  intros Hcv Hun Hcls Hnone Hf Hk.
  destruct (finish_spec v cls v1 c1 Hcv Hun Hcls Hf) as (_ & _ & _ & Hp1 & _).
  assert (Hk1 : _pydantic_classes (visitor v') !! name cls = Some c1)
    by (apply Hk; rewrite Hp1; apply lookup_insert_eq).
  intros x c. unfold extracted_since. rewrite Hp1.
  destruct (decide (name cls = x)) as [<-|Hne].
  - rewrite lookup_insert_eq, Hk1. split; [intros [[= <-] _]; by left|].
    intros [[_ ->]|[_ ?]]; done.
  - rewrite lookup_insert_ne by done. split; [by right|]. intros [[? _]|?]; done.
Qed.

Lemma parse_pydantic_model_reach fuel :
  ∀ cls v v',
    consistent v → unnested_nodes v → well_formed (_model_graph (visitor v)) →
    _classes (visitor v) !! name cls = Some cls →
    _parse_pydantic_model fuel cls v = Ret v' →
    ∀ x c, extracted_since v v' x c → rtc (depends_on (visitor v')) (name cls) x.
Proof.
  induction fuel as [|fuel IH]; intros cls v v' Hcv Hun Hwf Hcls; [done|].
  simpl. destruct (_is_pydantic_model fuel (visitor v) cls) as [b|] eqn:Hb; [|done]. simpl.
  destruct b; simpl.
  - case_bool_decide as Hin.
    + intros [= <-] x c [Hx Hn]. congruence.
    + destruct (finish cls v) as [[v1 c1]|] eqn:Hf; [|done]. simpl. intros Hfold x c Hx.
      destruct (finish_spec v cls v1 c1 Hcv Hun Hcls Hf)
        as (Hname & Hs1 & Hcv1 & Hp1 & HG1 & _).
      pose proof (unnested_same _ _ Hs1 Hun) as Hun1.
      assert (Hwf1 : well_formed (_model_graph (visitor v1)))
        by (rewrite HG1; by apply well_formed_add_node).
      assert (Hnone : _pydantic_classes (visitor v) !! name cls = None)
        by (destruct (_pydantic_classes (visitor v) !! name cls);
            [destruct Hin; by eexists|done]).
      pose proof (process_dependencies_spec _ _ _ (parse_pydantic_model_spec fuel)
                    _ _ Hcv1 Hun1 Hwf1 Hfold) as Hg.
      apply (extracted_since_finish v cls v1 c1 v' Hcv Hun Hcls Hnone Hf (gb_keep _ _ _ _ Hg))
        in Hx as [[-> ->]|Hx]; [constructor|].
      destruct (process_dependencies_reach _ _ _ (parse_pydantic_model_spec fuel) IH
                  _ _ Hcv1 Hun1 Hwf1 Hfold x c Hx) as (d & Hd & Hr).
      eapply rtc_l; [|exact Hr]. exists c1. split; [|done].
      apply (gb_keep _ _ _ _ Hg). rewrite Hp1. apply lookup_insert_eq.
  - intros [= <-] x c [Hx Hn]. congruence.
Qed.

Lemma parse_only_models_reach fuel ms :
  ∀ v v',
    consistent v → unnested_nodes v → well_formed (_model_graph (visitor v)) →
    foldM (λ v m, cls ← getitem (_classes (visitor v)) m; _parse_pydantic_model fuel cls v)
          v ms = Ret v' →
    ∀ x c, extracted_since v v' x c → ∃ m, m ∈ ms ∧ rtc (depends_on (visitor v')) m x.
Proof.
  induction ms as [|m ms IH]; intros v v' Hcv Hun Hwf; simpl.
  - intros [= <-] x c [Hx Hn]. congruence.
  - destruct (getitem (_classes (visitor v)) m) as [cls|] eqn:Hm; simpl; [|done].
    unfold getitem in Hm. destruct (_classes (visitor v) !! m) as [cls0|] eqn:Hm0; [|done].
    injection Hm as ->. rename Hm0 into Hm.
    destruct (_parse_pydantic_model fuel cls v) as [v1|] eqn:Hstep; [|done]. simpl.
    intros Hrest x c Hx.
    pose proof Hcv as (_ & _ & Hnames & _). destruct (Hnames m cls Hm) as [Hname _].
    rewrite <- Hname in Hm.
    destruct (parse_pydantic_model_spec fuel cls v v1 Hcv Hun Hwf Hm Hstep) as [Hg1 _].
    pose proof (gb_consistent _ _ _ _ (Hg1 m) Hcv) as Hcv1.
    pose proof (unnested_same _ _ (gb_same _ _ _ _ (Hg1 m)) Hun) as Hun1.
    pose proof (gb_wf _ _ _ _ (Hg1 m) Hwf) as Hwf1.
    destruct (parse_only_models_spec fuel ms v1 v' Hcv1 Hun1 Hwf1 Hrest) as [Hg2 _].
    apply (extracted_since_trans v v1 v' x c (gb_keep _ _ _ _ (Hg1 m)) (gb_keep _ _ _ _ (Hg2 m)))
      in Hx as [Hx|Hx].
    + exists m. split; [by left|]. rewrite <- Hname.
      apply (depends_on_mono v1 v' (gb_keep _ _ _ _ (Hg2 m))).
      by apply (parse_pydantic_model_reach fuel cls v v1 Hcv Hun Hwf Hm Hstep x c).
    + destruct (IH v1 v' Hcv1 Hun1 Hwf1 Hrest x c Hx) as (m' & Hm' & Hr).
      exists m'. split; [by right|done].
Qed.

(** X17.  When the visitor is restricted to requested models and no
    class definition of the module has a class definition nested in it,
    every extracted model is a requested one or is reached from a requested
    one along dependencies of extracted models: nothing else is
    extracted. *)
Theorem extracted_models_are_needed
    (fuel : nat) (pkg : option string) (ops0 : list graph_op) (only : gset string)
    (events : list visit_event) (v' : Visitor) (k : string) :
  only ≠ ∅ → unnested_events events = true →
  visit_module fuel events (init_visitor pkg (build ops0) only) = Ret v' →
  is_Some (_pydantic_classes (visitor v') !! k) →
  ∃ m, m ∈ only ∧ rtc (depends_on (visitor v')) m k.
Proof.
  intros Honly Hev. unfold visit_module. intros Hrun [c Hk].
  destruct (foldM handle (init_visitor pkg (build ops0) only) events) as [v|] eqn:Hwalk;
    [|done].
  simpl in Hrun.
  pose proof (collected_walk _ _ _ _ _ (collected_init pkg (build ops0) only) Hwalk) as Hv.
  pose proof (unnested_walk _ _ _ Hev (unnested_init pkg (build ops0) only) Hwalk) as Hun.
  destruct (collected_graph _ _ _ Hv (well_formed_build ops0)) as [Hwf _].
  destruct Hv as (Hcv & Hp0 & _ & _ & _ & Hpo & _).
  unfold leave_Module in Hrun. rewrite decide_False in Hrun by by rewrite Hpo.
  destruct (parse_only_models_reach fuel _ v v' Hcv Hun Hwf Hrun k c) as (m & Hm & Hr).
  - split; [done|]. by rewrite Hp0, lookup_empty.
  - exists m. split; [|done]. rewrite Hpo in Hm. by apply elem_of_elements in Hm.
Qed.

Lemma requested_models_extracted_witness :
  is_Some (_pydantic_classes (visitor only_visitor) !! "Order")
  ∧ is_Some (_pydantic_classes (visitor only_visitor) !! "Item").
Proof.
  destruct (requested_models_extracted 100 (Some "shop") [] {["Order"]} order_events
              only_visitor) as (Hreq & _ & Hcl); [done|reflexivity|vm_compute; reflexivity|].
  split.
  - destruct (Hreq "Order") as (cls & Hc & Hi); [by apply elem_of_singleton|].
    apply Hi. exists 100.
    assert (Hcls : _classes (visitor only_visitor) !! "Order"
                   = Some (skeleton "Order" ["BaseModel"])) by (vm_compute; reflexivity).
    rewrite Hcls in Hc. injection Hc as <-. vm_compute. reflexivity.
  - eapply (Hcl "Order" _ "Item" (skeleton "Item" ["BaseModel"]));
      [vm_compute; reflexivity|vm_compute; repeat constructor|vm_compute; reflexivity
      |vm_compute; reflexivity|exists 100; vm_compute; reflexivity].
Defined.

Lemma requested_models_graph_witness :
  edge (_model_graph (visitor only_visitor)) "Order" "Item"
  ∧ "Customer" ∈ _external_models (visitor only_visitor)
  ∧ CantInfer "Coupon" "Order" ∈ warnings only_visitor.
Proof.
  destruct (requested_models_graph 100 (Some "shop") [] {["Order"]} order_events
              only_visitor) as (He & _ & Hx & Hw); [done|reflexivity|vm_compute; reflexivity|].
  split_and!.
  - apply He. right. eexists. split; [vm_compute; reflexivity|].
    vm_compute. repeat constructor.
  - apply Hx. exists "Order". eexists. split; [vm_compute; reflexivity|].
    split; [vm_compute; repeat constructor|]. eexists. vm_compute. reflexivity.
  - apply Hw. eexists. split; [vm_compute; reflexivity|].
    split; [vm_compute; repeat constructor|]. split; vm_compute; reflexivity.
Defined.

Lemma requested_classes_dependencies_first_witness :
  name <$> classes only_visitor = ["Item"; "Order"]
  ∧ NoDup (name <$> classes only_visitor)
  ∧ ∀ X Y cX i j,
      _pydantic_classes (visitor only_visitor) !! X = Some cX → Y ∈ _class_deps cX →
      index_of X (name <$> classes only_visitor) = Some i →
      index_of Y (name <$> classes only_visitor) = Some j → j < i.
Proof.
  split; [vm_compute; reflexivity|].
  destruct (requested_classes_dependencies_first 100 (Some "shop") [] {["Order"]}
              order_events only_visitor)
    as (Hnd & _ & Hord); [done|vm_compute; reflexivity|].
  split; [exact Hnd|]. apply Hord; [reflexivity|].
  apply (ranked_acyclic _ order_rank);
    [apply (visit_module_only_well_formed 100 (Some "shop") [] {["Order"]} order_events
              only_visitor); [done|vm_compute; reflexivity]
    |vm_compute; reflexivity].
Defined.

Lemma extracted_models_are_needed_witness :
  ∃ m, m ∈ ({["Order"]} : gset string) ∧ rtc (depends_on (visitor only_visitor)) m "Item".
Proof.
  apply (extracted_models_are_needed 100 (Some "shop") [] {["Order"]} order_events
           only_visitor "Item"); [done|reflexivity|vm_compute; reflexivity|].
  eexists. vm_compute. reflexivity.
Defined.

(** ** What an extracted model holds *)

Lemma parse_all_fold_finished fuel L :
  ∀ v v',
    consistent v → unnested_nodes v →
    (∀ c, c ∈ L → _classes (visitor v) !! name c = Some c) →
    foldM (λ v cls_decl,
             is_model ← _is_pydantic_model fuel (visitor v) cls_decl;
             if (is_model : bool) then r ← finish cls_decl v; Ret r.1 else Ret v) v L
    = Ret v' →
    (∀ k c, _pydantic_classes (visitor v) !! k = Some c → finished (visitor v) k c) →
    ∀ k c, _pydantic_classes (visitor v') !! k = Some c → finished (visitor v') k c.
Proof.
  induction L as [|c0 L IH]; intros v v' Hv Hun HL; simpl; [by intros [= <-]|].
  destruct (_is_pydantic_model fuel (visitor v) c0) as [[|]|] eqn:Hm; simpl; [| |done].
  - destruct (finish c0 v) as [[v1 cls]|] eqn:Hf; [|done]. simpl. intros Hrest Hinv.
    destruct (finish_spec v c0 v1 cls Hv Hun (HL c0 (list_elem_of_here _ _)) Hf)
      as (Hname & Hsame & Hv1 & Hp1 & _).
    pose proof Hsame as (_ & _ & Hcls & Hcn & Han & _).
    apply (IH v1 v' Hv1 (unnested_same _ _ Hsame Hun)); [|done|].
    + intros c' Hc'. rewrite Hcls. by apply HL, list_elem_of_further.
    + intros k c. rewrite Hp1. intros Hk.
      apply (finished_frame (visitor v) (visitor v1)); [done..|].
      destruct (decide (name c0 = k)) as [<-|Hne].
      * rewrite lookup_insert_eq in Hk. injection Hk as <-. by eapply finish_finished.
      * rewrite lookup_insert_ne in Hk by done. by apply Hinv.
  - intros Hrest Hinv. apply (IH v v' Hv Hun); [|done..].
    intros c' Hc'. by apply HL, list_elem_of_further.
Qed.

Lemma visit_module_finished fuel pkg ops0 only events v' :
  unnested_events events = true →
  visit_module fuel events (init_visitor pkg (build ops0) only) = Ret v' →
  consistent v'
  ∧ ∀ k c, _pydantic_classes (visitor v') !! k = Some c →
           is_Some (_classes (visitor v') !! k) ∧ finished (visitor v') k c.
Proof.
  unfold visit_module. intros Hev Hrun.
  destruct (foldM handle (init_visitor pkg (build ops0) only) events) as [v|] eqn:Hwalk;
    [|done].
  simpl in Hrun.
  pose proof (collected_walk _ _ _ _ _ (collected_init pkg (build ops0) only) Hwalk) as Hv.
  pose proof (unnested_walk _ _ _ Hev (unnested_init pkg (build ops0) only) Hwalk) as Hun.
  destruct (decide (only = ∅)) as [->|Honly].
  - destruct (leave_Module_all_spec fuel _ v v' Hv Hrun) as (Hsame & Hv' & _).
    pose proof (leave_Module_all_models fuel _ v v' Hv Hun Hrun) as Hp.
    split; [done|].
    destruct Hv as (Hcv & Hp0 & _ & _ & _ & Hpo & _).
    unfold leave_Module in Hrun. rewrite decide_True in Hrun by done.
    destruct (_parse_all_classes fuel v) as [v1|] eqn:Hall; [|done]. simpl in Hrun.
    injection Hrun as <-.
    destruct (add_dependencies_fold
                (dict_values (_pydantic_keys v1) (_pydantic_classes (visitor v1))) v1)
      as (((_ & _ & Hcls2 & Hcn2 & Han2 & _) & Hp2 & _) & _).
    set (v2 := foldl _ v1 _) in *.
    intros k c Hk. split.
    + destruct (proj1 (Hp k) (ex_intro _ c Hk)) as (c0 & Hc0 & _).
      pose proof Hsame as (_ & _ & Hcls & _). rewrite Hcls. by eexists.
    + apply (finished_frame (visitor v1) (visitor v2)); [done..|].
      rewrite Hp2 in Hk. pose proof Hcv as (_ & _ & Hnames & _).
      apply (parse_all_fold_finished fuel
               (dict_values (_classes_keys v) (_classes (visitor v))) v v1 Hcv Hun)
        with (k := k) (c := c); [|exact Hall| |done].
      * intros c' (k' & _ & Hk')%elem_of_dict_values. by destruct (Hnames k' c' Hk') as [-> _].
      * intros k' c'. by rewrite Hp0, lookup_empty.
  - destruct (collected_graph _ _ _ Hv (well_formed_build ops0)) as [Hwf _].
    destruct Hv as (Hcv & Hp0 & _ & _ & _ & Hpo & _).
    unfold leave_Module in Hrun. rewrite decide_False in Hrun by by rewrite Hpo.
    apply parse_only_models_spec in Hrun as [Hg _]; [|done..].
    destruct (Hg EmptyString) as [Hs Hc _ _ _ Hn _ _ _ _ Hfin].
    split; [auto|].
    pose proof Hs as (_ & _ & Hcls & Hcn & Han & _).
    intros k c Hk.
    assert (Hx : extracted_since v v' k c) by (split; [done|by rewrite Hp0, lookup_empty]).
    split.
    + destruct (Hn k c Hx) as (c0 & Hc0 & _). rewrite Hcls. by eexists.
    + apply (finished_frame (visitor v) (visitor v')); [done..|]. by apply Hfin.
Qed.

(** X18.  After the visit of a module in which no class definition has a
    class definition nested in it, restricted to requested models or not,
    every extracted model is a class of the module, and it is what
    [_finish_parsing_class] returns for that class on the visitor as it is
    after the visit: the full parse of the class definition recorded under
    its name, with the aliases resolved against all alias declarations of
    the module, also those that come after the class. *)
Theorem extracted_model_is_finished_class
    (fuel : nat) (pkg : option string) (ops0 : list graph_op) (only : gset string)
    (events : list visit_event) (v' : Visitor) (k : string) (c : ClassDecl) :
  unnested_events events = true →
  visit_module fuel events (init_visitor pkg (build ops0) only) = Ret v' →
  _pydantic_classes (visitor v') !! k = Some c →
  ∃ d self',
    _classes (visitor v') !! k = Some d
    ∧ _finish_parsing_class (visitor v') d = Ret (self', c).
Proof.
  intros Hev H Hk. apply visit_module_finished in H as [Hv Hfin]; [|done].
  destruct (Hfin k c Hk) as [[d Hd] (d0 & self' & Hname & Hf)].
  exists d, self'. split; [done|].
  pose proof Hv as (_ & _ & Hnames & _). destruct (Hnames k d Hd) as [Hnd _].
  unfold _finish_parsing_class in *. by rewrite Hnd, <- Hname.
Qed.

Lemma extracted_model_is_finished_class_witness :
  ∃ d self',
    _classes (visitor late_alias_visitor) !! "User" = Some d
    ∧ _finish_parsing_class (visitor late_alias_visitor) d
      = Ret (self',
             mkClassDecl "User" ["BaseModel"]
               [mkClassField "id" (PrimitiveType "int") None None] None).
Proof.
  apply (extracted_model_is_finished_class 100 None [] ∅ late_alias_events
           late_alias_visitor "User"); [reflexivity|vm_compute; reflexivity..].
Defined.
